(** * discoursegraphs: token offsets, natural sorting, bracket rendering
      and the Penn Treebank importer

    A shallow embedding of

    - [discoursegraphs/util.py]: [TokenMapper], [get_segment_token_offsets],
      [natural_sort_key];
    - [discoursegraphs/readwrite/brackets.py]: [gen_bracket_mappings],
      [gen_closing_string], [gen_bracketed_output];
    - [discoursegraphs/readwrite/ptb.py]: [PTBDocumentGraph].

    Python [str] values are modelled as [string] (byte strings), Python
    [int] values as [Z] (or [N] where the code can only produce naturals),
    [dict]s as [gmap]s, [list]s as [list]s.  A Python call that can raise
    returns a [result]. *)

From Stdlib Require Import ZArith NArith String Ascii List Sorted Permutation Lia.
From stdpp Require Import gmap strings list fin_maps sorting.

(** ** Exceptions *)

(** The built-in exceptions the modelled code can raise: [KeyError] from
    [d[k]] on a missing key, [ValueError] from [min]/[max] of an empty
    sequence, [IndexError] from [l[0]], [l[-1]] or [l.pop()] on an empty
    list. *)
Inductive exn : Set :=
| KeyError
| ValueError
| IndexError.

Inductive result (A : Type) : Type :=
| Ok (a : A)
| Raise (e : exn).
Arguments Ok {A} a.
Arguments Raise {A} e.

Definition rbind {A B : Type} (r : result A) (k : A → result B) : result B :=
  match r with
  | Ok a => k a
  | Raise e => Raise e
  end.

Notation "x ←' r ; k" := (rbind r (fun x => k))
  (at level 20, r at level 100, k at level 200, right associativity,
   format "'[' x  ←'  r ; '/' k ']'").
Notation "' p ←' r ; k" := (rbind r (fun x => match x with p => k end))
  (at level 20, p pattern, r at level 100, k at level 200,
   right associativity).

(** [d[k]] on a dict. *)
Definition getitem {K V : Type} `{Countable K} (d : gmap K V) (k : K)
  : result V :=
  match d !! k with
  | Some v => Ok v
  | None => Raise KeyError
  end.

(** [[f(x) for x in l]], evaluated left to right; the first element that
    raises aborts the comprehension. *)
Fixpoint comprehension {A B : Type} (f : A → result B) (l : list A)
  : result (list B) :=
  match l with
  | [] => Ok []
  | x :: l' =>
      y ←' f x;
      ys ←' comprehension f l';
      Ok (y :: ys)
  end.

(** [min(l)] and [max(l)] on a list of ints. *)
Definition py_min (l : list Z) : result Z :=
  match l with
  | [] => Raise ValueError
  | x :: l' => Ok (foldl Z.min x l')
  end.

Definition py_max (l : list Z) : result Z :=
  match l with
  | [] => Raise ValueError
  | x :: l' => Ok (foldl Z.max x l')
  end.

(** Python 2 ordering of the values a sort key can hold: ints compare
    numerically, strings byte-wise, and an int is smaller than any
    string. *)
Inductive key_item : Set :=
| KStr (s : string)
| KInt (n : N).

Definition item_compare (a b : key_item) : comparison :=
  match a, b with
  | KInt n, KInt m => N.compare n m
  | KStr s, KStr t => String.compare s t
  | KInt _, KStr _ => Lt
  | KStr _, KInt _ => Gt
  end.

(** Comparison of two Python lists: the first pair of unequal items
    decides; if there is none the shorter list is the smaller. *)
Fixpoint key_compare (a b : list key_item) : comparison :=
  match a, b with
  | [], [] => Eq
  | [], _ :: _ => Lt
  | _ :: _, [] => Gt
  | x :: a', y :: b' =>
      match item_compare x y with
      | Eq => key_compare a' b'
      | c => c
      end
  end.

Definition key_lt (a b : list key_item) : bool :=
  match key_compare a b with
  | Lt => true
  | _ => false
  end.

(** [sorted(l, key=key)]: Python's sort is stable and compares keys with
    [<] only, which fixes its result: an element moves in front of another
    exactly when its key is strictly smaller.  [insert_by x l] puts [x],
    which preceded all of [l] in the input, into the sorted [l]. *)
Section Sorted.
Context {A : Type} (key : A → list key_item).

Fixpoint insert_by (x : A) (l : list A) : list A :=
  match l with
  | [] => [x]
  | y :: l' =>
      if key_lt (key y) (key x) then y :: insert_by x l'
      else x :: y :: l'
  end.

Definition sorted (l : list A) : list A := foldr insert_by [] l.
End Sorted.

(** [itertools.chain] applied to the unpacked list of lists. *)
Definition chain {A : Type} (ls : list (list A)) : list A := concat ls.

(** ** util.py *)

Module util.

(** [enumerate(l)], counting from [i]. *)
Fixpoint enumerate_from {A : Type} (i : Z) (l : list A) : list (Z * A) :=
  match l with
  | [] => []
  | x :: l' => (i, x) :: enumerate_from (i + 1) l'
  end.

Definition enumerate {A : Type} (l : list A) : list (Z * A) :=
  enumerate_from 0 l.

(** [class TokenMapper]: the two dicts built by [__init__]. *)
Record TokenMapper : Type := mkTokenMapper {
  id2index : gmap string Z;
  index2id : gmap Z string
}.

(** One iteration of the loop in [TokenMapper.__init__]. *)
Definition TokenMapper_step (self : TokenMapper) (p : Z * string)
  : TokenMapper :=
  let '(token_index, token_id) := p in
  {| id2index := <[token_id := token_index]> (id2index self);
     index2id := <[token_index := token_id]> (index2id self) |}.

(** [TokenMapper.__init__(self, docgraph)], on [docgraph.tokens]. *)
Definition TokenMapper_init (tokens : list string) : TokenMapper :=
  foldl TokenMapper_step {| id2index := ∅; index2id := ∅ |}
        (enumerate tokens).

(** [get_segment_token_offsets(segment_token_list, token_map)]. *)
Definition get_segment_token_offsets
    (segment_token_list : list string) (token_map : gmap string Z)
  : result (Z * Z) :=
  token_indices ←' comprehension (getitem token_map) segment_token_list;
  lo ←' py_min token_indices;
  hi ←' py_max token_indices;
  Ok (lo, hi).

(** The characters matched by [INTEGER_RE = re.compile('([0-9]+)')]. *)
Definition is_digit (c : ascii) : bool :=
  (48 <=? N_of_ascii c)%N && (N_of_ascii c <=? 57)%N.

(** [re.split(INTEGER_RE, s)].  The pattern has one capturing group, so
    the result alternates text and digit runs, starting and ending with a
    (possibly empty) text run.  [cur] is the run being read and
    [in_digits] tells whether it is a digit run. *)
Fixpoint split_go (s : string) (in_digits : bool) (cur : string)
  : list string :=
  match s with
  | EmptyString => if in_digits then [cur; EmptyString] else [cur]
  | String c s' =>
      if is_digit c then
        if in_digits then split_go s' true (cur +:+ String c EmptyString)
        else cur :: split_go s' true (String c EmptyString)
      else
        if in_digits then cur :: split_go s' false (String c EmptyString)
        else split_go s' false (cur +:+ String c EmptyString)
  end.

Definition re_split_INTEGER_RE (s : string) : list string :=
  split_go s false EmptyString.

(** [text.isdigit()] on a byte string. *)
Fixpoint all_digits (s : string) : bool :=
  match s with
  | EmptyString => true
  | String c s' => is_digit c && all_digits s'
  end.

Definition isdigit (text : string) : bool :=
  match text with
  | EmptyString => false
  | _ => all_digits text
  end.

(** [int(text)] on a string of decimal digits. *)
Fixpoint int_go (acc : N) (s : string) : N :=
  match s with
  | EmptyString => acc
  | String c s' => int_go (10 * acc + (N_of_ascii c - 48))%N s'
  end.

Definition int (text : string) : N := int_go 0%N text.

(** [natural_sort_key(s)]. *)
Definition natural_sort_key (s : string) : list key_item :=
  (fun text => if isdigit text then KInt (int text) else KStr text)
    <$> re_split_INTEGER_RE s.

(** A node or edge id: an [int], or a [str] (or [unicode]) string. *)
Inductive NodeId : Type :=
| IntId (n : Z)
| StrId (s : string).

(** [FORBIDDEN_XPOINTER_RE.sub('_', s)], the pattern being [':']: every
    colon is replaced by an underscore. *)
Fixpoint FORBIDDEN_XPOINTER_RE_sub (s : string) : string :=
  match s with
  | EmptyString => EmptyString
  | String c s' =>
      String (if Ascii.eqb c ":" then "_"%char else c)
             (FORBIDDEN_XPOINTER_RE_sub s')
  end.

(** [ensure_xpointer_compatibility(node_id)].  The assertion on the type
    of [node_id] holds for every [node_id]. *)
Definition ensure_xpointer_compatibility (node_id : NodeId) : NodeId :=
  match node_id with
  | StrId s => StrId (FORBIDDEN_XPOINTER_RE_sub s)
  | IntId n => IntId n
  end.

(** [add_prefix(dict_like, prefix)] on a dict: the dict comprehension
    [{prefix + k: v for (k, v) in dict_like.items()}]. *)
Definition add_prefix {V : Type} (dict_like : gmap string V)
    (prefix : string) : gmap string V :=
  list_to_map ((fun kv => (prefix +:+ kv.1, kv.2)) <$> map_to_list dict_like).

End util.

(** ** Loops and list primitives *)

(** [for x in l: s = body(s, x)], where the body may raise. *)
Section ForLoop.
Context {A S : Type} (body : S → A → result S).

Fixpoint for_each (s : S) (l : list A) : result S :=
  match l with
  | [] => Ok s
  | x :: l' =>
      s' ←' body s x;
      for_each s' l'
  end.
End ForLoop.

(** [l[0]] and [l[-1]]. *)
Definition item_first {A : Type} (l : list A) : result A :=
  match l with
  | [] => Raise IndexError
  | x :: _ => Ok x
  end.

Definition item_last {A : Type} (l : list A) : result A :=
  match last l with
  | None => Raise IndexError
  | Some x => Ok x
  end.

(** [l.pop()]: removes and returns the last element. *)
Fixpoint pop {A : Type} (l : list A) : result (A * list A) :=
  match l with
  | [] => Raise IndexError
  | y :: l' =>
      match l' with
      | [] => Ok (y, [])
      | _ :: _ =>
          '(x, r) ←' pop l';
          Ok (x, y :: r)
      end
  end.

(** [[l.pop() for i in range(n)]], with the list left behind. *)
Fixpoint pop_n {A : Type} (n : nat) (l : list A)
  : result (list A * list A) :=
  match n with
  | O => Ok ([], l)
  | S n' =>
      '(x, l1) ←' pop l;
      '(xs, l2) ←' pop_n n' l1;
      Ok (x :: xs, l2)
  end.

(** [d[k].append(x)] on a [defaultdict(list)]. *)
Definition dd_append (d : gmap string (list string)) (k x : string)
  : gmap string (list string) :=
  <[k := default [] (d !! k) ++ [x]]> d.

(** [u''.join(l)] and [s * n]. *)
Definition str_join (l : list string) : string :=
  foldr String.append EmptyString l.

Fixpoint str_repeat (s : string) (n : nat) : string :=
  match n with
  | O => EmptyString
  | S n' => s +:+ str_repeat s n'
  end.

(** ** readwrite/brackets.py *)

Module brackets.

(** What the module reads from a document graph.  [get_token],
    [dg.get_pointing_chains] and [spanstring2tokens] belong to parts of
    the package that are not among the modelled files, so their results
    are data of the graph:
    - [tokens]: [docgraph.tokens];
    - [get_token t]: [docgraph.get_token(t)];
    - [pointing_chains]: [dg.get_pointing_chains(docgraph)];
    - [ns]: [docgraph.ns];
    - [node]: [docgraph.node], the dict of the attribute dicts of the
      nodes, with the attributes that hold a string;
    - [spanstring2tokens s]: [spanstring2tokens(docgraph, s)]. *)
Record DocGraph : Type := mkDocGraph {
  tokens : list string;
  get_token : string → string;
  pointing_chains : list (list string);
  ns : string;
  node : gmap string (gmap string string);
  spanstring2tokens : string → list string
}.

(** [docgraph.node[markable][docgraph.ns+':span']]: each of the two
    subscripts raises [KeyError] on a missing key. *)
Definition span_attr (docgraph : DocGraph) (markable : string)
  : result string :=
  attrs ←' getitem (node docgraph) markable;
  getitem attrs (ns docgraph +:+ ":span").

(** The value that the variable [span_tokens] of [gen_bracket_mappings]
    takes for [markable]; no token at all when the span attribute cannot
    be read. *)
Definition span_tokens (docgraph : DocGraph) (markable : string)
  : list string :=
  match span_attr docgraph markable with
  | Ok span => spanstring2tokens docgraph span
  | Raise _ => []
  end.

(** The first loop of [gen_bracket_mappings]. *)
Definition chain_step (markable2chain : gmap string string)
    (chain : list string) : result (gmap string string) :=
  chain_id ←' item_first chain;
  Ok (foldl (fun m2c markable => <[markable := chain_id]> m2c)
            markable2chain chain).

(** The second loop of [gen_bracket_mappings]. *)
Definition markable_step (docgraph : DocGraph)
    (oc : gmap string (list string) * gmap string (list string))
    (markable : string)
  : result (gmap string (list string) * gmap string (list string)) :=
  let '(opening, closing) := oc in
  span ←' span_attr docgraph markable;
  let span_tokens := spanstring2tokens docgraph span in
  first ←' item_first span_tokens;
  last ←' item_last span_tokens;
  Ok (dd_append opening first markable, dd_append closing last markable).

(** [sorted(itertools.chain(...), key=dg.util.natural_sort_key)] over the
    chains: the markables in the order in which they are processed. *)
Definition sorted_markables (docgraph : DocGraph) : list string :=
  sorted util.natural_sort_key (chain (pointing_chains docgraph)).

(** [gen_bracket_mappings(docgraph)]. *)
Definition gen_bracket_mappings (docgraph : DocGraph)
  : result (gmap string (list string) * gmap string (list string)
            * gmap string string) :=
  let markables := sorted_markables docgraph in
  markable2chain ←' for_each chain_step ∅ (pointing_chains docgraph);
  '(opening, closing) ←' for_each (markable_step docgraph) (∅, ∅) markables;
  Ok (opening, closing, markable2chain).

(** [u']_{{{}}}'.format(chain_id)]. *)
Definition closing_group (chain_id : string) : string :=
  "]_{" +:+ chain_id +:+ "}".

(** [gen_closing_string(closing_dict, markable2chain, token_id, stack)];
    the second component is [stack] after the call.  Its callers only
    pass a [token_id] that is a key of [closing_dict]. *)
Definition gen_closing_string (closing_dict : gmap string (list string))
    (markable2chain : gmap string string) (token_id : string)
    (stack : list string) : result (string * list string) :=
  let num_of_closing_brackets :=
    length (default [] (closing_dict !! token_id)) in
  '(closing_markable_ids, stack) ←' pop_n num_of_closing_brackets stack;
  chain_ids ←' comprehension (getitem markable2chain) closing_markable_ids;
  Ok (str_join (closing_group <$> chain_ids), stack).

(** The body of the loop over [docgraph.tokens] in
    [gen_bracketed_output]. *)
Definition token_step (docgraph : DocGraph)
    (opening closing : gmap string (list string))
    (markable2chain : gmap string string)
    (st : string * list string) (token_id : string)
  : result (string * list string) :=
  let '(ret_str, stack) := st in
  let token_str := get_token docgraph token_id in
  match opening !! token_id with
  | Some opens =>
      let num_of_opening_brackets := length opens in
      let stack := stack ++ opens in
      let opening_str := str_repeat "[" num_of_opening_brackets in
      match closing !! token_id with
      | Some _ =>
          '(closing_str, stack) ←'
            gen_closing_string closing markable2chain token_id stack;
          Ok (ret_str +:+ opening_str +:+ token_str +:+ closing_str +:+ " ",
              stack)
      | None =>
          Ok (ret_str +:+ opening_str +:+ token_str +:+ " ", stack)
      end
  | None =>
      match closing !! token_id with
      | Some _ =>
          '(closing_str, stack) ←'
            gen_closing_string closing markable2chain token_id stack;
          Ok (ret_str +:+ token_str +:+ closing_str +:+ " ", stack)
      | None =>
          Ok (ret_str +:+ token_str +:+ " ", stack)
      end
  end.

(** The loop of [gen_bracketed_output] over the tokens [l], from the
    state [st] = ([ret_str], [stack]). *)
Definition scan (docgraph : DocGraph)
    (opening closing : gmap string (list string))
    (markable2chain : gmap string string)
    (st : string * list string) (l : list string)
  : result (string * list string) :=
  for_each (token_step docgraph opening closing markable2chain) st l.

(** [gen_bracketed_output(docgraph)]. *)
Definition gen_bracketed_output (docgraph : DocGraph) : result string :=
  '(opening, closing, markable2chain) ←' gen_bracket_mappings docgraph;
  '(ret_str, stack) ←'
    scan docgraph opening closing markable2chain (EmptyString, [])
         (tokens docgraph);
  Ok ret_str.

End brackets.

(** The example of the docstring of [gen_bracketed_output], shortened:
    [markable_22] lies inside [markable_21]. *)
Definition stadthalle : brackets.DocGraph :=
  {| brackets.tokens := ["w1"; "w2"; "w3"; "w4"; "w5"];
     brackets.get_token := fun t =>
       if decide (t = "w1") then "teuer"
       else if decide (t = "w2") then "die"
       else if decide (t = "w3") then "Wittstocker"
       else if decide (t = "w4") then "Stadthalle"
       else "wird";
     brackets.pointing_chains := [["markable_21"]; ["markable_22"]];
     brackets.ns := "mmax";
     brackets.node :=
       {[ "markable_21" := {[ "mmax:span" := "w2..w4" ]};
          "markable_22" := {[ "mmax:span" := "w3" ]} ]};
     brackets.spanstring2tokens := fun s =>
       if decide (s = "w2..w4") then ["w2"; "w3"; "w4"]
       else if decide (s = "w3") then ["w3"]
       else [] |}.

(** ** readwrite/ptb.py *)

Module ptb.

(** An [nltk.tree.Tree] as the corpus reader yields it: a label and a
    list of children, each child another tree or a unicode leaf. *)
#[local] Unset Elimination Schemes.
Inductive tree : Type :=
| Tree (label : string) (children : list (tree + string)).
#[local] Set Elimination Schemes.

(** [dg.EdgeTypes]. *)
Inductive EdgeTypes : Set :=
| dominance_relation
| spanning_relation
| pointing_relation
| precedence_relation.

(** The value of a node attribute: a string, or the set of layers. *)
Inductive attr : Type :=
| AStr (s : string)
| ALayers (l : gset string).

(** The fields of a [PTBDocumentGraph] that [__init__] writes.  Nodes
    and edges are kept by the graph base class, which is not among the
    modelled files: [node] maps a node id to its attribute dict, [edges]
    lists the edges in the order they were added. *)
Record PTBDocumentGraph : Type := mkPTBDocumentGraph {
  name : string;
  ns : string;
  root : Z;
  node : gmap Z (gmap string attr);
  edges : list (Z * Z * EdgeTypes);
  sentences : list Z;
  tokens : list Z;
  _node_id : Z
}.

Definition set_node (f : gmap Z (gmap string attr) → gmap Z (gmap string attr))
    (g : PTBDocumentGraph) : PTBDocumentGraph :=
  {| name := name g; ns := ns g; root := root g; node := f (node g);
     edges := edges g; sentences := sentences g; tokens := tokens g;
     _node_id := _node_id g |}.

(** [self.add_node(n, **attrs)]: creates the node or updates its
    attributes. *)
Definition add_node (n : Z) (attrs : gmap string attr)
    (g : PTBDocumentGraph) : PTBDocumentGraph :=
  set_node (fun nd => <[n := attrs ∪ default ∅ (nd !! n)]> nd) g.

(** [self.add_edge(u, v, edge_type=t)]: end points that are not nodes
    yet are created without attributes. *)
Definition add_edge (u v : Z) (t : EdgeTypes) (g : PTBDocumentGraph)
  : PTBDocumentGraph :=
  let g := add_node v ∅ (add_node u ∅ g) in
  {| name := name g; ns := ns g; root := root g; node := node g;
     edges := edges g ++ [(u, v, t)]; sentences := sentences g;
     tokens := tokens g; _node_id := _node_id g |}.

(** [self.node[n][k] = v]: [self.node[n]] raises when [n] is not a
    node. *)
Definition set_attr (n : Z) (k : string) (v : attr) (g : PTBDocumentGraph)
  : result PTBDocumentGraph :=
  attrs ←' getitem (node g) n;
  Ok (set_node (fun nd => <[n := <[k := v]> attrs]> nd) g).

(** [self._node_id += 1]. *)
Definition incr_node_id (g : PTBDocumentGraph) : PTBDocumentGraph :=
  {| name := name g; ns := ns g; root := root g; node := node g;
     edges := edges g; sentences := sentences g; tokens := tokens g;
     _node_id := _node_id g + 1 |}.

(** [self.tokens.append(n)] and [self.sentences.append(n)]. *)
Definition tokens_append (n : Z) (g : PTBDocumentGraph) : PTBDocumentGraph :=
  {| name := name g; ns := ns g; root := root g; node := node g;
     edges := edges g; sentences := sentences g; tokens := tokens g ++ [n];
     _node_id := _node_id g |}.

Definition sentences_append (n : Z) (g : PTBDocumentGraph)
  : PTBDocumentGraph :=
  {| name := name g; ns := ns g; root := root g; node := node g;
     edges := edges g; sentences := sentences g ++ [n]; tokens := tokens g;
     _node_id := _node_id g |}.

(** [get_nodelabel(node)]: the label of a tree, the UTF-8 encoding of a
    leaf (strings are modelled by their encoding). *)
Definition get_nodelabel (n : tree + string) : string :=
  match n with
  | inl (Tree label _) => label
  | inr leaf => leaf
  end.

(** [self._parse_sentencetree(tree)]. *)
Fixpoint _parse_sentencetree (t : tree) (g : PTBDocumentGraph)
  : result PTBDocumentGraph :=
  match t with
  | Tree label children =>
      let root_node_id := _node_id g in
      g ←' set_attr root_node_id "label" (AStr label) g;
      for_each
        (fun g subtree =>
           let g := incr_node_id g in
           let node_label := get_nodelabel subtree in
           match subtree with
           | inl sub =>
               let node_attrs := {["label" := AStr node_label]} in
               let g := add_node (_node_id g) node_attrs g in
               let g := add_edge root_node_id (_node_id g)
                                 dominance_relation g in
               _parse_sentencetree sub g
           | inr _ =>
               let node_attrs :=
                 <[ns g +:+ ":token" := AStr node_label]>
                   {["label" := AStr node_label]} in
               let g := tokens_append (_node_id g) g in
               let g := add_node (_node_id g) node_attrs g in
               let g := add_edge root_node_id (_node_id g)
                                 spanning_relation g in
               Ok g
           end)
        g children
  end.

(** [self._add_sentence(sentence)]. *)
Definition _add_sentence (g : PTBDocumentGraph) (sentence : tree)
  : result PTBDocumentGraph :=
  let g := sentences_append (_node_id g) g in
  let g := add_edge (root g) (_node_id g) spanning_relation g in
  g ←' _parse_sentencetree sentence g;
  Ok (incr_node_id g).

(** [seq[:n]] with Python's treatment of a negative bound. *)
Definition slice_to {A : Type} (l : list A) (n : Z) : list A :=
  if (n <? 0)%Z then take (Z.to_nat (Z.of_nat (length l) + n)) l
  else take (Z.to_nat n) l.

(** [PTBDocumentGraph.__init__].  [parsed_sents] is what
    [document.parsed_sents()] yields for the file, [ptb_filename] is
    [os.path.basename(ptb_filepath)].  The root node of the base class is
    removed again before anything refers to it. *)
Definition __init__ (parsed_sents : list tree) (ptb_filename : string)
    (name : option string) (namespace : string) (limit : option Z)
  : result PTBDocumentGraph :=
  let self :=
    {| name := match name with
               | Some (String c s) => String c s
               | _ => ptb_filename
               end;
       ns := namespace;
       root := 0;
       node := {[ 0%Z := <["label" := AStr (namespace +:+ ":root_node")]>
                           {["layers" := ALayers {[namespace]}]} ]};
       edges := [];
       sentences := [];
       tokens := [];
       _node_id := 1 |} in
  match limit with
  | Some n =>
      if (n =? 0)%Z then for_each _add_sentence self parsed_sents
      else for_each _add_sentence self (slice_to parsed_sents n)
  | None => for_each _add_sentence self parsed_sents
  end.

(** [tree.leaves()]. *)
Fixpoint leaves (t : tree) : list string :=
  match t with
  | Tree _ children =>
      flat_map (fun c => match c with
                         | inl sub => leaves sub
                         | inr leaf => [leaf]
                         end) children
  end.

(** [self.node[n][self.ns+':token']], if there is one. *)
Definition token_of (g : PTBDocumentGraph) (n : Z) : option attr :=
  attrs ← node g !! n; attrs !! (ns g +:+ ":token").

End ptb.

(** The scenario [(S (NP (NNP John)) (VP (VBZ runs)))]. *)
Definition john_runs : ptb.tree :=
  ptb.Tree "S"
    [inl (ptb.Tree "NP" [inl (ptb.Tree "NNP" [inr "John"])]);
     inl (ptb.Tree "VP" [inl (ptb.Tree "VBZ" [inr "runs"])])].


(** ** Notions used to state the properties *)

(** [lo] is the least, [hi] the greatest element of [l]. *)
Definition is_minimum (lo : Z) (l : list Z) : Prop :=
  lo ∈ l ∧ Forall (fun i => (lo ≤ i)%Z) l.

Definition is_maximum (hi : Z) (l : list Z) : Prop :=
  hi ∈ l ∧ Forall (fun i => (i ≤ hi)%Z) l.

(** The indices a token map gives the identities of [l] that it maps. *)
Definition mapped_indices (token_map : gmap string Z) (l : list string)
  : list Z :=
  omap (fun token_id => token_map !! token_id) l.

(** The order [sorted(..., key=natural_sort_key)] sorts by: [a] may stand
    before [b] when the key of [b] is not smaller than the key of [a]. *)
Definition natural_le (a b : string) : Prop :=
  key_lt (util.natural_sort_key b) (util.natural_sort_key a) = false.

(** Markables that open, resp. close, at token [t]: those whose resolved
    span starts, resp. ends, with [t], in the order in which
    [gen_bracket_mappings] processes the markables. *)
Definition opens_at (d : brackets.DocGraph) (t : string) : list string :=
  filter (fun m => head (brackets.span_tokens d m) = Some t)
         (brackets.sorted_markables d).

Definition closes_at (d : brackets.DocGraph) (t : string) : list string :=
  filter (fun m => last (brackets.span_tokens d m) = Some t)
         (brackets.sorted_markables d).

(** Every list stored in a [defaultdict] filled by [append] only is
    non-empty. *)
Definition dd_ok (d : gmap string (list string)) : Prop :=
  ∀ t l, d !! t = Some l → l ≠ [].

(** The position of every token in document order, as [TokenMapper]
    establishes it. *)
Definition document_positions (d : brackets.DocGraph) : gmap string Z :=
  util.id2index (util.TokenMapper_init (brackets.tokens d)).

(** The reading of the span-boundary step under which a markable is
    anchored at the tokens of least and greatest document position of its
    span. *)
Definition anchors_by_document_order (d : brackets.DocGraph) : Prop :=
  ∀ o c m2c m lo hi,
    brackets.gen_bracket_mappings d = Ok (o, c, m2c) →
    m ∈ brackets.sorted_markables d →
    util.get_segment_token_offsets (brackets.span_tokens d m)
                                   (document_positions d) = Ok (lo, hi) →
    ∃ t_open t_close,
      util.index2id (util.TokenMapper_init (brackets.tokens d)) !! lo
      = Some t_open
      ∧ util.index2id (util.TokenMapper_init (brackets.tokens d)) !! hi
        = Some t_close
      ∧ m ∈ default [] (o !! t_open)
      ∧ m ∈ default [] (c !! t_close).

(** A markable whose span lists its two tokens against document order. *)
Definition backwards_span : brackets.DocGraph :=
  {| brackets.tokens := ["t1"; "t2"];
     brackets.get_token := fun t => t;
     brackets.pointing_chains := [["m1"]];
     brackets.ns := "mmax";
     brackets.node := {[ "m1" := {[ "mmax:span" := "t2,t1" ]} ]};
     brackets.spanstring2tokens := fun s => ["t2"; "t1"] |}.

(** Two markables that open at the same token. *)
Definition same_start : brackets.DocGraph :=
  {| brackets.tokens := ["t1"; "t2"];
     brackets.get_token := fun t => t;
     brackets.pointing_chains := [["m10"; "m2"]];
     brackets.ns := "mmax";
     brackets.node :=
       {[ "m10" := {[ "mmax:span" := "t1..t2" ]};
          "m2" := {[ "mmax:span" := "t1" ]} ]};
     brackets.spanstring2tokens := fun s =>
       if decide (s = "t1..t2") then ["t1"; "t2"] else ["t1"] |}.

(** A token closes more markables than are open once its own openings
    are pushed: [stack.pop()] is reached with an empty stack. *)
Definition underflow (d : brackets.DocGraph)
    (o c : gmap string (list string)) (m2c : gmap string string) : Prop :=
  ∃ pre t post ret stack,
    brackets.tokens d = pre ++ t :: post
    ∧ brackets.scan d o c m2c (EmptyString, []) pre = Ok (ret, stack)
    ∧ length stack + length (default [] (o !! t))
      < length (default [] (c !! t)).

(** What the renderer writes: an opening bracket, a piece of text (a token
    or the blank after it), or a closing group with its chain id. *)
Inductive event : Type :=
| EOpen
| EText (s : string)
| EClose (chain_id : string).

Definition render_event (e : event) : string :=
  match e with
  | EOpen => "["
  | EText s => s
  | EClose chain_id => brackets.closing_group chain_id
  end.

Definition render (evs : list event) : string :=
  str_join (render_event <$> evs).

(** The events of one token that opens [n] markables and closes those of
    the chains [chain_ids]. *)
Definition token_events (n : nat) (token_str : string)
    (chain_ids : list string) : list event :=
  replicate n EOpen ++ [EText token_str] ++ (EClose <$> chain_ids)
    ++ [EText " "].

Definition is_open (e : event) : Prop :=
  match e with EOpen => True | _ => False end.

Definition is_close (e : event) : Prop :=
  match e with EClose _ => True | _ => False end.

Global Instance is_open_dec (e : event) : Decision (is_open e).
Proof. destruct e; simpl; apply _. Defined.

Global Instance is_close_dec (e : event) : Decision (is_close e).
Proof. destruct e; simpl; apply _. Defined.

(** The number of brackets left open after [evs], starting from [n] open
    ones; [None] when a closing group finds none open. *)
Fixpoint balance (evs : list event) (n : nat) : option nat :=
  match evs with
  | [] => Some n
  | EOpen :: evs' => balance evs' (S n)
  | EText _ :: evs' => balance evs' n
  | EClose _ :: evs' =>
      match n with
      | O => None
      | S n' => balance evs' n'
      end
  end.

(** Occurrences of a character, and of a (non-empty) pattern, in a
    string. *)
Fixpoint count_char (c : ascii) (s : string) : nat :=
  match s with
  | EmptyString => 0
  | String x s' => (if Ascii.eqb x c then 1 else 0) + count_char c s'
  end.

Fixpoint count_sub (pat s : string) : nat :=
  match s with
  | EmptyString => 0
  | String x s' =>
      (if String.prefix pat (String x s') then 1 else 0) + count_sub pat s'
  end.

Definition bracket_free (s : string) : Prop :=
  count_char "[" s = 0 ∧ count_char "]" s = 0.

(** No token string and no markable id of the graph contains a bracket. *)
Definition bracket_free_doc (d : brackets.DocGraph) : Prop :=
  Forall (fun t => bracket_free (brackets.get_token d t)) (brackets.tokens d)
  ∧ Forall (Forall bracket_free) (brackets.pointing_chains d).

(** The position of a token in [docgraph.tokens]. *)
Definition position (d : brackets.DocGraph) (t : string) : option nat :=
  fst <$> list_find (fun u => u = t) (brackets.tokens d).

(** The positions of the first and of the last token of the span of a
    markable. *)
Definition span_positions (d : brackets.DocGraph) (m : string)
  : option (nat * nat) :=
  first ← head (brackets.span_tokens d m);
  lst ← last (brackets.span_tokens d m);
  i ← position d first;
  j ← position d lst;
  Some (i, j).

(** Two spans cross when the second starts inside the first and ends
    after it. *)
Definition crossing (a b : nat * nat) : Prop :=
  a.1 < b.1 ∧ b.1 ≤ a.2 ∧ a.2 < b.2.

(** Every markable of the chains spans tokens of the document, from a
    first to a last position, and no two of these spans cross. *)
Definition well_nested (d : brackets.DocGraph) : Prop :=
  NoDup (brackets.tokens d)
  ∧ Forall (fun ch => ch ≠ []) (brackets.pointing_chains d)
  ∧ Forall (fun m => match span_positions d m with
                     | Some (i, j) => i ≤ j
                     | None => False
                     end) (brackets.sorted_markables d)
  ∧ Forall (fun m1 =>
              Forall (fun m2 =>
                        match span_positions d m1, span_positions d m2 with
                        | Some a, Some b => ¬ crossing a b
                        | _, _ => True
                        end) (brackets.sorted_markables d))
           (brackets.sorted_markables d).

(** The balance property of the rendered string: as many opening
    brackets as closing groups, and before every closing group more
    opening brackets than closing groups. *)
Definition balanced_string (s : string) : Prop :=
  count_char "[" s = count_sub "]_{" s
  ∧ ∀ p q, s = p +:+ "]_{" +:+ q → count_sub "]_{" p < count_char "[" p.

Definition clean_event (e : event) : Prop :=
  match e with
  | EOpen => True
  | EText s => bracket_free s
  | EClose chain_id => bracket_free chain_id
  end.

(** What the renderer writes, with the markable that a bracket or a
    closing group is written for. *)
Inductive mark : Type :=
| MOpen (markable : string)
| MText (s : string)
| MClose (markable : string).

(** What is written for one token: an opening bracket for every markable
    that opens at the token, the token string, a closing group for every
    markable of [popped], and a blank. *)
Definition token_marks (d : brackets.DocGraph) (t : string)
    (popped : list string) : list mark :=
  (MOpen <$> opens_at d t) ++ [MText (brackets.get_token d t)]
    ++ (MClose <$> popped) ++ [MText " "].

(** What is written for the tokens [l], when [popped] lists for every
    token the markables whose closing groups follow it. *)
Definition marks_of (d : brackets.DocGraph) (l : list string)
    (popped : list (list string)) : list mark :=
  concat (zip_with (token_marks d) l popped).

(** The event a mark is written as: the closing group of a markable holds
    the chain id that [markable2chain] gives the markable. *)
Definition written_as (markable2chain : gmap string string) (k : mark)
    (e : event) : Prop :=
  match k, e with
  | MOpen _, EOpen => True
  | MText s, EText s' => s = s'
  | MClose m, EClose chain_id => markable2chain !! m = Some chain_id
  | _, _ => False
  end.

(** The brackets pair up by nesting, every closing group with the opening
    bracket of its own markable.  [open] lists the markables whose bracket
    is open, the innermost first; the result is what is left open after
    [marks], and [None] when a closing group does not meet the opening
    bracket of its markable. *)
Fixpoint matched (marks : list mark) (open : list string)
  : option (list string) :=
  match marks with
  | [] => Some open
  | MOpen m :: rest => matched rest (m :: open)
  | MText _ :: rest => matched rest open
  | MClose m :: rest =>
      match open with
      | m' :: open' => if decide (m' = m) then matched rest open' else None
      | [] => None
      end
  end.

Definition clean_mark (k : mark) : Prop :=
  match k with
  | MText s => bracket_free s
  | _ => True
  end.

(** A markable that ends before it starts, while another one is open. *)
Definition closes_before_opening : brackets.DocGraph :=
  {| brackets.tokens := ["t0"; "t1"; "t2"; "t3"];
     brackets.get_token := fun t => t;
     brackets.pointing_chains := [["m1"]; ["m2"]];
     brackets.ns := "mmax";
     brackets.node :=
       {[ "m1" := {[ "mmax:span" := "t0,t3" ]};
          "m2" := {[ "mmax:span" := "t2,t1" ]} ]};
     brackets.spanstring2tokens := fun s =>
       if decide (s = "t0,t3") then ["t0"; "t3"] else ["t2"; "t1"] |}.

(** A markable whose span ends at a token that is not in the document. *)
Definition left_open : brackets.DocGraph :=
  {| brackets.tokens := ["t0"];
     brackets.get_token := fun t => t;
     brackets.pointing_chains := [["m1"]];
     brackets.ns := "mmax";
     brackets.node := {[ "m1" := {[ "mmax:span" := "t0..t1" ]} ]};
     brackets.spanstring2tokens := fun s => ["t0"; "t1"] |}.

(** A markable that ends before it starts, with nothing else open. *)
Definition closes_first : brackets.DocGraph :=
  {| brackets.tokens := ["t0"; "t1"];
     brackets.get_token := fun t => t;
     brackets.pointing_chains := [["m1"]];
     brackets.ns := "mmax";
     brackets.node := {[ "m1" := {[ "mmax:span" := "t1,t0" ]} ]};
     brackets.spanstring2tokens := fun s => ["t1"; "t0"] |}.

(** Some markable of the graph closes at a token that precedes the token
    it opens at. *)
Definition closing_precedes_opening (d : brackets.DocGraph) : Prop :=
  ∃ m i j,
    m ∈ brackets.sorted_markables d
    ∧ span_positions d m = Some (i, j)
    ∧ j < i.

(** The loop over the tokens ends with markables still on the stack. *)
Definition stack_left_open (d : brackets.DocGraph) : Prop :=
  ∃ o c m2c ret stack,
    brackets.gen_bracket_mappings d = Ok (o, c, m2c)
    ∧ brackets.scan d o c m2c (EmptyString, []) (brackets.tokens d)
      = Ok (ret, stack)
    ∧ stack ≠ [].

(** The reading of the renderer under which unbalanced spans are always
    reported. *)
Definition reports_unbalanced (d : brackets.DocGraph) : Prop :=
  closing_precedes_opening d ∨ stack_left_open d →
  ∃ e, brackets.gen_bracketed_output d = Raise e.

(** A document without markables whose only token is a bracket. *)
Definition bracket_token : brackets.DocGraph :=
  {| brackets.tokens := ["t1"];
     brackets.get_token := fun t => "[";
     brackets.pointing_chains := [];
     brackets.ns := "mmax";
     brackets.node := ∅;
     brackets.spanstring2tokens := fun s => [] |}.

(** The leaves below a child of a tree node. *)
Definition child_leaves (c : ptb.tree + string) : list string :=
  match c with
  | inl sub => ptb.leaves sub
  | inr leaf => [leaf]
  end.

(** The reading of [limit] under which the first [min(n, k)] of the [k]
    sentences are ingested, whatever [n] is. *)
Definition limit_truncates (parsed_sents : list ptb.tree) (n : Z) : Prop :=
  ∀ ptb_filename name namespace,
    ptb.__init__ parsed_sents ptb_filename name namespace (Some n)
    = ptb.__init__
        (take (Z.to_nat (Z.min n (Z.of_nat (length parsed_sents))))
              parsed_sents)
        ptb_filename name namespace None.

(** The body of the loop over the children in [_parse_sentencetree],
    for the node [root_node_id]. *)
Definition parse_child (root_node_id : Z) (g : ptb.PTBDocumentGraph)
    (subtree : ptb.tree + string) : result ptb.PTBDocumentGraph :=
  let g := ptb.incr_node_id g in
  let node_label := ptb.get_nodelabel subtree in
  match subtree with
  | inl sub =>
      let node_attrs := {["label" := ptb.AStr node_label]} in
      let g := ptb.add_node (ptb._node_id g) node_attrs g in
      let g := ptb.add_edge root_node_id (ptb._node_id g)
                            ptb.dominance_relation g in
      ptb._parse_sentencetree sub g
  | inr _ =>
      let node_attrs :=
        <[ptb.ns g +:+ ":token" := ptb.AStr node_label]>
          {["label" := ptb.AStr node_label]} in
      let g := ptb.tokens_append (ptb._node_id g) g in
      let g := ptb.add_node (ptb._node_id g) node_attrs g in
      let g := ptb.add_edge root_node_id (ptb._node_id g)
                            ptb.spanning_relation g in
      Ok g
  end.

(** What parsing trees, or the children of a node, does to the graph:
    the sentences [added] are appended, the node counter grows, the
    tokens of nodes that existed keep their strings, and the new entries
    of the token list are new nodes, in increasing order, that carry the
    [leaves] from left to right. *)
Definition parsed (added : list Z) (leaves : list string)
    (g g' : ptb.PTBDocumentGraph) : Prop :=
  ptb.ns g' = ptb.ns g ∧ ptb.root g' = ptb.root g
  ∧ ptb.sentences g' = ptb.sentences g ++ added
  ∧ (ptb._node_id g ≤ ptb._node_id g')%Z
  ∧ (∀ k, (k ≤ ptb._node_id g)%Z → ptb.token_of g' k = ptb.token_of g k)
  ∧ ∃ new,
      ptb.tokens g' = ptb.tokens g ++ new
      ∧ ptb.token_of g' <$> new = (fun s => Some (ptb.AStr s)) <$> leaves
      ∧ Forall (fun n => (ptb._node_id g < n ≤ ptb._node_id g')%Z) new
      ∧ StronglySorted Z.lt new.

(** ** Notions used by the further properties *)

(** A string without decimal digits. *)
Fixpoint digit_free (s : string) : bool :=
  match s with
  | EmptyString => true
  | String c s' => negb (util.is_digit c) && digit_free s'
  end.

(** A string that does not begin with a decimal digit. *)
Definition no_leading_digit (s : string) : bool :=
  match s with
  | EmptyString => true
  | String c _ => negb (util.is_digit c)
  end.

(** A list of runs that begins and ends with a digit-free run and has a
    non-empty run of digits between any two of them. *)
Fixpoint runs_alternate (l : list string) : Prop :=
  match l with
  | [] => False
  | [t] => digit_free t = true
  | t :: d :: rest =>
      digit_free t = true ∧ util.isdigit d = true ∧ runs_alternate rest
  end.

(** A sort key that holds a string at every even index and an int at every
    odd index, and ends with a string. *)
Fixpoint key_alternates (k : list key_item) : Prop :=
  match k with
  | [KStr _] => True
  | KStr _ :: KInt _ :: rest => key_alternates rest
  | _ => False
  end.


(** What the loop of [gen_bracketed_output] appends for the token [t]
    when the chains of the markables popped there are [chain_ids]: an
    opening bracket for every markable that opens at [t], the token
    string, the closing groups and a blank. *)
Definition token_piece (d : brackets.DocGraph) (t : string)
    (chain_ids : list string) : string :=
  str_repeat "[" (length (opens_at d t)) +:+ brackets.get_token d t
    +:+ str_join (brackets.closing_group <$> chain_ids) +:+ " ".

(** The document positions of the first and of the last token of the span
    of a markable (0 for a markable without such a position). *)
Definition first_position (d : brackets.DocGraph) (m : string) : nat :=
  default 0 (fst <$> span_positions d m).

Definition last_position (d : brackets.DocGraph) (m : string) : nat :=
  default 0 (snd <$> span_positions d m).

(** Of two markables that open at the same token, the one processed first
    does not end before the other one: markables with a common start are
    pushed outermost first. *)
Definition outermost_first (d : brackets.DocGraph) : Prop :=
  ∀ i1 i2 m1 m2,
    i1 < i2 →
    brackets.sorted_markables d !! i1 = Some m1 →
    brackets.sorted_markables d !! i2 = Some m2 →
    first_position d m1 = first_position d m2 →
    last_position d m2 ≤ last_position d m1.

(** The span of the markable [m] reaches over the boundary in front of
    position [p]: it begins before [p] and ends at [p] or later. *)
Definition spans_boundary (d : brackets.DocGraph) (p : nat) (m : string)
  : Prop :=
  first_position d m < p ≤ last_position d m.

Global Instance spans_boundary_dec (d : brackets.DocGraph) (p : nat)
    (m : string) : Decision (spans_boundary d p m).
Proof. unfold spans_boundary. apply _. Defined.

(** The number of graph nodes a tree gives rise to: one for the tree
    itself and one for every tree and every leaf below it. *)
Fixpoint nodes_of (t : ptb.tree) : nat :=
  match t with
  | ptb.Tree _ children =>
      S (sum_list_with (fun c => match c with
                                 | inl sub => nodes_of sub
                                 | inr _ => 1
                                 end) children)
  end.

Definition child_nodes (c : ptb.tree + string) : nat :=
  match c with
  | inl sub => nodes_of sub
  | inr _ => 1
  end.

(** The node [k] of the graph has a string under ['label']. *)
Definition has_label (g : ptb.PTBDocumentGraph) (k : Z) : Prop :=
  ∃ attrs l, ptb.node g !! k = Some attrs ∧ attrs !! "label" = Some (ptb.AStr l).

Definition labelled (g : ptb.PTBDocumentGraph) (m : Z) : Prop :=
  ∀ k, (0 ≤ k ≤ m)%Z → has_label g k.

(** An edge runs from a node to a node with a greater id; an edge that
    leaves the document root is a spanning edge to a sentence root, any
    other edge is a spanning edge when it leads to a token and a dominance
    edge when it does not. *)
Definition edge_kind (g : ptb.PTBDocumentGraph)
    (e : Z * Z * ptb.EdgeTypes) : Prop :=
  (0 ≤ e.1.1 < e.1.2)%Z
  ∧ (e.1.1 = 0%Z → e.2 = ptb.spanning_relation ∧ e.1.2 ∈ ptb.sentences g)
  ∧ (e.1.1 ≠ 0%Z → e.1.2 ∈ ptb.tokens g → e.2 = ptb.spanning_relation)
  ∧ (e.1.1 ≠ 0%Z → e.1.2 ∉ ptb.tokens g → e.2 = ptb.dominance_relation).

(** The graph is a tree on the nodes [0], ..., [n]: the document root is
    [0], the edges were added one per node [1], ..., [n] in this order,
    each leading to that node, the token nodes are the nodes that carry a
    token string, and every sentence root hangs below the document
    root. *)
Definition tree_graph (g : ptb.PTBDocumentGraph) (n : Z) : Prop :=
  (0 ≤ n)%Z
  ∧ ptb.root g = 0%Z
  ∧ (∀ k, is_Some (ptb.node g !! k) ↔ (0 ≤ k ≤ n)%Z)
  ∧ (fun e : Z * Z * ptb.EdgeTypes => e.1.2) <$> ptb.edges g = seqZ 1 n
  ∧ Forall (edge_kind g) (ptb.edges g)
  ∧ (∀ k, is_Some (ptb.token_of g k) ↔ k ∈ ptb.tokens g)
  ∧ Forall (fun s => (0%Z, s, ptb.spanning_relation) ∈ ptb.edges g)
           (ptb.sentences g).

(** The state of the graph between two sentences: [_node_id] is the id
    the next node will get. *)
Definition between_sentences (g : ptb.PTBDocumentGraph) : Prop :=
  tree_graph g (ptb._node_id g - 1) ∧ labelled g (ptb._node_id g - 1).

(** The edges below a node: the children of the node [r] get the ids from
    [next] on, every child tree taking as many ids as it has nodes; a
    child is linked to [r], a tree by a dominance edge, followed by the
    edges of the tree, a leaf by a spanning edge. *)
Definition children_edges
    (tree_edges : ptb.tree → Z → list (Z * Z * ptb.EdgeTypes)) (r : Z)
  : list (ptb.tree + string) → Z → list (Z * Z * ptb.EdgeTypes) :=
  fix go cs next :=
    match cs with
    | [] => []
    | inl sub :: cs' =>
        (r, next, ptb.dominance_relation)
          :: tree_edges sub next
          ++ go cs' (next + Z.of_nat (nodes_of sub))%Z
    | inr _ :: cs' => (r, next, ptb.spanning_relation) :: go cs' (next + 1)%Z
    end.

(** The edges of the tree [t] when its root is the node [r] and the nodes
    below it are numbered depth first, from left to right. *)
Fixpoint tree_edges (t : ptb.tree) (r : Z)
  : list (Z * Z * ptb.EdgeTypes) :=
  match t with
  | ptb.Tree _ children => children_edges tree_edges r children (r + 1)%Z
  end.

(** The edges of a document whose first sentence root is [next]: every
    sentence root hangs below the document root [0]. *)
Fixpoint document_edges (sents : list ptb.tree) (next : Z)
  : list (Z * Z * ptb.EdgeTypes) :=
  match sents with
  | [] => []
  | t :: rest =>
      (0%Z, next, ptb.spanning_relation)
        :: tree_edges t next
        ++ document_edges rest (next + Z.of_nat (nodes_of t))%Z
  end.

(** The labels of the nodes of a tree and its leaves, depth first, from
    left to right. *)
Fixpoint preorder (t : ptb.tree) : list string :=
  match t with
  | ptb.Tree label children =>
      label :: flat_map (fun c => match c with
                                  | inl sub => preorder sub
                                  | inr leaf => [leaf]
                                  end) children
  end.

Definition child_preorder (c : ptb.tree + string) : list string :=
  match c with
  | inl sub => preorder sub
  | inr leaf => [leaf]
  end.

(** [self.node[k]['label']], if there is one. *)
Definition label_of (g : ptb.PTBDocumentGraph) (k : Z) : option ptb.attr :=
  attrs ← ptb.node g !! k; attrs !! "label".

(** A markable that is no node of the graph, and a graph with an empty
    chain. *)
Definition unknown_markable : brackets.DocGraph :=
  {| brackets.tokens := ["t1"];
     brackets.get_token := fun t => t;
     brackets.pointing_chains := [["m1"]];
     brackets.ns := "mmax";
     brackets.node := ∅;
     brackets.spanstring2tokens := fun s => ["t1"] |}.

Definition empty_chain : brackets.DocGraph :=
  {| brackets.tokens := ["t1"];
     brackets.get_token := fun t => t;
     brackets.pointing_chains := [[]];
     brackets.ns := "mmax";
     brackets.node := ∅;
     brackets.spanstring2tokens := fun s => ["t1"] |}.

(** The markable [m2] is listed in two chains of two markables each. *)
Definition shared_markable : brackets.DocGraph :=
  {| brackets.tokens := ["t1"; "t2"];
     brackets.get_token := fun t => t;
     brackets.pointing_chains := [["m1"; "m2"]; ["m3"; "m2"]];
     brackets.ns := "mmax";
     brackets.node :=
       {[ "m1" := {[ "mmax:span" := "t1" ]};
          "m2" := {[ "mmax:span" := "t2" ]};
          "m3" := {[ "mmax:span" := "t1..t2" ]} ]};
     brackets.spanstring2tokens := fun s =>
       if decide (s = "t1") then ["t1"]
       else if decide (s = "t2") then ["t2"]
       else ["t1"; "t2"] |}.
(** * Properties *)

(** ** The examples of the docstrings *)

Example natural_sort_key_a10 :
  util.natural_sort_key "a10" = [KStr "a"; KInt 10; KStr EmptyString].
Proof. reflexivity. Qed.

Example sorted_docstring :
  sorted util.natural_sort_key
    ["A99"; "a1"; "a2"; "a10"; "a24"; "a12"; "a100"]
  = ["A99"; "a1"; "a2"; "a10"; "a12"; "a24"; "a100"].
Proof. reflexivity. Qed.

Example stadthalle_output :
  brackets.gen_bracketed_output stadthalle
  = Ok "teuer [die [Wittstocker]_{markable_22} Stadthalle]_{markable_21} wird ".
Proof. vm_compute. reflexivity. Qed.

Example john_runs_tokens :
  match ptb.__init__ [john_runs] "wsj.mrg" None "ptb" None with
  | Ok g => ptb.tokens g = [4; 7]%Z
            ∧ ptb.token_of g <$> ptb.tokens g
              = [Some (ptb.AStr "John"); Some (ptb.AStr "runs")]
            ∧ ptb.sentences g = [1%Z] ∧ ptb._node_id g = 8%Z
  | Raise _ => False
  end.
Proof. vm_compute. repeat split; reflexivity. Qed.

(** ** The result monad and the list primitives *)

Lemma comprehension_getitem_Ok {V : Type} (d : gmap string V)
    (l : list string) :
  Forall (fun k => is_Some (d !! k)) l →
  comprehension (getitem d) l = Ok (omap (fun k => d !! k) l).
Proof.
  induction 1 as [|k l [v Hv] _ IH]; simpl; [done|].
  unfold getitem at 1. rewrite Hv. simpl. by rewrite IH.
Qed.

Lemma comprehension_getitem_Raise {V : Type} (d : gmap string V)
    (l : list string) :
  Exists (fun k => d !! k = None) l →
  comprehension (getitem d) l = Raise KeyError.
Proof.
  induction l as [|k l IH]; intros Hex; [by inversion Hex|].
  simpl. unfold getitem at 1. destruct (d !! k) as [v|] eqn:Hk; [|done].
  simpl. rewrite IH; [done|]. inversion Hex; [congruence|done].
Qed.

Lemma foldl_min_le (l : list Z) (x : Z) :
  (foldl Z.min x l ≤ x)%Z ∧ Forall (fun i => (foldl Z.min x l ≤ i)%Z) l.
Proof.
  revert x. induction l as [|y l IH]; intros x; simpl; [by split|].
  destruct (IH (Z.min x y)) as [H1 H2]. split; [lia|].
  constructor; [lia|done].
Qed.

Lemma foldl_min_elem (l : list Z) (x : Z) : foldl Z.min x l ∈ x :: l.
Proof.
  revert x. induction l as [|y l IH]; intros x; simpl; [set_solver|].
  specialize (IH (Z.min x y)).
  apply elem_of_cons in IH as [->|IH]; [|set_solver].
  destruct (Z.min_spec x y) as [[_ ->]|[_ ->]]; set_solver.
Qed.

Lemma foldl_max_ge (l : list Z) (x : Z) :
  (x ≤ foldl Z.max x l)%Z ∧ Forall (fun i => (i ≤ foldl Z.max x l)%Z) l.
Proof.
  revert x. induction l as [|y l IH]; intros x; simpl; [by split|].
  destruct (IH (Z.max x y)) as [H1 H2]. split; [lia|].
  constructor; [lia|done].
Qed.

Lemma foldl_max_elem (l : list Z) (x : Z) : foldl Z.max x l ∈ x :: l.
Proof.
  revert x. induction l as [|y l IH]; intros x; simpl; [set_solver|].
  specialize (IH (Z.max x y)).
  apply elem_of_cons in IH as [->|IH]; [|set_solver].
  destruct (Z.max_spec x y) as [[_ ->]|[_ ->]]; set_solver.
Qed.

Lemma is_minimum_unique (l : list Z) (a b : Z) :
  is_minimum a l → is_minimum b l → a = b.
Proof.
  intros [Ha1 Ha2] [Hb1 Hb2]. rewrite Forall_forall in Ha2, Hb2.
  specialize (Ha2 _ Hb1). specialize (Hb2 _ Ha1). lia.
Qed.

Lemma is_maximum_unique (l : list Z) (a b : Z) :
  is_maximum a l → is_maximum b l → a = b.
Proof.
  intros [Ha1 Ha2] [Hb1 Hb2]. rewrite Forall_forall in Ha2, Hb2.
  specialize (Ha2 _ Hb1). specialize (Hb2 _ Ha1). lia.
Qed.

Lemma py_min_spec (l : list Z) :
  l ≠ [] → ∃ lo, py_min l = Ok lo ∧ is_minimum lo l.
Proof.
  destruct l as [|x l]; [done|]. intros _. eexists. split; [done|].
  split; [apply foldl_min_elem|].
  destruct (foldl_min_le l x). by constructor.
Qed.

Lemma py_max_spec (l : list Z) :
  l ≠ [] → ∃ hi, py_max l = Ok hi ∧ is_maximum hi l.
Proof.
  destruct l as [|x l]; [done|]. intros _. eexists. split; [done|].
  split; [apply foldl_max_elem|].
  destruct (foldl_max_ge l x). by constructor.
Qed.

Lemma is_minimum_perm (l l' : list Z) (lo : Z) :
  l ≡ₚ l' → is_minimum lo l → is_minimum lo l'.
Proof. intros Hp [H1 H2]. split; by rewrite <- Hp. Qed.

Lemma is_maximum_perm (l l' : list Z) (hi : Z) :
  l ≡ₚ l' → is_maximum hi l → is_maximum hi l'.
Proof. intros Hp [H1 H2]. split; by rewrite <- Hp. Qed.

(** ** util.py: span offsets *)

Lemma get_segment_token_offsets_mapped (l : list string)
    (token_map : gmap string Z) :
  Forall (fun token_id => is_Some (token_map !! token_id)) l →
  util.get_segment_token_offsets l token_map
  = (lo ←' py_min (mapped_indices token_map l);
     hi ←' py_max (mapped_indices token_map l);
     Ok (lo, hi)).
Proof.
  intros Hl. unfold util.get_segment_token_offsets.
  by rewrite (comprehension_getitem_Ok _ _ Hl).
Qed.

Lemma mapped_indices_nil_inv (l : list string) (token_map : gmap string Z) :
  Forall (fun token_id => is_Some (token_map !! token_id)) l →
  mapped_indices token_map l = [] → l = [].
Proof.
  destruct 1 as [|k l [v Hv] _]; [done|].
  unfold mapped_indices. simpl. by rewrite Hv.
Qed.

Lemma offsets_of_min_max (l : list string) (token_map : gmap string Z)
    (lo hi : Z) :
  Forall (fun token_id => is_Some (token_map !! token_id)) l →
  is_minimum lo (mapped_indices token_map l) →
  is_maximum hi (mapped_indices token_map l) →
  util.get_segment_token_offsets l token_map = Ok (lo, hi).
Proof.
  intros Hl Hlo Hhi.
  rewrite get_segment_token_offsets_mapped by done.
  assert (mapped_indices token_map l ≠ []) as Hne.
  { intros E. destruct Hlo as [Hlo _]. rewrite E in Hlo. by inversion Hlo. }
  destruct (py_min_spec _ Hne) as (lo' & -> & Hlo').
  destruct (py_max_spec _ Hne) as (hi' & -> & Hhi'). simpl.
  by rewrite (is_minimum_unique _ _ _ Hlo Hlo'),
             (is_maximum_unique _ _ _ Hhi Hhi').
Qed.

Lemma offsets_perm (l l' : list string) (token_map : gmap string Z) :
  Forall (fun token_id => is_Some (token_map !! token_id)) l →
  l ≡ₚ l' →
  util.get_segment_token_offsets l' token_map
  = util.get_segment_token_offsets l token_map.
Proof.
  intros Hl Hp.
  assert (Forall (fun token_id => is_Some (token_map !! token_id)) l')
    as Hl' by by rewrite <- Hp.
  rewrite !get_segment_token_offsets_mapped by done.
  assert (mapped_indices token_map l ≡ₚ mapped_indices token_map l')
    as Hpi by (unfold mapped_indices; by rewrite Hp).
  destruct (decide (mapped_indices token_map l = [])) as [E|Hne].
  - rewrite E in Hpi |- *. apply Permutation_nil in Hpi. by rewrite Hpi.
  - assert (mapped_indices token_map l' ≠ []) as Hne'.
    { intros E. rewrite E in Hpi. by apply Permutation_nil_r in Hpi. }
    destruct (py_min_spec _ Hne) as (lo & -> & Hlo).
    destruct (py_max_spec _ Hne) as (hi & -> & Hhi).
    destruct (py_min_spec _ Hne') as (lo' & -> & Hlo').
    destruct (py_max_spec _ Hne') as (hi' & -> & Hhi'). simpl.
    by rewrite (is_minimum_unique _ _ _ Hlo' (is_minimum_perm _ _ _ Hpi Hlo)),
               (is_maximum_unique _ _ _ Hhi' (is_maximum_perm _ _ _ Hpi Hhi)).
Qed.

(** C3.  When the token map maps every identity of the input list, the
    function returns exactly the pair made of the minimum and the maximum
    of the mapped indices; and any permutation of the input list gives the
    same result. *)
Theorem get_segment_token_offsets_min_max (l : list string)
    (token_map : gmap string Z) :
  Forall (fun token_id => is_Some (token_map !! token_id)) l →
  (∀ lo hi,
      is_minimum lo (mapped_indices token_map l) →
      is_maximum hi (mapped_indices token_map l) →
      util.get_segment_token_offsets l token_map = Ok (lo, hi))
  ∧ (∀ l', l ≡ₚ l' →
      util.get_segment_token_offsets l' token_map
      = util.get_segment_token_offsets l token_map).
Proof.
  intros Hl. split.
  - intros lo hi. by apply offsets_of_min_max.
  - intros l'. by apply offsets_perm.
Qed.

Lemma get_segment_token_offsets_min_max_witness :
  util.get_segment_token_offsets ["t3"; "t1"; "t2"]
    (<["t1" := 0%Z]> (<["t2" := 1%Z]> (<["t3" := 2%Z]> ∅))) = Ok (0%Z, 2%Z)
  ∧ util.get_segment_token_offsets ["t1"; "t2"; "t3"]
      (<["t1" := 0%Z]> (<["t2" := 1%Z]> (<["t3" := 2%Z]> ∅)))
    = util.get_segment_token_offsets ["t3"; "t1"; "t2"]
        (<["t1" := 0%Z]> (<["t2" := 1%Z]> (<["t3" := 2%Z]> ∅))).
Proof.
  destruct (get_segment_token_offsets_min_max ["t3"; "t1"; "t2"]
    (<["t1" := 0%Z]> (<["t2" := 1%Z]> (<["t3" := 2%Z]> ∅)))) as [H1 H2].
  - repeat constructor; vm_compute; eauto.
  - split.
    + apply H1; (split; [vm_compute|repeat constructor; vm_compute; congruence]).
      * apply list_elem_of_further, list_elem_of_here.
      * apply list_elem_of_here.
    + apply H2. apply Permutation_cons_append.
Defined.

(** C9.  The span-offset computation raises [KeyError] (the spec's
    [UnknownToken]) when some input identity is not a key of the token
    map, raises [ValueError] (the spec's [EmptySpan]) when the input is
    empty, and returns a pair otherwise. *)
Theorem get_segment_token_offsets_errors (l : list string)
    (token_map : gmap string Z) :
  (Exists (fun token_id => token_map !! token_id = None) l →
   util.get_segment_token_offsets l token_map = Raise KeyError)
  ∧ (l = [] →
     util.get_segment_token_offsets l token_map = Raise ValueError)
  ∧ (l ≠ [] →
     Forall (fun token_id => is_Some (token_map !! token_id)) l →
     ∃ p, util.get_segment_token_offsets l token_map = Ok p).
Proof.
  repeat split.
  - intros Hex. unfold util.get_segment_token_offsets.
    by rewrite (comprehension_getitem_Raise _ _ Hex).
  - by intros ->.
  - intros Hne Hl. rewrite get_segment_token_offsets_mapped by done.
    assert (mapped_indices token_map l ≠ []) as Hne'.
    { intros E. by apply Hne, (mapped_indices_nil_inv _ token_map). }
    destruct (py_min_spec _ Hne') as (lo & -> & _).
    destruct (py_max_spec _ Hne') as (hi & -> & _). simpl. eauto.
Qed.

Lemma get_segment_token_offsets_errors_witness :
  util.get_segment_token_offsets ["t1"; "t9"] (<["t1" := 0%Z]> ∅)
  = Raise KeyError
  ∧ util.get_segment_token_offsets [] (<["t1" := 0%Z]> ∅) = Raise ValueError
  ∧ ∃ p, util.get_segment_token_offsets ["t1"] (<["t1" := 0%Z]> ∅) = Ok p.
Proof.
  split; [|split].
  - apply (get_segment_token_offsets_errors ["t1"; "t9"] (<["t1" := 0%Z]> ∅)).
    apply Exists_cons_tl, Exists_cons_hd. vm_compute. reflexivity.
  - apply (get_segment_token_offsets_errors [] (<["t1" := 0%Z]> ∅)).
    reflexivity.
  - apply (get_segment_token_offsets_errors ["t1"] (<["t1" := 0%Z]> ∅)).
    + discriminate.
    + repeat constructor. vm_compute. eauto.
Defined.

(** ** util.py: [TokenMapper] *)

Lemma TokenMapper_index2id_from (l : list string) (k : Z)
    (s : util.TokenMapper) (i : Z) :
  util.index2id (foldl util.TokenMapper_step s (util.enumerate_from k l)) !! i
  = if decide (k ≤ i < k + Z.of_nat (length l))%Z
    then l !! Z.to_nat (i - k)
    else util.index2id s !! i.
Proof.
  revert k s. induction l as [|x l IH]; intros k s.
  - simpl. case_decide; [lia|done].
  - cbn [util.enumerate_from foldl length]. rewrite IH. simpl.
    destruct (decide (i = k)) as [->|Hne].
    + rewrite decide_False by lia. rewrite decide_True by lia.
      rewrite lookup_insert_eq. by replace (k - k)%Z with 0%Z by lia.
    + rewrite lookup_insert_ne by done.
      case_decide; case_decide; try lia; [|done].
      replace (Z.to_nat (i - k)) with (S (Z.to_nat (i - (k + 1)))) by lia.
      done.
Qed.

Lemma TokenMapper_id2index_absent (l : list string) (k : Z)
    (s : util.TokenMapper) (token_id : string) :
  token_id ∉ l →
  util.id2index (foldl util.TokenMapper_step s (util.enumerate_from k l))
    !! token_id
  = util.id2index s !! token_id.
Proof.
  revert k s. induction l as [|x l IH]; intros k s Hni; [done|].
  apply not_elem_of_cons in Hni as [Hne Hni].
  cbn [util.enumerate_from foldl]. rewrite IH by done. simpl.
  by rewrite lookup_insert_ne.
Qed.

Lemma TokenMapper_id2index_last (l : list string) (k : Z)
    (s : util.TokenMapper) (token_id : string) (j : nat) :
  l !! j = Some token_id →
  (∀ j', j < j' → l !! j' ≠ Some token_id) →
  util.id2index (foldl util.TokenMapper_step s (util.enumerate_from k l))
    !! token_id
  = Some (k + Z.of_nat j)%Z.
Proof.
  revert k s j. induction l as [|x l IH]; intros k s j Hj Hlast; [done|].
  cbn [util.enumerate_from foldl]. destruct j as [|j]; simpl in Hj.
  - injection Hj as ->. rewrite TokenMapper_id2index_absent.
    + simpl. rewrite lookup_insert_eq. f_equal. lia.
    + intros [j' Hj']%list_elem_of_lookup. apply (Hlast (S j')); [lia|done].
  - rewrite (IH _ _ j) by (try done; intros j' ?; apply (Hlast (S j')); lia).
    f_equal. lia.
Qed.

(** C10.  Whatever the token sequence, duplicates included, the
    construction yields the two dicts: [index2id] holds exactly the
    positions [0..n-1], each with the identity found there, while
    [id2index] gives an identity its last position.  So for an identity
    found at positions [i < j], [j] being its last, position [i] is mapped
    to the identity but the identity is not mapped back to [i]. *)
Theorem TokenMapper_duplicate (tokens : list string) :
  (∀ i : nat,
      util.index2id (util.TokenMapper_init tokens) !! Z.of_nat i = tokens !! i)
  ∧ (∀ i : Z, (i < 0)%Z →
      util.index2id (util.TokenMapper_init tokens) !! i = None)
  ∧ (∀ (token_id : string) (j : nat),
      tokens !! j = Some token_id →
      (∀ j', j < j' → tokens !! j' ≠ Some token_id) →
      util.id2index (util.TokenMapper_init tokens) !! token_id
      = Some (Z.of_nat j))
  ∧ (∀ (token_id : string) (i j : nat),
      tokens !! i = Some token_id →
      tokens !! j = Some token_id →
      i < j →
      (∀ j', j < j' → tokens !! j' ≠ Some token_id) →
      util.index2id (util.TokenMapper_init tokens) !! Z.of_nat i
      = Some token_id
      ∧ util.id2index (util.TokenMapper_init tokens) !! token_id
        ≠ Some (Z.of_nat i)).
Proof.
  unfold util.TokenMapper_init, util.enumerate.
  assert (∀ i : nat,
    util.index2id (foldl util.TokenMapper_step
      {| util.id2index := ∅; util.index2id := ∅ |}
      (util.enumerate_from 0 tokens)) !! Z.of_nat i = tokens !! i) as Hidx.
  { intros i. rewrite TokenMapper_index2id_from. case_decide.
    - f_equal. lia.
    - simpl. rewrite lookup_empty. symmetry. apply lookup_ge_None. lia. }
  split; [done|]. split; [|split].
  - intros i Hi. rewrite TokenMapper_index2id_from.
    rewrite decide_False by lia. apply lookup_empty.
  - intros token_id j Hj Hlast.
    by rewrite (TokenMapper_id2index_last _ _ _ _ j).
  - intros token_id i j Hi Hj Hlt Hlast. split; [by rewrite Hidx|].
    rewrite (TokenMapper_id2index_last _ _ _ _ j) by done.
    intros [= ?]. lia.
Qed.

Lemma TokenMapper_duplicate_witness :
  util.index2id (util.TokenMapper_init ["t1"; "t2"; "t1"]) !! 0%Z = Some "t1"
  ∧ util.id2index (util.TokenMapper_init ["t1"; "t2"; "t1"]) !! "t1"
    ≠ Some 0%Z.
Proof.
  destruct (TokenMapper_duplicate ["t1"; "t2"; "t1"]) as (_ & _ & _ & H).
  apply (H "t1" 0 2).
  - reflexivity.
  - reflexivity.
  - lia.
  - intros j' Hj'. destruct j' as [|[|[|j']]]; try lia. simpl. discriminate.
Defined.

(** ** Natural sorting *)

Lemma string_compare_refl (s : string) : String.compare s s = Eq.
Proof.
  pose proof (String.compare_antisym s s) as H.
  by destruct (String.compare s s).
Qed.

Lemma string_compare_lt_trans (a b c : string) :
  String.compare a b = Lt → String.compare b c = Lt → String.compare a c = Lt.
Proof.
  intros Hab Hbc.
  assert (String.le a b) as Lab by (unfold String.le, String.leb; by rewrite Hab).
  assert (String.le b c) as Lbc by (unfold String.le, String.leb; by rewrite Hbc).
  assert (String.le a c) as Lac by (by etrans).
  unfold String.le, String.leb in Lac.
  destruct (String.compare a c) eqn:Hac; [|done|done].
  apply String.compare_eq_iff in Hac as ->.
  assert (b = c) as -> by (by apply (anti_symm String.le)).
  by rewrite string_compare_refl in Hab.
Qed.

Lemma item_compare_eq (x y : key_item) : item_compare x y = Eq → x = y.
Proof.
  destruct x, y; simpl; try done.
  - by intros ->%String.compare_eq_iff.
  - by intros ->%N.compare_eq_iff.
Qed.

Lemma item_compare_antisym (x y : key_item) :
  item_compare y x = CompOpp (item_compare x y).
Proof.
  destruct x, y; simpl; try done.
  - apply String.compare_antisym.
  - apply N.compare_antisym.
Qed.

Lemma item_compare_lt_trans (x y z : key_item) :
  item_compare x y = Lt → item_compare y z = Lt → item_compare x z = Lt.
Proof.
  destruct x, y, z; simpl; try done.
  - apply string_compare_lt_trans.
  - rewrite !N.compare_lt_iff. lia.
Qed.

Lemma key_compare_eq (a b : list key_item) : key_compare a b = Eq → a = b.
Proof.
  revert b. induction a as [|x a IH]; intros [|y b]; simpl; try done.
  destruct (item_compare x y) eqn:Hxy; try done.
  intros ->%IH. by apply item_compare_eq in Hxy as ->.
Qed.

Lemma key_compare_antisym (a b : list key_item) :
  key_compare b a = CompOpp (key_compare a b).
Proof.
  revert b. induction a as [|x a IH]; intros [|y b]; simpl; try done.
  rewrite (item_compare_antisym x y).
  destruct (item_compare x y); simpl; auto.
Qed.

Lemma key_compare_lt_trans (a b c : list key_item) :
  key_compare a b = Lt → key_compare b c = Lt → key_compare a c = Lt.
Proof.
  revert b c. induction a as [|x a IH]; intros [|y b] [|z c]; simpl; try done.
  destruct (item_compare x y) eqn:Hxy; try done.
  - apply item_compare_eq in Hxy as ->.
    destruct (item_compare y z); try done. apply IH.
  - destruct (item_compare y z) eqn:Hyz; try done.
    + apply item_compare_eq in Hyz as ->. by rewrite Hxy.
    + by rewrite (item_compare_lt_trans _ _ _ Hxy Hyz).
Qed.

Lemma key_lt_asym (a b : list key_item) :
  key_lt a b = true → key_lt b a = false.
Proof.
  unfold key_lt. rewrite (key_compare_antisym a b).
  by destruct (key_compare a b).
Qed.

Lemma key_compare_gt_lt (a b : list key_item) :
  key_compare a b = Gt → key_compare b a = Lt.
Proof. intros H. by rewrite (key_compare_antisym a b), H. Qed.

Lemma key_lt_false_trans (a b c : list key_item) :
  key_lt b a = false → key_lt c b = false → key_lt c a = false.
Proof.
  unfold key_lt. intros Hba Hcb.
  destruct (key_compare c a) eqn:Hca; try done.
  destruct (key_compare b a) eqn:Hba'; try done.
  - apply key_compare_eq in Hba' as ->. by rewrite Hca in Hcb.
  - destruct (key_compare c b) eqn:Hcb'; try done.
    + apply key_compare_eq in Hcb' as ->. by rewrite Hca in Hba'.
    + apply key_compare_gt_lt in Hba', Hcb'.
      pose proof (key_compare_lt_trans _ _ _ Hba' Hcb') as Hac.
      rewrite (key_compare_antisym a c), Hac in Hca. done.
Qed.

Global Instance natural_le_trans : Transitive natural_le.
Proof. intros a b c Hab Hbc. by eapply key_lt_false_trans. Qed.

Global Instance natural_le_dec : RelDecision natural_le.
Proof. intros a b. unfold natural_le. apply _. Defined.

Section SortedFacts.
Context {A : Type} (key : A → list key_item).

Let le (a b : A) : Prop := key_lt (key b) (key a) = false.

Lemma insert_by_perm (x : A) (l : list A) : insert_by key x l ≡ₚ x :: l.
Proof.
  induction l as [|y l IH]; simpl; [done|].
  destruct (key_lt (key y) (key x)); [|done].
  rewrite IH. apply Permutation_swap.
Qed.

Lemma sorted_perm (l : list A) : sorted key l ≡ₚ l.
Proof.
  induction l as [|x l IH]; simpl; [done|].
  fold (sorted key l). by rewrite insert_by_perm, IH.
Qed.

Lemma insert_by_sorted (x : A) (l : list A) :
  StronglySorted le l → StronglySorted le (insert_by key x l).
Proof.
  induction 1 as [|y l Hl IH Hy]; simpl.
  - repeat constructor.
  - destruct (key_lt (key y) (key x)) eqn:Hyx.
    + constructor; [done|]. rewrite insert_by_perm.
      constructor; [|done]. by apply key_lt_asym.
    + constructor; [by constructor|]. constructor; [done|].
      eapply Forall_impl; [exact Hy|]. intros z Hz.
      by eapply key_lt_false_trans.
Qed.

Lemma sorted_sorted (l : list A) : StronglySorted le (sorted key l).
Proof.
  induction l as [|x l IH]; simpl; [constructor|].
  by apply insert_by_sorted.
Qed.
End SortedFacts.

Lemma StronglySorted_filter {A : Type} (R : A → A → Prop) (P : A → Prop)
    `{∀ x, Decision (P x)} (l : list A) :
  StronglySorted R l → StronglySorted R (filter P l).
Proof.
  induction 1 as [|x l Hl IH Hx]; [constructor|].
  rewrite filter_cons. case_decide; [|done].
  constructor; [done|]. rewrite Forall_forall in Hx. apply Forall_forall.
  intros z [_ Hz]%list_elem_of_filter. by apply Hx.
Qed.

(** ** brackets.py: the mappings *)

Lemma for_each_app {A S : Type} (body : S → A → result S) (s : S)
    (l1 l2 : list A) :
  for_each body s (l1 ++ l2) = (s' ←' for_each body s l1; for_each body s' l2).
Proof.
  revert s. induction l1 as [|x l1 IH]; intros s; simpl; [done|].
  destruct (body s x); simpl; [apply IH|done].
Qed.

Lemma dd_append_lookup (d : gmap string (list string)) (k x t : string) :
  default [] (dd_append d k x !! t)
  = default [] (d !! t) ++ (if decide (k = t) then [x] else []).
Proof.
  unfold dd_append. destruct (decide (k = t)) as [->|Hne].
  - by rewrite lookup_insert_eq.
  - rewrite lookup_insert_ne by done. by rewrite app_nil_r.
Qed.

Lemma dd_ok_empty : dd_ok ∅.
Proof. intros t l. by rewrite lookup_empty. Qed.

Lemma dd_ok_append (d : gmap string (list string)) (k x : string) :
  dd_ok d → dd_ok (dd_append d k x).
Proof.
  intros Hd t l. unfold dd_append. destruct (decide (k = t)) as [->|Hne].
  - rewrite lookup_insert_eq. intros [= <-]. by destruct (default [] (d !! t)).
  - rewrite lookup_insert_ne by done. apply Hd.
Qed.

Lemma span_tokens_Ok (d : brackets.DocGraph) (m span : string) :
  brackets.span_attr d m = Ok span →
  brackets.span_tokens d m = brackets.spanstring2tokens d span.
Proof. unfold brackets.span_tokens. by intros ->. Qed.

Lemma span_tokens_Raise (d : brackets.DocGraph) (m : string) (e : exn) :
  brackets.span_attr d m = Raise e → brackets.span_tokens d m = [].
Proof. unfold brackets.span_tokens. by intros ->. Qed.

Lemma markable_step_eq (d : brackets.DocGraph)
    (o c : gmap string (list string)) (m : string) :
  brackets.markable_step d (o, c) m
  = match brackets.span_attr d m with
    | Raise e => Raise e
    | Ok _ =>
        match brackets.span_tokens d m with
        | [] => Raise IndexError
        | x :: sp =>
            match last (x :: sp) with
            | Some y => Ok (dd_append o x m, dd_append c y m)
            | None => Raise IndexError
            end
        end
    end.
Proof.
  unfold brackets.markable_step, brackets.span_tokens, item_first, item_last.
  destruct (brackets.span_attr d m) as [span|e]; [|done]. cbn [rbind].
  destruct (brackets.spanstring2tokens d span) as [|x sp]; [done|].
  cbn [rbind]. by destruct (last (x :: sp)).
Qed.

Lemma markable_steps_spec (d : brackets.DocGraph) (ms : list string)
    (o c o' c' : gmap string (list string)) :
  for_each (brackets.markable_step d) (o, c) ms = Ok (o', c') →
  (∀ t, default [] (o' !! t)
        = default [] (o !! t)
          ++ filter (fun m => head (brackets.span_tokens d m) = Some t) ms)
  ∧ (∀ t, default [] (c' !! t)
          = default [] (c !! t)
            ++ filter (fun m => last (brackets.span_tokens d m) = Some t) ms)
  ∧ (dd_ok o → dd_ok o') ∧ (dd_ok c → dd_ok c')
  ∧ Forall (fun m => brackets.span_tokens d m ≠ []) ms.
Proof.
  revert o c. induction ms as [|m ms IH]; intros o c.
  - simpl. intros [= <- <-]. repeat split; try done.
    + intros t. by rewrite filter_nil, app_nil_r.
    + intros t. by rewrite filter_nil, app_nil_r.
  - cbn [for_each]. rewrite markable_step_eq.
    destruct (brackets.span_attr d m) as [span|e]; [|done].
    destruct (brackets.span_tokens d m) as [|x sp] eqn:Hsp; [done|].
    destruct (last (x :: sp)) as [y|] eqn:Hlast; [|done].
    cbn [rbind]. intros Hrest.
    destruct (IH _ _ Hrest) as (Ho & Hc & Hoko & Hokc & Hne).
    repeat split.
    + intros t. rewrite Ho, dd_append_lookup, filter_cons, Hsp. simpl.
      rewrite <- app_assoc. f_equal.
      destruct (decide (x = t)) as [->|?].
      * by rewrite decide_True.
      * by rewrite decide_False by congruence.
    + intros t. rewrite Hc, dd_append_lookup, filter_cons, Hsp, Hlast.
      rewrite <- app_assoc. f_equal.
      destruct (decide (y = t)) as [->|?].
      * by rewrite decide_True.
      * by rewrite decide_False by congruence.
    + intros ?. by apply Hoko, dd_ok_append.
    + intros ?. by apply Hokc, dd_ok_append.
    + constructor; [by rewrite Hsp|done].
Qed.

Lemma markable_steps_total (d : brackets.DocGraph) (ms : list string)
    (o c : gmap string (list string)) :
  Forall (fun m => brackets.span_tokens d m ≠ []) ms →
  ∃ o' c', for_each (brackets.markable_step d) (o, c) ms = Ok (o', c').
Proof.
  intros Hms. revert o c. induction Hms as [|m ms Hm _ IH]; intros o c.
  - simpl. eauto.
  - cbn [for_each]. rewrite markable_step_eq.
    destruct (brackets.span_attr d m) as [span|e] eqn:Hattr;
      [|by rewrite (span_tokens_Raise _ _ _ Hattr) in Hm].
    destruct (brackets.span_tokens d m) as [|x sp] eqn:Hsp; [done|].
    destruct (last (x :: sp)) as [y|] eqn:Hlast.
    + cbn [rbind]. apply IH.
    + by apply last_None in Hlast.
Qed.

Lemma chain_fold_lookup (chain : list string) (chain_id m : string)
    (m2c : gmap string string) :
  foldl (fun m2c markable => <[markable := chain_id]> m2c) m2c chain !! m
  = if decide (m ∈ chain) then Some chain_id else m2c !! m.
Proof.
  revert m2c. induction chain as [|x chain IH]; intros m2c; cbn [foldl].
  - rewrite decide_False; [done|]. by intros ?%elem_of_nil.
  - rewrite IH. destruct (decide (m ∈ chain)).
    + by rewrite decide_True by set_solver.
    + destruct (decide (x = m)) as [->|?].
      * rewrite lookup_insert_eq. by rewrite decide_True by set_solver.
      * rewrite lookup_insert_ne by done. rewrite decide_False; [done|].
        by intros [->|?]%elem_of_cons.
Qed.

Lemma chain_steps_spec (chains : list (list string))
    (m2c m2c' : gmap string string) :
  for_each brackets.chain_step m2c chains = Ok m2c' →
  Forall (fun chain => chain ≠ []) chains
  ∧ (∀ m, m ∈ chain chains → is_Some (m2c' !! m))
  ∧ (∀ m, is_Some (m2c !! m) → is_Some (m2c' !! m))
  ∧ (∀ m chain_id, m2c' !! m = Some chain_id →
       m2c !! m = Some chain_id
       ∨ ∃ ch, ch ∈ chains ∧ m ∈ ch ∧ head ch = Some chain_id).
Proof.
  revert m2c. induction chains as [|ch chains IH]; intros m2c.
  - simpl. intros [= <-]. repeat split; try done.
    + intros m Hm. by inversion Hm.
    + eauto.
  - cbn [for_each]. unfold brackets.chain_step at 2. unfold item_first.
    destruct ch as [|chain_id ch]; [done|]. cbn [rbind]. intros Hrest.
    destruct (IH _ Hrest) as (Hne & Hin & Hmono & Hid).
    assert (∀ m, is_Some (m2c !! m) ∨ m ∈ chain_id :: ch →
                 is_Some (m2c' !! m)) as Hstep.
    { intros m Hm. apply Hmono. rewrite chain_fold_lookup.
      case_decide; [eauto|]. by destruct Hm. }
    repeat split.
    + by constructor.
    + intros m. unfold chain. rewrite concat_cons, elem_of_app.
      intros [Hm|Hm]; [by apply Hstep; right|by apply Hin].
    + intros m Hm. by apply Hstep; left.
    + intros m cid Hm. destruct (Hid _ _ Hm) as [Hm'|(ch' & ? & ? & ?)].
      * rewrite chain_fold_lookup in Hm'. case_decide.
        -- injection Hm' as <-. right. exists (chain_id :: ch).
           split; [apply list_elem_of_here|done].
        -- by left.
      * right. exists ch'. split; [by apply list_elem_of_further|done].
Qed.

Lemma chain_steps_total (chains : list (list string))
    (m2c : gmap string string) :
  Forall (fun chain => chain ≠ []) chains →
  ∃ m2c', for_each brackets.chain_step m2c chains = Ok m2c'.
Proof.
  intros Hch. revert m2c. induction Hch as [|ch chains Hne _ IH]; intros m2c.
  - simpl. eauto.
  - cbn [for_each]. unfold brackets.chain_step at 2.
    destruct ch; [done|]. cbn [item_first rbind]. apply IH.
Qed.

Lemma sorted_markables_elem (d : brackets.DocGraph) (m : string) :
  m ∈ brackets.sorted_markables d ↔ m ∈ chain (brackets.pointing_chains d).
Proof. unfold brackets.sorted_markables. by rewrite sorted_perm. Qed.

(** What [gen_bracket_mappings] returns, when it returns. *)
Lemma gen_bracket_mappings_spec (d : brackets.DocGraph)
    (o c : gmap string (list string)) (m2c : gmap string string) :
  brackets.gen_bracket_mappings d = Ok (o, c, m2c) →
  (∀ t, default [] (o !! t) = opens_at d t)
  ∧ (∀ t, default [] (c !! t) = closes_at d t)
  ∧ dd_ok o ∧ dd_ok c
  ∧ Forall (fun m => brackets.span_tokens d m ≠ [])
           (brackets.sorted_markables d)
  ∧ (∀ m, m ∈ brackets.sorted_markables d → is_Some (m2c !! m))
  ∧ (∀ m chain_id, m2c !! m = Some chain_id →
       ∃ ch, ch ∈ brackets.pointing_chains d ∧ m ∈ ch
             ∧ head ch = Some chain_id).
Proof.
  unfold brackets.gen_bracket_mappings.
  destruct (for_each brackets.chain_step ∅ (brackets.pointing_chains d))
    as [m2c'|] eqn:Hch; [|done]. cbn [rbind].
  destruct (for_each (brackets.markable_step d) (∅, ∅)
              (brackets.sorted_markables d)) as [[o' c']|] eqn:Hms; [|done].
  cbn [rbind]. intros [= <- <- <-].
  destruct (markable_steps_spec _ _ _ _ _ _ Hms) as (Ho & Hc & Hoo & Hoc & Hne).
  destruct (chain_steps_spec _ _ _ Hch) as (_ & Hin & _ & Hid).
  repeat split; try done.
  - apply Hoo, dd_ok_empty.
  - apply Hoc, dd_ok_empty.
  - intros m Hm. by apply Hin, sorted_markables_elem.
  - intros m cid Hm. destruct (Hid _ _ Hm) as [Hm'|?]; [|done].
    by rewrite lookup_empty in Hm'.
Qed.

Lemma gen_bracket_mappings_total (d : brackets.DocGraph) :
  Forall (fun chain => chain ≠ []) (brackets.pointing_chains d) →
  Forall (fun m => brackets.span_tokens d m ≠ []) (brackets.sorted_markables d) →
  ∃ o c m2c, brackets.gen_bracket_mappings d = Ok (o, c, m2c).
Proof.
  intros Hch Hms. unfold brackets.gen_bracket_mappings.
  destruct (chain_steps_total _ ∅ Hch) as [m2c ->].
  destruct (markable_steps_total _ _ ∅ ∅ Hms) as (o & c & ->).
  simpl. eauto.
Qed.

Lemma span_attr_raise (d : brackets.DocGraph) (m : string) (e : exn) :
  brackets.span_attr d m = Raise e → e = KeyError.
Proof.
  unfold brackets.span_attr, getitem.
  destruct (brackets.node d !! m) as [attrs|]; cbn [rbind].
  - destruct (attrs !! _); [done|]. by intros [= <-].
  - by intros [= <-].
Qed.

(** The two ways in which a markable stops [gen_bracket_mappings]: its
    span attribute cannot be read, or its span holds no token. *)
Lemma span_tokens_nil (d : brackets.DocGraph) (m : string) :
  brackets.span_tokens d m = []
  ↔ brackets.span_attr d m = Raise KeyError
    ∨ ∃ span, brackets.span_attr d m = Ok span
              ∧ brackets.spanstring2tokens d span = [].
Proof.
  unfold brackets.span_tokens.
  destruct (brackets.span_attr d m) as [span|e] eqn:Hattr.
  - split.
    + intros Hnil. right. by exists span.
    + intros [?|(span' & [= <-] & ?)]; done.
  - apply span_attr_raise in Hattr as ->. split; [by left|done].
Qed.

Lemma chain_steps_raise (chains : list (list string))
    (m2c : gmap string string) (e : exn) :
  for_each brackets.chain_step m2c chains = Raise e → e = IndexError.
Proof.
  revert m2c. induction chains as [|ch chains IH]; intros m2c; [done|].
  destruct ch as [|x ch]; simpl; [by intros [= <-]|]. apply IH.
Qed.

(** The loop over the markables stops at the first markable whose span
    attribute cannot be read ([KeyError]) or whose span holds no token
    ([IndexError]). *)
Lemma markable_steps_raise (d : brackets.DocGraph) (ms : list string)
    (oc : gmap string (list string) * gmap string (list string)) (e : exn) :
  for_each (brackets.markable_step d) oc ms = Raise e
  ↔ ∃ pre m post,
      ms = pre ++ m :: post
      ∧ Forall (fun m => brackets.span_tokens d m ≠ []) pre
      ∧ ((e = KeyError ∧ brackets.span_attr d m = Raise KeyError)
         ∨ (e = IndexError
            ∧ ∃ span, brackets.span_attr d m = Ok span
                      ∧ brackets.spanstring2tokens d span = [])).
Proof.
  revert oc. induction ms as [|m ms IH]; intros [o c].
  - split; [done|]. intros (pre & m & post & Hms & _). by destruct pre.
  - cbn [for_each]. rewrite markable_step_eq.
    destruct (brackets.span_attr d m) as [span|e'] eqn:Hattr.
    + rewrite (span_tokens_Ok _ _ _ Hattr).
      destruct (brackets.spanstring2tokens d span) as [|x sp] eqn:Hsp.
      * cbn [rbind]. split.
        -- intros [= <-]. exists [], m, ms. split; [done|].
           split; [constructor|]. right. split; [done|]. by exists span.
        -- intros (pre & m' & post & Hms & Hpre & Herr).
           destruct pre as [|p pre].
           ++ injection Hms as <- <-.
              destruct Herr as [[_ ?]|[-> _]]; [congruence|done].
           ++ injection Hms as <- ->. apply Forall_cons in Hpre as [Hp _].
              by rewrite (span_tokens_Ok _ _ _ Hattr), Hsp in Hp.
      * destruct (last (x :: sp)) as [y|] eqn:Hlast;
          [|by apply last_None in Hlast].
        cbn [rbind]. rewrite IH. split.
        -- intros (pre & m' & post & -> & Hpre & Herr).
           exists (m :: pre), m', post. split; [done|]. split; [|done].
           constructor; [|done].
           by rewrite (span_tokens_Ok _ _ _ Hattr), Hsp.
        -- intros (pre & m' & post & Hms & Hpre & Herr).
           destruct pre as [|p pre].
           ++ injection Hms as <- <-.
              destruct Herr as [[_ ?]|(_ & span' & ? & ?)]; congruence.
           ++ injection Hms as <- ->. apply Forall_cons in Hpre as [_ Hpre].
              by exists pre, m', post.
    + pose proof (span_attr_raise _ _ _ Hattr) as ->. cbn [rbind]. split.
      * intros [= <-]. exists [], m, ms. split; [done|].
        split; [constructor|]. by left.
      * intros (pre & m' & post & Hms & Hpre & Herr).
        destruct pre as [|p pre].
        -- injection Hms as <- <-.
           destruct Herr as [[-> _]|(_ & span' & ? & _)]; [done|congruence].
        -- injection Hms as <- ->. apply Forall_cons in Hpre as [Hp _].
           by rewrite (span_tokens_Raise _ _ _ Hattr) in Hp.
Qed.

(** [gen_bracket_mappings] raises exactly when a chain is empty or a
    markable of the chains has no readable span or no token in its span,
    and what it raises is an [IndexError] or a [KeyError]. *)
Lemma gen_bracket_mappings_raise (d : brackets.DocGraph) :
  ((∃ e, brackets.gen_bracket_mappings d = Raise e)
   ↔ Exists (fun chain => chain = []) (brackets.pointing_chains d)
     ∨ Exists (fun m => brackets.span_tokens d m = [])
              (chain (brackets.pointing_chains d)))
  ∧ (∀ e, brackets.gen_bracket_mappings d = Raise e →
          e = IndexError ∨ e = KeyError).
Proof.
  split.
  - split.
    + intros [e He].
      destruct (decide (Forall (fun chain : list string => chain ≠ [])
                               (brackets.pointing_chains d))) as [Hch|Hch].
      * right.
        destruct (decide (Forall (fun m => brackets.span_tokens d m ≠ [])
                                 (brackets.sorted_markables d))) as [Hsp|Hsp].
        { destruct (gen_bracket_mappings_total d Hch Hsp)
            as (o & c & m2c & Hok). congruence. }
        apply not_Forall_Exists in Hsp; [|apply _].
        apply Exists_exists in Hsp as (m & Hm & Hnil).
        apply Exists_exists. exists m. split.
        -- by apply sorted_markables_elem.
        -- destruct (decide (brackets.span_tokens d m = [])) as [|Hne];
             [done|]. exfalso. by apply Hnil.
      * left. apply not_Forall_Exists in Hch; [|apply _].
        apply Exists_exists in Hch as (ch & Hin & Hnil).
        apply Exists_exists. exists ch. split; [done|].
        destruct (decide (ch = [])) as [|Hne]; [done|].
        exfalso. by apply Hnil.
    + intros Hex.
      destruct (brackets.gen_bracket_mappings d) as [[[o c] m2c]|e] eqn:Hg;
        [|by exists e].
      exfalso.
      pose proof (gen_bracket_mappings_spec _ _ _ _ Hg)
        as (_ & _ & _ & _ & Hsp & _).
      unfold brackets.gen_bracket_mappings in Hg.
      destruct (for_each brackets.chain_step _ _) as [m2c'|] eqn:Hch; [|done].
      apply chain_steps_spec in Hch as (Hne & _).
      rewrite Forall_forall in Hne. rewrite Forall_forall in Hsp.
      destruct Hex as [Hex|Hex]; apply Exists_exists in Hex as (x & Hin & Hx).
      * by apply (Hne x).
      * apply (Hsp x); [|done]. by apply sorted_markables_elem.
  - intros e. unfold brackets.gen_bracket_mappings.
    destruct (for_each brackets.chain_step _ _) as [m2c'|e1] eqn:Hch.
    + cbn [rbind].
      destruct (for_each (brackets.markable_step d) _ _) as [[o c]|e2] eqn:Hm;
        [done|].
      cbn [rbind]. intros [= <-].
      apply markable_steps_raise in Hm
        as (_ & _ & _ & _ & _ & [[-> _]|[-> _]]); auto.
    + cbn [rbind]. intros [= <-]. left. by apply chain_steps_raise in Hch.
Qed.

(** ** util.py: the key of the natural sort *)

Lemma append_cons (x : ascii) (a b : string) :
  String x a +:+ b = String x (a +:+ b).
Proof. reflexivity. Qed.

Lemma append_nil_l (s : string) : EmptyString +:+ s = s.
Proof. reflexivity. Qed.

Lemma append_nil_r (s : string) : s +:+ EmptyString = s.
Proof. induction s as [|a s IH]; [done|]. by rewrite append_cons, IH. Qed.

Lemma append_assoc (a b c : string) : (a +:+ b) +:+ c = a +:+ b +:+ c.
Proof.
  induction a as [|x a IH]; [done|]. by rewrite !append_cons, IH.
Qed.

Lemma digit_free_app s t :
  digit_free (s +:+ t) = digit_free s && digit_free t.
Proof.
  induction s as [|c s IH]; [done|].
  rewrite append_cons. simpl. rewrite IH. by rewrite andb_assoc.
Qed.

Lemma all_digits_app s t :
  util.all_digits (s +:+ t) = util.all_digits s && util.all_digits t.
Proof.
  induction s as [|c s IH]; [done|].
  rewrite append_cons. simpl. rewrite IH. by rewrite andb_assoc.
Qed.

Lemma isdigit_all_digits s :
  util.isdigit s = true ↔ s ≠ EmptyString ∧ util.all_digits s = true.
Proof.
  destruct s as [|c s]; simpl; [|split; [done|tauto]].
  split; [done|intros [[] _]; done].
Qed.

Lemma isdigit_snoc cur c :
  (cur = EmptyString ∨ util.isdigit cur = true) → util.is_digit c = true →
  util.isdigit (cur +:+ String c EmptyString) = true.
Proof.
  intros Hcur Hc. apply isdigit_all_digits. split.
  - destruct cur; [done|]. by rewrite append_cons.
  - rewrite all_digits_app. simpl. rewrite Hc. simpl.
    destruct Hcur as [->|Hcur]; [done|].
    apply isdigit_all_digits in Hcur as [_ ->]. done.
Qed.

Lemma digit_free_not_isdigit s :
  digit_free s = true → util.isdigit s = false.
Proof.
  destruct s as [|c s]; [done|]. simpl.
  destruct (util.is_digit c); [done|]. done.
Qed.

Lemma split_go_text p s cur :
  digit_free p = true →
  util.split_go (p +:+ s) false cur = util.split_go s false (cur +:+ p).
Proof.
  revert cur. induction p as [|c p IH]; intros cur Hp.
  - by rewrite append_nil_r.
  - simpl in Hp. apply andb_prop in Hp as [Hc Hp].
    apply negb_true_iff in Hc.
    rewrite append_cons. cbn [util.split_go]. rewrite Hc, IH by done.
    by rewrite append_assoc.
Qed.

Lemma split_go_digits a s cur :
  util.all_digits a = true →
  util.split_go (a +:+ s) true cur = util.split_go s true (cur +:+ a).
Proof.
  revert cur. induction a as [|c a IH]; intros cur Ha.
  - by rewrite append_nil_r.
  - simpl in Ha. apply andb_prop in Ha as [Hc Ha].
    rewrite append_cons. cbn [util.split_go]. rewrite Hc, IH by done.
    by rewrite append_assoc.
Qed.

Lemma split_go_after_digits r a :
  no_leading_digit r = true →
  util.split_go r true a = a :: util.re_split_INTEGER_RE r.
Proof.
  destruct r as [|x r]; [done|]. simpl. intros Hx.
  apply negb_true_iff in Hx. unfold util.re_split_INTEGER_RE.
  cbn [util.split_go]. by rewrite Hx.
Qed.

Lemma re_split_number p a r :
  digit_free p = true → util.isdigit a = true → no_leading_digit r = true →
  util.re_split_INTEGER_RE (p +:+ a +:+ r)
  = p :: a :: util.re_split_INTEGER_RE r.
Proof.
  intros Hp Ha Hr. unfold util.re_split_INTEGER_RE at 1.
  rewrite split_go_text by done. rewrite append_nil_l.
  apply isdigit_all_digits in Ha as [Hne Ha].
  destruct a as [|c a]; [done|]. simpl in Ha.
  apply andb_prop in Ha as [Hc Ha].
  rewrite append_cons. cbn [util.split_go]. rewrite Hc.
  rewrite split_go_digits by done. rewrite append_cons, append_nil_l.
  by rewrite split_go_after_digits.
Qed.

Lemma natural_sort_key_number p a r :
  digit_free p = true → util.isdigit a = true → no_leading_digit r = true →
  util.natural_sort_key (p +:+ a +:+ r)
  = KStr p :: KInt (util.int a) :: util.natural_sort_key r.
Proof.
  intros Hp Ha Hr. unfold util.natural_sort_key.
  rewrite re_split_number by done. cbn [fmap list_fmap].
  by rewrite (digit_free_not_isdigit p Hp), Ha.
Qed.

Lemma int_go_snoc (acc : N) (a : string) (c : ascii) :
  util.int_go acc (a +:+ String c EmptyString)
  = (10 * util.int_go acc a + (N_of_ascii c - 48))%N.
Proof.
  revert acc. induction a as [|x a IH]; intros acc; [done|].
  rewrite append_cons. cbn [util.int_go]. apply IH.
Qed.

Lemma natural_sort_key_text (s : string) :
  digit_free s = true → util.natural_sort_key s = [KStr s].
Proof.
  intros Hs. unfold util.natural_sort_key, util.re_split_INTEGER_RE.
  rewrite <- (append_nil_r s) at 1. rewrite split_go_text by done.
  cbn [util.split_go fmap list_fmap]. rewrite append_nil_l.
  by rewrite (digit_free_not_isdigit s Hs).
Qed.

(** ** brackets.py: order of the markables and anchors *)

(** C8.  With [natural_sort_key] as the key, ["a2"; "a10"; "a1"] is sorted
    to [a1], [a2], [a10]; the result of such a sort is always a
    rearrangement of its input that is ordered by the keys; and the lists
    [gen_bracket_mappings] stores for a token hold the markables that open
    (close) there in that order.  The key of every string is fixed: a
    string without digits is its own key; a string that begins with text
    [p] (no digits, possibly empty) followed by a run of digits [a] has
    the key that begins with [p] and the int [a], its decimal value,
    followed by the key of the rest.  So keys that agree on the text
    before two runs of digits compare as the two ints, and a sort puts
    the string with the smaller int first, whatever the numbers of
    digits; keys that differ in that text compare as the two texts. *)
Theorem natural_sort_order :
  sorted util.natural_sort_key ["a2"; "a10"; "a1"] = ["a1"; "a2"; "a10"]
  ∧ util.natural_sort_key "a10" = [KStr "a"; KInt 10; KStr EmptyString]
  ∧ (∀ l : list string,
        sorted util.natural_sort_key l ≡ₚ l
        ∧ StronglySorted natural_le (sorted util.natural_sort_key l))
  ∧ (∀ d o c m2c,
        brackets.gen_bracket_mappings d = Ok (o, c, m2c) →
        ∀ t, default [] (o !! t) = opens_at d t
             ∧ default [] (c !! t) = closes_at d t
             ∧ StronglySorted natural_le (default [] (o !! t))
             ∧ StronglySorted natural_le (default [] (c !! t)))
  ∧ (∀ s, digit_free s = true → util.natural_sort_key s = [KStr s])
  ∧ (∀ p a r,
        digit_free p = true → util.isdigit a = true →
        no_leading_digit r = true →
        util.natural_sort_key (p +:+ a +:+ r)
        = KStr p :: KInt (util.int a) :: util.natural_sort_key r)
  ∧ (util.int EmptyString = 0%N
     ∧ ∀ a c, util.int (a +:+ String c EmptyString)
              = (10 * util.int a + (N_of_ascii c - 48))%N)
  ∧ (∀ p a b r1 r2,
        digit_free p = true →
        util.isdigit a = true → util.isdigit b = true →
        no_leading_digit r1 = true → no_leading_digit r2 = true →
        key_compare (util.natural_sort_key (p +:+ a +:+ r1))
                    (util.natural_sort_key (p +:+ b +:+ r2))
        = match N.compare (util.int a) (util.int b) with
          | Eq => key_compare (util.natural_sort_key r1)
                              (util.natural_sort_key r2)
          | cmp => cmp
          end
        ∧ ((util.int a < util.int b)%N →
           sorted util.natural_sort_key [p +:+ b +:+ r2; p +:+ a +:+ r1]
           = [p +:+ a +:+ r1; p +:+ b +:+ r2]))
  ∧ (∀ p q a b r1 r2,
        digit_free p = true → digit_free q = true →
        util.isdigit a = true → util.isdigit b = true →
        no_leading_digit r1 = true → no_leading_digit r2 = true →
        p ≠ q →
        key_compare (util.natural_sort_key (p +:+ a +:+ r1))
                    (util.natural_sort_key (q +:+ b +:+ r2))
        = String.compare p q).
Proof.
  split; [reflexivity|]. split; [reflexivity|].
  split; [|split; [|split; [|split; [|split; [|split]]]]].
  - intros l. split; [apply sorted_perm|apply sorted_sorted].
  - intros d o c m2c Hg t.
    destruct (gen_bracket_mappings_spec _ _ _ _ Hg) as (Ho & Hc & _).
    rewrite Ho, Hc. repeat split.
    + apply StronglySorted_filter, sorted_sorted.
    + apply StronglySorted_filter, sorted_sorted.
  - apply natural_sort_key_text.
  - intros p a r. apply natural_sort_key_number.
  - split; [done|]. intros a c. apply int_go_snoc.
  - intros p a b r1 r2 Hp Ha Hb Hr1 Hr2.
    assert (Hcmp :
      key_compare (util.natural_sort_key (p +:+ a +:+ r1))
                  (util.natural_sort_key (p +:+ b +:+ r2))
      = match N.compare (util.int a) (util.int b) with
        | Eq => key_compare (util.natural_sort_key r1)
                            (util.natural_sort_key r2)
        | cmp => cmp
        end).
    { rewrite !natural_sort_key_number by done.
      cbn [key_compare item_compare]. by rewrite string_compare_refl. }
    split; [done|]. intros Hlt.
    cbn [sorted foldr insert_by]. unfold key_lt. rewrite Hcmp.
    apply N.compare_lt_iff in Hlt. by rewrite Hlt.
  - intros p q a b r1 r2 Hp Hq Ha Hb Hr1 Hr2 Hne.
    rewrite !natural_sort_key_number by done.
    cbn [key_compare item_compare].
    destruct (String.compare p q) eqn:Hpq; try done.
    by apply String.compare_eq_iff in Hpq.
Qed.

Lemma natural_sort_order_witness :
  ∃ o c m2c,
    brackets.gen_bracket_mappings same_start = Ok (o, c, m2c)
    ∧ default [] (o !! "t1") = ["m2"; "m10"]
    ∧ StronglySorted natural_le (default [] (o !! "t1")).
Proof.
  destruct (brackets.gen_bracket_mappings same_start)
    as [[[o c] m2c]|e] eqn:Hg; [|vm_compute in Hg; discriminate].
  exists o, c, m2c. split; [reflexivity|].
  destruct natural_sort_order as (_ & _ & _ & H & _).
  destruct (H same_start o c m2c Hg "t1") as (Ho & _ & Hs & _).
  split; [|exact Hs]. rewrite Ho. vm_compute. reflexivity.
Defined.

Lemma elem_of_opens_at (d : brackets.DocGraph) (m t : string) :
  m ∈ opens_at d t
  ↔ head (brackets.span_tokens d m) = Some t ∧ m ∈ brackets.sorted_markables d.
Proof. unfold opens_at. by rewrite list_elem_of_filter. Qed.

Lemma elem_of_closes_at (d : brackets.DocGraph) (m t : string) :
  m ∈ closes_at d t
  ↔ last (brackets.span_tokens d m) = Some t ∧ m ∈ brackets.sorted_markables d.
Proof. unfold closes_at. by rewrite list_elem_of_filter. Qed.

Lemma sorted_last_max (l : list Z) (hi : Z) :
  StronglySorted Z.le l → last l = Some hi → Forall (fun i => (i ≤ hi)%Z) l.
Proof.
  induction 1 as [|x l Hl IH Hx]; [done|]. intros Hlast.
  destruct l as [|y l].
  - injection Hlast as ->. by repeat constructor.
  - rewrite last_cons_cons in Hlast. specialize (IH Hlast).
    constructor; [|done].
    inversion Hx as [|? ? Hxy _]; subst. inversion IH; subst. lia.
Qed.

Lemma positions_mapped (token_map : gmap string Z) (l : list string)
    (positions : list Z) :
  Forall2 (fun t p => token_map !! t = Some p) l positions →
  Forall (fun t => is_Some (token_map !! t)) l
  ∧ mapped_indices token_map l = positions.
Proof.
  induction 1 as [|t p l ps Htp _ [IH1 IH2]]; [done|]. split.
  - constructor; [by eexists|done].
  - rewrite <- IH2. unfold mapped_indices. simpl. by rewrite Htp.
Qed.

Lemma positions_last (token_map : gmap string Z) (l : list string)
    (positions : list Z) (t : string) :
  Forall2 (fun t p => token_map !! t = Some p) l positions →
  last l = Some t →
  ∃ p, last positions = Some p ∧ token_map !! t = Some p.
Proof.
  induction 1 as [|t' p l ps Htp Hrest IH]; [done|].
  destruct Hrest as [|t'' p' l ps Htp' Hrest].
  - intros [= ->]. eauto.
  - rewrite !last_cons_cons. apply IH.
Qed.

(** C2, as the code has it.  A markable is anchored at the first and at
    the last element of the token list its span resolves to, and nowhere
    else.  When that list is in document order, these are the tokens of
    least and greatest document position, the pair
    [get_segment_token_offsets] computes from the [TokenMapper]. *)
Theorem anchors_first_last (d : brackets.DocGraph)
    (o c : gmap string (list string)) (m2c : gmap string string)
    (m : string) :
  brackets.gen_bracket_mappings d = Ok (o, c, m2c) →
  m ∈ brackets.sorted_markables d →
  ∃ first last,
    item_first (brackets.span_tokens d m) = Ok first
    ∧ item_last (brackets.span_tokens d m) = Ok last
    ∧ (∀ t, m ∈ default [] (o !! t) ↔ t = first)
    ∧ (∀ t, m ∈ default [] (c !! t) ↔ t = last)
    ∧ (∀ positions,
          Forall2 (fun t p => document_positions d !! t = Some p)
                  (brackets.span_tokens d m) positions →
          StronglySorted Z.le positions →
          ∃ lo hi,
            document_positions d !! first = Some lo
            ∧ document_positions d !! last = Some hi
            ∧ util.get_segment_token_offsets (brackets.span_tokens d m)
                (document_positions d) = Ok (lo, hi)).
Proof.
  intros Hg Hm.
  destruct (gen_bracket_mappings_spec _ _ _ _ Hg) as (Ho & Hc & _ & _ & Hne & _).
  rewrite Forall_forall in Hne. specialize (Hne _ Hm).
  destruct (brackets.span_tokens d m) as [|first sp] eqn:Hsp; [done|].
  destruct (last (first :: sp)) as [lst|] eqn:Hlast;
    [|by apply last_None in Hlast].
  exists first, lst. unfold item_last. rewrite Hlast.
  split; [done|]. split; [done|]. split; [|split].
  - intros t. rewrite Ho, elem_of_opens_at, Hsp. simpl. split.
    + by intros [[= ->] _].
    + by intros ->.
  - intros t. rewrite Hc, elem_of_closes_at, Hsp, Hlast. split.
    + by intros [[= ->] _].
    + by intros ->.
  - intros positions Hpos Hsorted.
    destruct (positions_mapped _ _ _ Hpos) as [Hall Hmapped].
    destruct (positions_last _ _ _ _ Hpos Hlast) as (hi & Hhi & Hlst).
    destruct positions as [|lo ps]; [by inversion Hpos|].
    apply Forall2_cons_1 in Hpos as [Hfirst _].
    exists lo, hi. split; [done|]. split; [done|].
    apply offsets_of_min_max; [done|..]; rewrite Hmapped.
    + split; [apply list_elem_of_here|].
      apply StronglySorted_inv in Hsorted as [_ Hlo]. constructor; [lia|done].
    + split; [by apply last_Some_elem_of|by apply sorted_last_max].
Qed.

Lemma anchors_first_last_witness :
  ∃ o c m2c,
    brackets.gen_bracket_mappings stadthalle = Ok (o, c, m2c)
    ∧ ("markable_21" ∈ default [] (o !! "w2")
       ∧ "markable_21" ∈ default [] (c !! "w4"))
    ∧ util.get_segment_token_offsets
        (brackets.span_tokens stadthalle "markable_21")
        (document_positions stadthalle) = Ok (1%Z, 3%Z).
Proof.
  destruct (brackets.gen_bracket_mappings stadthalle)
    as [[[o c] m2c]|e] eqn:Hg; [|vm_compute in Hg; discriminate].
  exists o, c, m2c. split; [reflexivity|].
  destruct (anchors_first_last stadthalle o c m2c "markable_21" Hg)
    as (first & lst & Hf & Hl & Ho & Hc & Hpos).
  - vm_compute. apply list_elem_of_here.
  - vm_compute in Hf. vm_compute in Hl.
    injection Hf as <-. injection Hl as <-.
    split; [split; [by apply Ho|by apply Hc]|].
    destruct (Hpos [1%Z; 2%Z; 3%Z]) as (lo & hi & Hlo & Hhi & Hoff).
    + repeat constructor.
    + repeat constructor; lia.
    + vm_compute in Hlo. vm_compute in Hhi.
      injection Hlo as <-. injection Hhi as <-. exact Hoff.
Defined.

(** C2 as stated fails: the markable of [backwards_span] resolves to
    [t2, t1]; it opens at [t2] and closes at [t1], not at the tokens of
    least and greatest position. *)
Lemma anchors_by_document_order_fails :
  ¬ anchors_by_document_order backwards_span.
Proof.
  intros H.
  destruct (brackets.gen_bracket_mappings backwards_span)
    as [[[o c] m2c]|e] eqn:Hg; [|vm_compute in Hg; discriminate].
  destruct (H o c m2c "m1" 0%Z 1%Z Hg) as (t_open & t_close & Ht & _ & Hin & _).
  - vm_compute. apply list_elem_of_here.
  - vm_compute. reflexivity.
  - vm_compute in Ht. injection Ht as <-.
    destruct (gen_bracket_mappings_spec _ _ _ _ Hg) as (Ho & _).
    rewrite Ho in Hin. vm_compute in Hin. by apply elem_of_nil in Hin.
Qed.

(** ** Strings *)

Lemma str_join_app (l1 l2 : list string) :
  str_join (l1 ++ l2) = str_join l1 +:+ str_join l2.
Proof.
  induction l1 as [|x l1 IH]; [done|].
  unfold str_join in *. cbn [app foldr]. by rewrite IH, append_assoc.
Qed.

(** ** [pop] *)

Lemma pop_snoc {A : Type} (l : list A) (x : A) : pop (l ++ [x]) = Ok (x, l).
Proof.
  induction l as [|y l IH]; [done|]. destruct l as [|z l]; [done|].
  change (pop ((y :: z :: l) ++ [x]))
    with ('(x0, r) ←' pop ((z :: l) ++ [x]); Ok (x0, y :: r)).
  by rewrite IH.
Qed.

Lemma pop_n_enough {A : Type} (n : nat) (l : list A) :
  n ≤ length l →
  pop_n n l = Ok (take n (reverse l), take (length l - n) l).
Proof.
  revert l. induction n as [|n IH]; intros l Hn.
  - simpl. rewrite Nat.sub_0_r. by rewrite firstn_all.
  - destruct l as [|x l _] using rev_ind; [simpl in Hn; lia|].
    rewrite length_app in Hn |- *. simpl in Hn.
    cbn [pop_n]. rewrite pop_snoc. cbn [rbind].
    rewrite IH by lia. cbn [rbind]. rewrite reverse_app. simpl.
    do 2 f_equal. rewrite take_app_le by lia. f_equal. simpl. lia.
Qed.

Lemma pop_n_short {A : Type} (n : nat) (l : list A) :
  length l < n → pop_n n l = Raise IndexError.
Proof.
  revert l. induction n as [|n IH]; intros l Hn; [lia|].
  destruct l as [|x l _] using rev_ind; [done|].
  rewrite length_app in Hn. simpl in Hn.
  cbn [pop_n]. rewrite pop_snoc. cbn [rbind]. by rewrite IH by lia.
Qed.

(** ** brackets.py: one token *)

(** The four branches of the loop body do the same thing: a token that
    is not a key of [opening] opens no markable, one that is not a key of
    [closing] closes none. *)
Lemma token_step_eq (d : brackets.DocGraph) (o c : gmap string (list string))
    (m2c : gmap string string) (ret : string) (stack : list string)
    (t : string) :
  brackets.token_step d o c m2c (ret, stack) t
  = ('(ids, stack') ←' pop_n (length (default [] (c !! t)))
                             (stack ++ default [] (o !! t));
     chain_ids ←' comprehension (getitem m2c) ids;
     Ok (ret +:+ str_repeat "[" (length (default [] (o !! t)))
             +:+ brackets.get_token d t
             +:+ str_join (brackets.closing_group <$> chain_ids) +:+ " ",
         stack')).
Proof.
  unfold brackets.token_step, brackets.gen_closing_string.
  destruct (o !! t) as [opens|] eqn:Ho; destruct (c !! t) as [closes|] eqn:Hc;
    cbn [default]; rewrite ?app_nil_r.
  - destruct (pop_n _ _) as [[ids stack']|]; [|done]. cbn [rbind].
    by destruct (comprehension _ _).
  - done.
  - destruct (pop_n _ _) as [[ids stack']|]; [|done]. cbn [rbind].
    by destruct (comprehension _ _).
  - done.
Qed.

Lemma str_repeat_render (n : nat) :
  str_repeat "[" n = render (replicate n EOpen).
Proof.
  induction n as [|n IH]; [done|]. cbn [str_repeat replicate].
  by rewrite IH.
Qed.

Lemma render_app (evs1 evs2 : list event) :
  render (evs1 ++ evs2) = render evs1 +:+ render evs2.
Proof. unfold render. by rewrite fmap_app, str_join_app. Qed.

Lemma render_closes (chain_ids : list string) :
  render (EClose <$> chain_ids)
  = str_join (brackets.closing_group <$> chain_ids).
Proof. unfold render. by rewrite <- list_fmap_compose. Qed.

Lemma render_text (s : string) : render [EText s] = s.
Proof. unfold render, str_join. simpl. apply append_nil_r. Qed.

Lemma render_token_events (n : nat) (token_str : string)
    (chain_ids : list string) :
  render (token_events n token_str chain_ids)
  = str_repeat "[" n +:+ token_str
      +:+ str_join (brackets.closing_group <$> chain_ids) +:+ " ".
Proof.
  unfold token_events.
  by rewrite !render_app, <- str_repeat_render, render_closes, !render_text.
Qed.

Lemma comprehension_getitem_Forall2 (d : gmap string string)
    (l : list string) :
  Forall (fun k => is_Some (d !! k)) l →
  ∃ vs, comprehension (getitem d) l = Ok vs
        ∧ Forall2 (fun k v => d !! k = Some v) l vs.
Proof.
  induction 1 as [|k l [v Hv] _ (vs & IH1 & IH2)].
  - exists []. by split.
  - exists (v :: vs). split; [|by constructor].
    cbn [comprehension]. unfold getitem at 1. by rewrite Hv, IH1.
Qed.

Lemma balance_opens (n k : nat) (evs : list event) :
  balance (replicate k EOpen ++ evs) n = balance evs (n + k).
Proof.
  revert n. induction k as [|k IH]; intros n; cbn [replicate app balance].
  - by rewrite Nat.add_0_r.
  - rewrite IH. f_equal. lia.
Qed.

Lemma balance_closes (n : nat) (chain_ids : list string) (evs : list event) :
  length chain_ids ≤ n →
  balance ((EClose <$> chain_ids) ++ evs) n
  = balance evs (n - length chain_ids).
Proof.
  revert n. induction chain_ids as [|x l IH]; intros n Hn.
  - simpl. by rewrite Nat.sub_0_r.
  - simpl in Hn. destruct n as [|n]; [lia|].
    cbn [fmap list_fmap app balance]. rewrite IH by lia. done.
Qed.

Lemma balance_token_events (n k : nat) (token_str : string)
    (chain_ids : list string) (evs : list event) :
  length chain_ids ≤ n + k →
  balance (token_events k token_str chain_ids ++ evs) n
  = balance evs (n + k - length chain_ids).
Proof.
  intros Hn. unfold token_events.
  rewrite <- !app_assoc, balance_opens. cbn [app balance].
  by rewrite balance_closes.
Qed.

Lemma bracket_free_blank : bracket_free " ".
Proof. by split. Qed.

Section Scan.
Context (d : brackets.DocGraph) (o c : gmap string (list string))
        (m2c : gmap string string).
Hypothesis Hg : brackets.gen_bracket_mappings d = Ok (o, c, m2c).

(** Every markable on the stack has a chain. *)
Let known (stack : list string) : Prop :=
  Forall (fun m => is_Some (m2c !! m)) stack.

Let opens (t : string) : list string := default [] (o !! t).
Let closes (t : string) : list string := default [] (c !! t).

Lemma opens_known (t : string) : known (opens t).
Proof.
  destruct (gen_bracket_mappings_spec _ _ _ _ Hg)
    as (Ho & _ & _ & _ & _ & Hdom & _).
  unfold known, opens. rewrite Ho. apply Forall_forall.
  intros m [_ Hm]%elem_of_opens_at. by apply Hdom.
Qed.

Lemma token_step_enough (ret : string) (stack : list string) (t : string) :
  known stack →
  length (closes t) ≤ length (stack ++ opens t) →
  ∃ chain_ids,
    Forall2 (fun m chain_id => m2c !! m = Some chain_id)
            (take (length (closes t)) (reverse (stack ++ opens t)))
            chain_ids
    ∧ brackets.token_step d o c m2c (ret, stack) t
      = Ok (ret +:+ render (token_events (length (opens t))
                              (brackets.get_token d t) chain_ids),
            take (length (stack ++ opens t) - length (closes t))
                 (stack ++ opens t)).
Proof.
  intros Hk Hlen. rewrite token_step_eq.
  fold (opens t) (closes t). rewrite pop_n_enough by done. cbn [rbind].
  destruct (comprehension_getitem_Forall2 m2c
              (take (length (closes t)) (reverse (stack ++ opens t))))
    as (chain_ids & -> & HF).
  { apply Forall_take, Forall_reverse, Forall_app. split; [done|].
    apply opens_known. }
  exists chain_ids. split; [done|]. cbn [rbind].
  by rewrite render_token_events.
Qed.

Lemma token_step_short (ret : string) (stack : list string) (t : string) :
  length (stack ++ opens t) < length (closes t) →
  brackets.token_step d o c m2c (ret, stack) t = Raise IndexError.
Proof.
  intros Hlen. rewrite token_step_eq.
  fold (opens t) (closes t). by rewrite pop_n_short.
Qed.

Lemma scan_snoc (st : string * list string) (pre : list string)
    (t : string) :
  brackets.scan d o c m2c st (pre ++ [t])
  = (st' ←' brackets.scan d o c m2c st pre;
     brackets.token_step d o c m2c st' t).
Proof.
  unfold brackets.scan. rewrite for_each_app.
  destruct (for_each _ st pre) as [st'|]; [|done]. cbn [rbind for_each].
  by destruct (brackets.token_step d o c m2c st' t).
Qed.

(** A token that finds the stack too short stops the loop. *)
Lemma scan_underflow (st : string * list string) (pre post : list string)
    (t ret : string) (stack : list string) :
  brackets.scan d o c m2c st pre = Ok (ret, stack) →
  length stack + length (opens t) < length (closes t) →
  brackets.scan d o c m2c st (pre ++ t :: post) = Raise IndexError.
Proof.
  intros Hpre Hlen. unfold brackets.scan in *.
  rewrite for_each_app, Hpre. cbn [rbind for_each].
  rewrite token_step_short; [done|]. rewrite length_app. done.
Qed.

(** What a completed loop has done. *)
Lemma scan_Ok_inv (l : list string) (ret ret' : string)
    (stack stack' : list string) :
  known stack →
  brackets.scan d o c m2c (ret, stack) l = Ok (ret', stack') →
  known stack'
  ∧ length stack' + sum_list_with (fun t => length (closes t)) l
    = length stack + sum_list_with (fun t => length (opens t)) l
  ∧ ∃ evs,
      ret' = ret +:+ render evs
      ∧ balance evs (length stack) = Some (length stack')
      ∧ (Forall (fun t => bracket_free (brackets.get_token d t)) l →
         (∀ m chain_id, m2c !! m = Some chain_id → bracket_free chain_id) →
         Forall clean_event evs).
Proof.
  revert ret stack. induction l as [|t l IH]; intros ret stack Hk.
  - intros [= <- <-]. split; [done|]. split; [done|].
    exists []. by rewrite append_nil_r.
  - unfold brackets.scan. cbn [for_each]. fold (brackets.scan d o c m2c).
    destruct (le_lt_dec (length (closes t)) (length (stack ++ opens t)))
      as [Hle|Hlt]; [|by rewrite token_step_short].
    destruct (token_step_enough ret stack t Hk Hle) as (cids & HF & ->).
    cbn [rbind]. intros Hrest.
    apply IH in Hrest as (Hk' & Hsum & evs & -> & Hbal & Hclean).
    2:{ apply Forall_take, Forall_app. split; [done|apply opens_known]. }
    split; [done|]. split.
    { cbn [sum_list_with]. rewrite length_take, length_app in Hsum.
      rewrite length_app in Hle. lia. }
    exists (token_events (length (opens t)) (brackets.get_token d t) cids
            ++ evs).
    split; [by rewrite render_app, append_assoc|]. split.
    + rewrite balance_token_events.
      * rewrite length_take, length_app in Hbal.
        apply Forall2_length in HF.
        rewrite length_take, length_reverse, length_app in HF.
        rewrite length_app in Hle.
        rewrite <- Hbal. f_equal. lia.
      * apply Forall2_length in HF.
        rewrite length_take, length_reverse, length_app in HF.
        rewrite length_app in Hle. lia.
    + intros Htok Hcid. apply Forall_cons in Htok as [Ht Htok].
      apply Forall_app. split; [|by apply Hclean].
      unfold token_events. rewrite !Forall_app. repeat split.
      * apply Forall_forall. by intros e [-> _]%elem_of_replicate.
      * by constructor.
      * apply Forall_fmap, Forall_forall. intros cid Hin.
        apply list_elem_of_lookup in Hin as [i Hi].
        destruct (Forall2_lookup_r _ _ _ _ _ HF Hi) as (m & _ & Hm).
        by apply (Hcid m).
      * constructor; [apply bracket_free_blank|constructor].
Qed.

(** A loop that raises was stopped by a token that found the stack too
    short. *)
Lemma scan_Raise_inv (l : list string) (ret : string)
    (stack : list string) (e : exn) :
  known stack →
  brackets.scan d o c m2c (ret, stack) l = Raise e →
  e = IndexError
  ∧ ∃ pre t post ret1 stack1,
      l = pre ++ t :: post
      ∧ brackets.scan d o c m2c (ret, stack) pre = Ok (ret1, stack1)
      ∧ length stack1 + length (opens t) < length (closes t).
Proof.
  revert ret stack. induction l as [|t l IH]; intros ret stack Hk; [done|].
  unfold brackets.scan. cbn [for_each]. fold (brackets.scan d o c m2c).
  destruct (le_lt_dec (length (closes t)) (length (stack ++ opens t)))
    as [Hle|Hlt].
  - destruct (token_step_enough ret stack t Hk Hle) as (cids & HF & Hstep).
    rewrite Hstep. cbn [rbind]. intros Hrest.
    apply IH in Hrest as (-> & pre & t' & post & ret1 & stack1 & -> & Hpre & Hlt).
    2:{ apply Forall_take, Forall_app. split; [done|apply opens_known]. }
    split; [done|]. exists (t :: pre), t', post, ret1, stack1.
    split; [done|]. split; [|done].
    unfold brackets.scan. cbn [for_each]. by rewrite Hstep.
  - rewrite token_step_short by done. intros [= <-]. split; [done|].
    exists [], t, l, ret, stack. rewrite length_app in Hlt. by repeat split.
Qed.

Lemma gen_bracketed_output_eq :
  brackets.gen_bracketed_output d
  = ('(ret, stack) ←'
       brackets.scan d o c m2c (EmptyString, []) (brackets.tokens d);
     Ok ret).
Proof. unfold brackets.gen_bracketed_output. by rewrite Hg. Qed.

Lemma output_cases :
  (brackets.gen_bracketed_output d = Raise IndexError ∧ underflow d o c m2c)
  ∨ (¬ underflow d o c m2c
     ∧ ∃ ret stack,
         brackets.scan d o c m2c (EmptyString, []) (brackets.tokens d)
         = Ok (ret, stack)
         ∧ brackets.gen_bracketed_output d = Ok ret).
Proof.
  rewrite gen_bracketed_output_eq.
  destruct (brackets.scan d o c m2c (EmptyString, []) (brackets.tokens d))
    as [[ret stack]|e] eqn:Hscan.
  - right. split; [|by exists ret, stack].
    intros (pre & t & post & ret1 & stack1 & Htok & Hpre & Hlt).
    rewrite Htok in Hscan.
    by rewrite (scan_underflow _ _ _ _ _ _ Hpre Hlt) in Hscan.
  - left. apply scan_Raise_inv in Hscan as (-> & H); [|by constructor].
    split; [done|]. destruct H as (pre & t & post & ret1 & stack1 & H).
    by exists pre, t, post, ret1, stack1.
Qed.
End Scan.

(** ** brackets.py: unbalanced spans *)

(** C1, as the code has it.  Rendering raises in two cases only.  The
    first: [gen_bracket_mappings] raises, which it does exactly when a
    chain is empty or a markable of the chains has a span attribute that
    cannot be read or a span without tokens; the [IndexError] or
    [KeyError] is passed on.  The second: the mappings are built and some
    token closes more markables than are on the stack once its own
    openings are pushed; what is raised then is the [IndexError] of
    [pop].  In every other case the string the loop has built is
    returned, whatever is left on the stack. *)
Theorem gen_bracketed_output_raises (d : brackets.DocGraph) :
  ((∃ e, brackets.gen_bracketed_output d = Raise e)
   ↔ (∃ e, brackets.gen_bracket_mappings d = Raise e)
     ∨ ∃ o c m2c, brackets.gen_bracket_mappings d = Ok (o, c, m2c)
                  ∧ underflow d o c m2c)
  ∧ ((∃ e, brackets.gen_bracket_mappings d = Raise e)
     ↔ Exists (fun chain => chain = []) (brackets.pointing_chains d)
       ∨ Exists (fun m =>
                   brackets.span_attr d m = Raise KeyError
                   ∨ ∃ span, brackets.span_attr d m = Ok span
                             ∧ brackets.spanstring2tokens d span = [])
                (chain (brackets.pointing_chains d)))
  ∧ (∀ e, brackets.gen_bracket_mappings d = Raise e →
          brackets.gen_bracketed_output d = Raise e
          ∧ (e = IndexError ∨ e = KeyError))
  ∧ (∀ o c m2c,
       brackets.gen_bracket_mappings d = Ok (o, c, m2c) →
       (brackets.gen_bracketed_output d = Raise IndexError
        ↔ underflow d o c m2c)
       ∧ (∀ e, brackets.gen_bracketed_output d = Raise e → e = IndexError)
       ∧ (∀ ret stack,
            brackets.scan d o c m2c (EmptyString, []) (brackets.tokens d)
            = Ok (ret, stack) →
            brackets.gen_bracketed_output d = Ok ret)).
Proof.
  assert (Hpass : ∀ e, brackets.gen_bracket_mappings d = Raise e →
                       brackets.gen_bracketed_output d = Raise e).
  { intros e He. unfold brackets.gen_bracketed_output. by rewrite He. }
  assert (Hbuilt : ∀ o c m2c,
    brackets.gen_bracket_mappings d = Ok (o, c, m2c) →
    (brackets.gen_bracketed_output d = Raise IndexError ↔ underflow d o c m2c)
    ∧ (∀ e, brackets.gen_bracketed_output d = Raise e → e = IndexError)
    ∧ (∀ ret stack,
         brackets.scan d o c m2c (EmptyString, []) (brackets.tokens d)
         = Ok (ret, stack) →
         brackets.gen_bracketed_output d = Ok ret)).
  { intros o c m2c Hg. split; [|split].
    - destruct (output_cases d o c m2c Hg)
        as [[H1 H2]|(H1 & ret & stack & _ & H2)].
      + by split.
      + split; [|done]. by rewrite H2.
    - intros e He.
      destruct (output_cases d o c m2c Hg)
        as [[H1 _]|(_ & ret & stack & _ & H2)]; congruence.
    - intros ret stack Hscan.
      by rewrite (gen_bracketed_output_eq d o c m2c Hg), Hscan. }
  destruct (gen_bracket_mappings_raise d) as [Hiff Hkind].
  split; [|split; [|split; [|done]]].
  - split.
    + intros [e He].
      destruct (brackets.gen_bracket_mappings d) as [[[o c] m2c]|e'] eqn:Hg.
      * right. exists o, c, m2c. split; [done|].
        destruct (Hbuilt o c m2c eq_refl) as (Hunder & Honly & _).
        apply Hunder. by rewrite He, (Honly e He).
      * left. by exists e'.
    + intros [[e He]|(o & c & m2c & Hg & Hunder)].
      * exists e. by apply Hpass.
      * exists IndexError. by apply (Hbuilt o c m2c Hg).
  - rewrite Hiff. f_equiv. rewrite !Exists_exists.
    by setoid_rewrite span_tokens_nil.
  - intros e He. split; [by apply Hpass|by apply Hkind].
Qed.

(** C1 as stated fails.  In [closes_before_opening] the markable [m2]
    closes at [t1] and opens at [t2]; the closing group written at [t1]
    pops [m1] and a string is returned.  In [left_open] the markable is
    still on the stack when the loop ends, and a string is returned. *)
Lemma unbalanced_not_reported :
  ¬ reports_unbalanced closes_before_opening ∧ ¬ reports_unbalanced left_open.
Proof.
  split.
  - intros H. destruct H as [e He].
    + left. exists "m2", 2, 1. split; [|split].
      * vm_compute. apply list_elem_of_further, list_elem_of_here.
      * reflexivity.
      * lia.
    + vm_compute in He. discriminate.
  - intros H. destruct H as [e He].
    + right. eexists _, _, _, _, _. split; [|split].
      * vm_compute. reflexivity.
      * vm_compute. reflexivity.
      * discriminate.
    + vm_compute in He. discriminate.
Qed.

Example closes_before_opening_output :
  brackets.gen_bracketed_output closes_before_opening
  = Ok "[t0 t1]_{m1} [t2 t3]_{m2} ".
Proof. vm_compute. reflexivity. Qed.

Example left_open_output :
  brackets.gen_bracketed_output left_open = Ok "[t0 ".
Proof. vm_compute. reflexivity. Qed.

(** ** brackets.py: closing groups *)

(** C7.  Take a token [t] of the document and the state ([ret], [stack])
    the loop has reached before it.  If the stack, with the markables [t]
    opens pushed, holds at least the [M] markables that [t] closes, the
    loop appends to [ret] the opening brackets, the token string, then [M]
    closing groups and a blank.  The groups carry the chain ids of the
    [M] topmost markables of the stack, the topmost first, and these [M]
    markables are removed from the stack.  The string rendering returns
    continues the string so extended. *)
Theorem closing_groups_lifo (d : brackets.DocGraph)
    (o c : gmap string (list string)) (m2c : gmap string string)
    (pre post : list string) (t ret : string) (stack : list string) :
  brackets.gen_bracket_mappings d = Ok (o, c, m2c) →
  brackets.tokens d = pre ++ t :: post →
  brackets.scan d o c m2c (EmptyString, []) pre = Ok (ret, stack) →
  length (default [] (c !! t)) ≤ length (stack ++ default [] (o !! t)) →
  ∃ chain_ids,
    length chain_ids = length (default [] (c !! t))
    ∧ Forall2 (fun m chain_id => m2c !! m = Some chain_id)
              (take (length (default [] (c !! t)))
                    (reverse (stack ++ default [] (o !! t))))
              chain_ids
    ∧ brackets.scan d o c m2c (EmptyString, []) (pre ++ [t])
      = Ok (ret +:+ str_repeat "[" (length (default [] (o !! t)))
                +:+ brackets.get_token d t
                +:+ str_join (brackets.closing_group <$> chain_ids) +:+ " ",
            take (length (stack ++ default [] (o !! t))
                  - length (default [] (c !! t)))
                 (stack ++ default [] (o !! t)))
    ∧ ∀ s, brackets.gen_bracketed_output d = Ok s →
           ∃ rest,
             s = (ret +:+ str_repeat "[" (length (default [] (o !! t)))
                      +:+ brackets.get_token d t
                      +:+ str_join (brackets.closing_group <$> chain_ids)
                      +:+ " ") +:+ rest.
Proof.
  intros Hg Htok Hpre Hle.
  destruct (scan_Ok_inv d o c m2c Hg pre EmptyString ret [] stack)
    as (Hk & _); [by constructor|done|].
  destruct (token_step_enough d o c m2c Hg ret stack t Hk Hle)
    as (cids & HF & Hstep).
  rewrite render_token_events in Hstep.
  assert (brackets.scan d o c m2c (EmptyString, []) (pre ++ [t])
          = Ok (ret +:+ str_repeat "[" (length (default [] (o !! t)))
                    +:+ brackets.get_token d t
                    +:+ str_join (brackets.closing_group <$> cids) +:+ " ",
                take (length (stack ++ default [] (o !! t))
                      - length (default [] (c !! t)))
                     (stack ++ default [] (o !! t)))) as Hsnoc.
  { by rewrite scan_snoc, Hpre. }
  exists cids. split; [|split; [done|split; [done|]]].
  - apply Forall2_length in HF. rewrite length_take, length_reverse in HF. lia.
  - intros s Hs. rewrite (gen_bracketed_output_eq d o c m2c Hg) in Hs.
    rewrite Htok in Hs.
    replace (pre ++ t :: post) with ((pre ++ [t]) ++ post) in Hs
      by by rewrite <- app_assoc.
    unfold brackets.scan in Hs, Hsnoc. rewrite for_each_app, Hsnoc in Hs.
    cbn [rbind] in Hs.
    destruct (for_each _ _ post) as [[ret' stack']|] eqn:Hpost; [|done].
    cbn [rbind] in Hs. injection Hs as <-.
    apply (scan_Ok_inv d o c m2c Hg) in Hpost as (_ & _ & evs & -> & _).
    + by exists (render evs).
    + apply Forall_take, Forall_app. split; [done|].
      apply (opens_known d o c m2c Hg).
Qed.

Lemma closing_groups_lifo_witness :
  ∃ o c m2c,
    brackets.gen_bracket_mappings stadthalle = Ok (o, c, m2c)
    ∧ brackets.scan stadthalle o c m2c (EmptyString, []) ["w1"; "w2"; "w3"]
      = Ok ("teuer [die [Wittstocker]_{markable_22} ", ["markable_21"]).
Proof.
  eexists _, _, _. split; [vm_compute; reflexivity|].
  match goal with
  | |- brackets.scan _ ?o ?c ?m2c _ _ = _ =>
      destruct (closing_groups_lifo stadthalle o c m2c ["w1"; "w2"] ["w4"; "w5"]
                  "w3" "teuer [die " ["markable_21"])
        as (cids & Hlen & HF & Hscan & _)
  end.
  - vm_compute. reflexivity.
  - reflexivity.
  - vm_compute. reflexivity.
  - vm_compute. lia.
  - vm_compute in HF.
    apply Forall2_cons_inv_l in HF as (cid & cids' & Hcid & HF & ->).
    apply Forall2_nil_inv_l in HF as ->. injection Hcid as <-.
    exact Hscan.
Defined.

(** ** Counting in strings *)

Lemma count_char_app (x : ascii) (a b : string) :
  count_char x (a +:+ b) = count_char x a + count_char x b.
Proof.
  induction a as [|y a IH]; [done|].
  rewrite append_cons. cbn [count_char]. rewrite IH. lia.
Qed.

Lemma count_char_zero_cons (x y : ascii) (a : string) :
  count_char x (String y a) = 0 → y ≠ x ∧ count_char x a = 0.
Proof.
  cbn [count_char]. destruct (Ascii.eqb y x) eqn:E; [lia|].
  apply Ascii.eqb_neq in E. by split; [|lia].
Qed.

Lemma count_sub_other (x : ascii) (s : string) :
  x ≠ "]"%char →
  count_sub "]_{" (String x s) = count_sub "]_{" s.
Proof.
  intros Hx. cbn [count_sub String.prefix].
  destruct (ascii_dec "]" x) as [E|_]; [by subst|done].
Qed.

(** A closing group starts with the only character that is not allowed
    elsewhere, so text without it hides no group. *)
Lemma count_sub_skip (a b : string) :
  count_char "]" a = 0 → count_sub "]_{" (a +:+ b) = count_sub "]_{" b.
Proof.
  induction a as [|x a IH]; [done|].
  intros [Hx Ha]%count_char_zero_cons.
  rewrite append_cons, count_sub_other by done. by apply IH.
Qed.

Lemma closing_group_eq (chain_id b : string) :
  brackets.closing_group chain_id +:+ b
  = String "]" (String "_" (String "{" ((chain_id +:+ "}") +:+ b))).
Proof.
  unfold brackets.closing_group.
  by rewrite !append_cons, append_nil_l, !append_assoc.
Qed.

Lemma count_sub_group (chain_id b : string) :
  count_char "]" chain_id = 0 →
  count_sub "]_{" (brackets.closing_group chain_id +:+ b)
  = S (count_sub "]_{" b).
Proof.
  intros Hc. rewrite closing_group_eq.
  transitivity
    (1 + count_sub "]_{" (String "_" (String "{" ((chain_id +:+ "}") +:+ b)))).
  { cbn [count_sub]. f_equal. by destruct ((chain_id +:+ "}") +:+ b). }
  rewrite !count_sub_other by done. cbn [Nat.add]. f_equal.
  rewrite count_sub_skip; [done|].
  rewrite count_char_app, Hc. done.
Qed.

Lemma count_char_group (chain_id : string) :
  count_char "[" (brackets.closing_group chain_id) = count_char "[" chain_id.
Proof.
  unfold brackets.closing_group. rewrite !count_char_app. simpl. lia.
Qed.

(** Text without a closing bracket is passed whole before the next one. *)
Lemma split_before_bracket (a r p q : string) :
  count_char "]" a = 0 →
  a +:+ r = p +:+ String "]" q →
  ∃ p', p = a +:+ p' ∧ r = p' +:+ String "]" q.
Proof.
  revert p. induction a as [|x a IH]; intros p Ha E.
  - exists p. by rewrite !append_nil_l in *.
  - apply count_char_zero_cons in Ha as [Hx Ha].
    destruct p as [|y p].
    + rewrite append_cons, append_nil_l in E. by injection E as -> _.
    + rewrite !append_cons in E. injection E as -> E.
      destruct (IH _ Ha E) as (p' & -> & ->). by exists p'.
Qed.

(** ** Rendered events *)

Lemma render_cons (e : event) (evs : list event) :
  render (e :: evs) = render_event e +:+ render evs.
Proof. done. Qed.

Lemma count_open_render (evs : list event) :
  Forall clean_event evs →
  count_char "[" (render evs) = length (filter is_open evs).
Proof.
  induction 1 as [|e evs He _ IH]; [done|].
  rewrite render_cons, count_char_app, IH, filter_cons.
  destruct e as [|s|cid]; cbn [render_event clean_event] in *.
  - done.
  - by destruct He as [-> _].
  - rewrite count_char_group. by destruct He as [-> _].
Qed.

Lemma count_close_render (evs : list event) :
  Forall clean_event evs →
  count_sub "]_{" (render evs) = length (filter is_close evs).
Proof.
  induction 1 as [|e evs He _ IH]; [done|].
  rewrite render_cons, filter_cons.
  destruct e as [|s|cid]; cbn [render_event clean_event] in *.
  - by rewrite count_sub_skip.
  - destruct He as [_ He]. by rewrite count_sub_skip.
  - destruct He as [_ He]. by rewrite count_sub_group, IH.
Qed.

Lemma render_split (evs : list event) (p q : string) :
  Forall clean_event evs →
  render evs = p +:+ String "]" q →
  ∃ pre chain_id post, evs = pre ++ EClose chain_id :: post ∧ p = render pre.
Proof.
  intros Hclean. revert p.
  induction Hclean as [|e evs He _ IH]; intros p E.
  - by destruct p.
  - rewrite render_cons in E.
    destruct e as [|s|cid]; cbn [render_event clean_event] in E, He.
    + apply split_before_bracket in E as (p' & -> & E); [|done].
      destruct (IH _ E) as (pre & cid & post & -> & ->).
      by exists (EOpen :: pre), cid, post.
    + destruct He as [_ He].
      apply split_before_bracket in E as (p' & -> & E); [|done].
      destruct (IH _ E) as (pre & cid & post & -> & ->).
      by exists (EText s :: pre), cid, post.
    + destruct p as [|y p].
      { by exists [], cid, evs. }
      rewrite closing_group_eq, append_cons in E. injection E as <- E.
      destruct He as [_ He].
      change (String "_" (String "{" ((cid +:+ "}") +:+ render evs)))
        with (("_{" +:+ cid +:+ "}") +:+ render evs) in E.
      apply split_before_bracket in E as (p' & -> & E).
      2:{ rewrite !count_char_app, He. done. }
      destruct (IH _ E) as (pre & cid' & post & -> & ->).
      exists (EClose cid :: pre), cid', post. split; [done|].
      rewrite render_cons. simpl. unfold brackets.closing_group.
      by rewrite !append_cons, append_nil_l, !append_assoc.
Qed.

(** ** Balance *)

Lemma balance_counts (evs : list event) (n k : nat) :
  balance evs n = Some k →
  length (filter is_open evs) + n = length (filter is_close evs) + k.
Proof.
  revert n. induction evs as [|e evs IH]; intros n.
  - intros [= ->]. done.
  - rewrite !filter_cons. destruct e as [|s|cid]; simpl.
    + intros H%IH. lia.
    + intros H%IH. lia.
    + destruct n as [|n]; [done|]. intros H%IH. lia.
Qed.

Lemma balance_app (evs1 evs2 : list event) (n : nat) :
  balance (evs1 ++ evs2) n = balance evs1 n ≫= balance evs2.
Proof.
  revert n. induction evs1 as [|e evs1 IH]; intros n; [done|].
  destruct e as [|s|cid]; simpl; try apply IH.
  destruct n; [done|apply IH].
Qed.

Lemma balance_before_close (pre post : list event) (chain_id : string)
    (n k : nat) :
  balance (pre ++ EClose chain_id :: post) n = Some k →
  length (filter is_close pre) < length (filter is_open pre) + n.
Proof.
  rewrite balance_app. destruct (balance pre n) as [j|] eqn:Hpre; [|done].
  simpl. destruct j as [|j]; [done|]. intros _.
  apply balance_counts in Hpre. lia.
Qed.

(** The rendering of events that balance is a balanced string. *)
Lemma balanced_render (evs : list event) :
  Forall clean_event evs →
  balance evs 0 = Some 0 →
  balanced_string (render evs).
Proof.
  intros Hclean Hbal. split.
  - rewrite count_open_render, count_close_render by done.
    apply balance_counts in Hbal. lia.
  - intros p q E.
    change (p +:+ "]_{" +:+ q) with (p +:+ String "]" ("_{" +:+ q)) in E.
    destruct (render_split _ _ _ Hclean E) as (pre & cid & post & -> & ->).
    apply Forall_app in Hclean as [Hpre _].
    rewrite count_open_render, count_close_render by done.
    apply balance_before_close in Hbal. lia.
Qed.

(** ** Counting opened and closed markables *)

Lemma sum_list_with_add {A : Type} (f g : A → nat) (l : list A) :
  sum_list_with (fun x => f x + g x) l
  = sum_list_with f l + sum_list_with g l.
Proof. induction l as [|x l IH]; simpl; lia. Qed.

Lemma sum_list_with_le {A : Type} (f g : A → nat) (l : list A) :
  Forall (fun x => f x ≤ g x) l → sum_list_with f l ≤ sum_list_with g l.
Proof. induction 1; simpl; lia. Qed.

Lemma sum_list_with_ext_in {A : Type} (f g : A → nat) (l : list A) :
  (∀ x, x ∈ l → f x = g x) → sum_list_with f l = sum_list_with g l.
Proof.
  induction l as [|x l IH]; intros Hfg; [done|]. simpl.
  rewrite IH, (Hfg x); [done|apply list_elem_of_here|].
  intros y Hy. by apply Hfg, list_elem_of_further.
Qed.

Lemma sum_list_with_filter {A : Type} (P : A → Prop)
    `{∀ x, Decision (P x)} (l : list A) :
  sum_list_with (fun x => if decide (P x) then 1 else 0) l
  = length (filter P l).
Proof.
  induction l as [|x l IH]; [done|].
  rewrite filter_cons. simpl. case_decide; simpl; lia.
Qed.

(** Counting, token by token, the markables anchored there is counting,
    markable by markable, the tokens it is anchored at. *)
Lemma sum_filter_exchange (f : string → option string)
    (ms P : list string) :
  sum_list_with (fun t => length (filter (fun m => f m = Some t) ms)) P
  = sum_list_with (fun m => length (filter (fun t => f m = Some t) P)) ms.
Proof.
  induction ms as [|m ms IH].
  - simpl. induction P as [|t P IHP]; simpl; [done|]. by rewrite IHP.
  - cbn [sum_list_with]. rewrite <- IH, <- sum_list_with_filter.
    rewrite <- sum_list_with_add. clear IH.
    induction P as [|t P IHP]; [done|].
    cbn [sum_list_with]. rewrite IHP. f_equal.
    rewrite filter_cons. case_decide; simpl; lia.
Qed.

Lemma length_filter_NoDup (P : list string) (t0 : string) :
  NoDup P →
  length (filter (fun t => Some t0 = Some t) P)
  = if decide (t0 ∈ P) then 1 else 0.
Proof.
  induction 1 as [|t P Hni Hnd IH].
  - rewrite decide_False; [done|]. apply not_elem_of_nil.
  - rewrite filter_cons. destruct (decide (Some t0 = Some t)) as [[= ->]|Hne].
    + simpl. rewrite IH, decide_False by done.
      rewrite decide_True; [done|apply list_elem_of_here].
    + rewrite IH. destruct (decide (t0 ∈ P)) as [Hin|Hno].
      * rewrite decide_True; [done|by apply list_elem_of_further].
      * rewrite decide_False; [done|].
        intros [->|?]%elem_of_cons; done.
Qed.

Lemma position_Some (d : brackets.DocGraph) (t : string) (i : nat) :
  position d t = Some i → brackets.tokens d !! i = Some t.
Proof.
  unfold position.
  destruct (list_find _ _) as [[i' t']|] eqn:Hfind; [|done].
  intros [= <-]. apply list_find_Some in Hfind as (Hi & -> & _). done.
Qed.

Section WellNested.
Context (d : brackets.DocGraph).
Hypothesis Hwn : well_nested d.

Lemma well_nested_span (m : string) :
  m ∈ brackets.sorted_markables d →
  ∃ first lst i j,
    head (brackets.span_tokens d m) = Some first
    ∧ last (brackets.span_tokens d m) = Some lst
    ∧ brackets.tokens d !! i = Some first
    ∧ brackets.tokens d !! j = Some lst
    ∧ i ≤ j.
Proof.
  intros Hm. destruct Hwn as (_ & _ & Hsp & _).
  rewrite Forall_forall in Hsp. specialize (Hsp _ Hm).
  unfold span_positions in Hsp.
  destruct (head _) as [first|]; [|done].
  destruct (last _) as [lst|]; [|done]. cbn [mbind option_bind] in Hsp.
  destruct (position d first) as [i|] eqn:Hi; [|done].
  destruct (position d lst) as [j|] eqn:Hj; [|done].
  cbn [mbind option_bind] in Hsp.
  exists first, lst, i, j. repeat split; try done; by apply position_Some.
Qed.

(** In a prefix of the document, no markable is closed more often than
    it is opened. *)
Lemma prefix_closed_le_opened (P rest : list string) :
  brackets.tokens d = P ++ rest →
  sum_list_with (fun t => length (closes_at d t)) P
  ≤ sum_list_with (fun t => length (opens_at d t)) P.
Proof.
  intros Htok. unfold closes_at, opens_at.
  rewrite !sum_filter_exchange. apply sum_list_with_le, Forall_forall.
  intros m Hm.
  destruct (well_nested_span m Hm) as (first & lst & i & j & -> & -> & Hi & Hj & Hij).
  destruct Hwn as (Hnd & _).
  assert (NoDup P) as HndP.
  { rewrite Htok in Hnd. by apply NoDup_app in Hnd as [? _]. }
  rewrite !length_filter_NoDup by done.
  destruct (decide (lst ∈ P)) as [Hin|_]; [|lia].
  rewrite decide_True; [done|].
  apply list_elem_of_lookup in Hin as [k Hk].
  assert (brackets.tokens d !! k = Some lst) as Hk'.
  { rewrite Htok. by apply lookup_app_l_Some. }
  assert (k = j) as -> by apply (NoDup_lookup _ _ _ _ Hnd Hk' Hj).
  apply lookup_lt_Some in Hk.
  apply list_elem_of_lookup. exists i.
  rewrite Htok, lookup_app_l in Hi by lia. done.
Qed.

(** Over the whole document, every markable is opened once and closed
    once. *)
Lemma document_closed_eq_opened :
  sum_list_with (fun t => length (closes_at d t)) (brackets.tokens d)
  = sum_list_with (fun t => length (opens_at d t)) (brackets.tokens d).
Proof.
  unfold closes_at, opens_at. rewrite !sum_filter_exchange.
  apply sum_list_with_ext_in. intros m Hm.
  destruct (well_nested_span m Hm)
    as (first & lst & i & j & -> & -> & Hi & Hj & _).
  destruct Hwn as (Hnd & _). rewrite !length_filter_NoDup by done.
  rewrite !decide_True; [done|..].
  - apply list_elem_of_lookup. by exists i.
  - apply list_elem_of_lookup. by exists j.
Qed.
End WellNested.

(** ** brackets.py: balanced output *)

Lemma chain_ids_bracket_free (d : brackets.DocGraph)
    (o c : gmap string (list string)) (m2c : gmap string string) :
  brackets.gen_bracket_mappings d = Ok (o, c, m2c) →
  bracket_free_doc d →
  ∀ m chain_id, m2c !! m = Some chain_id → bracket_free chain_id.
Proof.
  intros Hg [_ Hfree] m cid Hm.
  destruct (gen_bracket_mappings_spec _ _ _ _ Hg) as (_ & _ & _ & _ & _ & _ & Hid).
  destruct (Hid _ _ Hm) as (ch & Hch & _ & Hhead).
  rewrite Forall_forall in Hfree. specialize (Hfree _ Hch).
  rewrite Forall_forall in Hfree. apply Hfree.
  apply head_Some in Hhead as [ch' ->]. apply list_elem_of_here.
Qed.

Lemma well_nested_mappings (d : brackets.DocGraph) :
  well_nested d → ∃ o c m2c, brackets.gen_bracket_mappings d = Ok (o, c, m2c).
Proof.
  intros Hwn. apply gen_bracket_mappings_total.
  - by destruct Hwn as (_ & Hch & _).
  - apply Forall_forall. intros m Hm.
    destruct (well_nested_span d Hwn m Hm) as (first & _ & _ & _ & Hhead & _).
    intros E. by rewrite E in Hhead.
Qed.

Lemma well_nested_no_underflow (d : brackets.DocGraph)
    (o c : gmap string (list string)) (m2c : gmap string string) :
  brackets.gen_bracket_mappings d = Ok (o, c, m2c) →
  well_nested d →
  ¬ underflow d o c m2c.
Proof.
  intros Hg Hwn (pre & t & post & ret & stack & Htok & Hpre & Hlt).
  destruct (gen_bracket_mappings_spec _ _ _ _ Hg) as (Ho & Hc & _).
  apply (scan_Ok_inv d o c m2c Hg) in Hpre as (_ & Hsum & _); [|constructor].
  pose proof (prefix_closed_le_opened d Hwn (pre ++ [t]) post) as Hle.
  rewrite <- app_assoc in Hle. specialize (Hle Htok).
  rewrite !sum_list_with_app in Hle. cbn [sum_list_with] in Hle.
  rewrite (sum_list_with_ext_in _ (fun t => length (closes_at d t)))
    in Hsum by (intros; by rewrite Hc).
  rewrite (sum_list_with_ext_in
             (fun t => length (default [] (o !! t)))
             (fun t => length (opens_at d t)))
    in Hsum by (intros; by rewrite Ho).
  rewrite Ho, Hc in Hlt. simpl in Hsum. lia.
Qed.

(** ** Brackets and their markables *)

Lemma matched_app (a b : list mark) (open : list string) :
  matched (a ++ b) open = matched a open ≫= matched b.
Proof.
  revert open. induction a as [|k a IH]; intros open; [done|].
  destruct k as [m|s|m]; simpl; try apply IH.
  destruct open as [|m' open]; [done|].
  destruct (decide (m' = m)); [apply IH|done].
Qed.

Lemma matched_opens (l open : list string) :
  matched (MOpen <$> l) open = Some (reverse l ++ open).
Proof.
  revert open. induction l as [|m l IH]; intros open; [done|].
  simpl. rewrite IH, reverse_cons, <- app_assoc. done.
Qed.

Lemma matched_closes (ps open : list string) :
  matched (MClose <$> ps) (ps ++ open) = Some open.
Proof.
  induction ps as [|m ps IH]; [done|]. simpl.
  by rewrite decide_True.
Qed.

Lemma matched_token_marks (d : brackets.DocGraph) (t : string)
    (stack : list string) (n : nat) :
  n ≤ length (stack ++ opens_at d t) →
  matched (token_marks d t (take n (reverse (stack ++ opens_at d t))))
          (reverse stack)
  = Some (reverse (take (length (stack ++ opens_at d t) - n)
                        (stack ++ opens_at d t))).
Proof.
  intros Hn. unfold token_marks.
  rewrite matched_app, matched_opens. cbn [mbind option_bind].
  rewrite <- reverse_app. cbn [app matched].
  rewrite matched_app.
  rewrite <- (take_drop n (reverse (stack ++ opens_at d t))) at 2.
  rewrite matched_closes. cbn [mbind option_bind matched].
  by rewrite drop_reverse.
Qed.

Lemma written_as_opens (m2c : gmap string string) (l : list string) :
  Forall2 (written_as m2c) (MOpen <$> l) (replicate (length l) EOpen).
Proof. induction l as [|m l IH]; constructor; done. Qed.

Lemma written_as_closes (m2c : gmap string string)
    (ps chain_ids : list string) :
  Forall2 (fun m chain_id => m2c !! m = Some chain_id) ps chain_ids →
  Forall2 (written_as m2c) (MClose <$> ps) (EClose <$> chain_ids).
Proof. induction 1; constructor; done. Qed.

Lemma written_as_token (d : brackets.DocGraph) (m2c : gmap string string)
    (t : string) (ps chain_ids : list string) :
  Forall2 (fun m chain_id => m2c !! m = Some chain_id) ps chain_ids →
  Forall2 (written_as m2c) (token_marks d t ps)
          (token_events (length (opens_at d t)) (brackets.get_token d t)
                        chain_ids).
Proof.
  intros HF. unfold token_marks, token_events.
  apply Forall2_app; [apply written_as_opens|].
  apply Forall2_app; [by repeat constructor|].
  apply Forall2_app; [by apply written_as_closes|].
  by repeat constructor.
Qed.

(** What the loop writes and how its stack runs, told by marks. *)
Lemma scan_marks (d : brackets.DocGraph) (o c : gmap string (list string))
    (m2c : gmap string string) (l : list string) (ret ret' : string)
    (stack stack' : list string) :
  brackets.gen_bracket_mappings d = Ok (o, c, m2c) →
  Forall (fun m => is_Some (m2c !! m)) stack →
  brackets.scan d o c m2c (ret, stack) l = Ok (ret', stack') →
  ∃ popped evs,
    Forall2 (fun t ps => length ps = length (closes_at d t)) l popped
    ∧ Forall2 (written_as m2c) (marks_of d l popped) evs
    ∧ ret' = ret +:+ render evs
    ∧ matched (marks_of d l popped) (reverse stack) = Some (reverse stack').
Proof.
  intros Hg. destruct (gen_bracket_mappings_spec _ _ _ _ Hg)
    as (Ho & Hc & _).
  revert ret stack. induction l as [|t l IH]; intros ret stack Hk Hscan.
  - injection Hscan as <- <-. exists [], []. split; [constructor|].
    split; [constructor|]. split; [|done].
    unfold render. simpl. by rewrite append_nil_r.
  - unfold brackets.scan in Hscan. cbn [for_each] in Hscan.
    destruct (decide (length (default [] (c !! t))
                      ≤ length (stack ++ default [] (o !! t)))) as [Hle|Hgt].
    + destruct (token_step_enough d o c m2c Hg ret stack t Hk Hle)
        as (ids & HF & Hstep).
      rewrite Hstep in Hscan. cbn [rbind] in Hscan.
      rewrite !Ho, !Hc in HF, Hscan, Hle.
      apply IH in Hscan as (popped & evs & Hpopped & Hwritten & -> & Hm).
      * exists (take (length (closes_at d t))
                     (reverse (stack ++ opens_at d t)) :: popped),
               (token_events (length (opens_at d t))
                             (brackets.get_token d t) ids ++ evs).
        unfold marks_of in *. cbn [zip_with concat].
        split; [|split; [|split]].
        -- constructor; [|done].
           rewrite length_take, length_reverse. lia.
        -- apply Forall2_app; [by apply written_as_token|done].
        -- by rewrite render_app, append_assoc.
        -- rewrite matched_app, matched_token_marks by done.
           exact Hm.
      * apply Forall_take, Forall_app. split; [done|].
        rewrite <- Ho. apply (opens_known d o c m2c Hg).
    + rewrite (token_step_short d o c m2c) in Hscan by lia. done.
Qed.

Lemma matched_close_opened (marks pre post : list mark) (m : string)
    (open open' : list string) :
  matched marks open = Some open' →
  marks = pre ++ MClose m :: post →
  m ∈ open ∨ ∃ pre1 pre2, pre = pre1 ++ MOpen m :: pre2.
Proof.
  revert open pre. induction marks as [|k marks IH]; intros open pre Hm Heq.
  - by destruct pre.
  - destruct pre as [|k' pre].
    + injection Heq as -> ->. simpl in Hm.
      destruct open as [|m' open]; [done|].
      destruct (decide (m' = m)) as [->|]; [|done].
      left. apply list_elem_of_here.
    + injection Heq as <- ->.
      assert (Hstep : ∀ open1,
                matched (pre ++ MClose m :: post) open1 = Some open' →
                m ∈ open1 ∨ ∃ pre1 pre2, pre = pre1 ++ MOpen m :: pre2).
      { intros open1 H1. by apply (IH open1 pre). }
      destruct k as [m0|s|m0]; simpl in Hm.
      * destruct (Hstep _ Hm) as [Hin|(pre1 & pre2 & ->)].
        -- apply elem_of_cons in Hin as [->|Hin].
           ++ right. by exists [], pre.
           ++ by left.
        -- right. by exists (MOpen m0 :: pre1), pre2.
      * destruct (Hstep _ Hm) as [Hin|(pre1 & pre2 & ->)]; [by left|].
        right. by exists (MText s :: pre1), pre2.
      * destruct open as [|m' open]; [done|].
        destruct (decide (m' = m0)) as [->|]; [|done].
        destruct (Hstep _ Hm) as [Hin|(pre1 & pre2 & ->)].
        -- left. by apply list_elem_of_further.
        -- right. by exists (MClose m0 :: pre1), pre2.
Qed.

Lemma matched_balance (m2c : gmap string string) (marks : list mark)
    (evs : list event) (open open' : list string) :
  Forall2 (written_as m2c) marks evs →
  matched marks open = Some open' →
  balance evs (length open) = Some (length open').
Proof.
  intros HF. revert open. induction HF as [|k e marks evs Hke _ IH];
    intros open Hm.
  - by injection Hm as <-.
  - destruct k as [m|s|m], e as [|s'|cid]; try done; simpl in *.
    + by apply (IH (m :: open)).
    + by apply IH.
    + destruct open as [|m' open]; [done|].
      destruct (decide (m' = m)); [|done]. by apply IH.
Qed.

Lemma written_as_clean (m2c : gmap string string) (marks : list mark)
    (evs : list event) :
  Forall2 (written_as m2c) marks evs →
  Forall clean_mark marks →
  (∀ m chain_id, m2c !! m = Some chain_id → bracket_free chain_id) →
  Forall clean_event evs.
Proof.
  intros HF Hclean Hids.
  induction HF as [|k e marks evs Hke _ IH]; [constructor|].
  apply Forall_cons in Hclean as [Hk Hclean]. constructor; [|by apply IH].
  destruct k as [m|s|m], e as [|s'|cid]; try done; simpl in *.
  - by subst.
  - by apply (Hids m).
Qed.

Lemma marks_of_clean (d : brackets.DocGraph) (l : list string)
    (popped : list (list string)) :
  Forall (fun t => bracket_free (brackets.get_token d t)) l →
  Forall clean_mark (marks_of d l popped).
Proof.
  intros Hl. revert popped. induction Hl as [|t l Ht _ IH]; intros popped.
  - destruct popped; constructor.
  - destruct popped as [|ps popped]; [constructor|].
    unfold marks_of. cbn [zip_with concat]. apply Forall_app. split.
    + unfold token_marks.
      apply Forall_app; split; [by apply Forall_fmap, Forall_true|].
      apply Forall_app; split; [constructor; [exact Ht|constructor]|].
      apply Forall_app; split; [by apply Forall_fmap, Forall_true|].
      constructor; [apply bracket_free_blank|constructor].
    + apply IH.
Qed.

Lemma written_as_close (m2c : gmap string string) (marks : list mark)
    (evs : list event) (m : string) :
  Forall2 (written_as m2c) marks evs →
  MClose m ∈ marks →
  ∃ chain_id, m2c !! m = Some chain_id ∧ EClose chain_id ∈ evs.
Proof.
  induction 1 as [|k e marks evs Hke _ IH]; [by intros ?%elem_of_nil|].
  intros [<-|Hin]%elem_of_cons.
  - destruct e as [|s|cid]; try done. exists cid. split; [done|].
    apply list_elem_of_here.
  - destruct (IH Hin) as (cid & ? & ?). exists cid. split; [done|].
    by apply list_elem_of_further.
Qed.

(** C5, as the code has it.  For a document whose markables are
    well-nested and whose token strings and markable ids contain no
    bracket, rendering returns a string with as many ['['] as closing
    groups.  The string is what is written token by token: an opening
    bracket for every markable that opens at the token, the token string,
    as many closing groups as markables close at the token, and a blank.
    The brackets pair up by nesting, every closing group with the opening
    bracket of its own markable, so every closing group has the opening
    bracket of its markable before it, and the chain id it holds is the
    one of that markable: the first element of a chain of the markable. *)
Theorem balanced_output (d : brackets.DocGraph) :
  well_nested d →
  bracket_free_doc d →
  ∃ s o c m2c popped evs,
    brackets.gen_bracket_mappings d = Ok (o, c, m2c)
    ∧ brackets.gen_bracketed_output d = Ok s
    ∧ balanced_string s
    ∧ Forall2 (fun t ps => length ps = length (closes_at d t))
              (brackets.tokens d) popped
    ∧ Forall2 (written_as m2c) (marks_of d (brackets.tokens d) popped) evs
    ∧ s = render evs
    ∧ matched (marks_of d (brackets.tokens d) popped) [] = Some []
    ∧ (∀ pre m post,
         marks_of d (brackets.tokens d) popped = pre ++ MClose m :: post →
         ∃ pre1 pre2 chain_id ch,
           pre = pre1 ++ MOpen m :: pre2
           ∧ m2c !! m = Some chain_id
           ∧ EClose chain_id ∈ evs
           ∧ ch ∈ brackets.pointing_chains d
           ∧ m ∈ ch
           ∧ head ch = Some chain_id).
Proof.
  intros Hwn Hfree.
  destruct (well_nested_mappings d Hwn) as (o & c & m2c & Hg).
  destruct (output_cases d o c m2c Hg)
    as [[_ Hu]|(_ & ret & stack & Hscan & Hout)].
  { by apply well_nested_no_underflow in Hu. }
  destruct (gen_bracket_mappings_spec _ _ _ _ Hg)
    as (Ho & Hc & _ & _ & _ & _ & Hfrom).
  pose proof Hscan as Hscan'.
  apply (scan_Ok_inv d o c m2c Hg) in Hscan' as (_ & Hsum & _); [|constructor].
  rewrite (sum_list_with_ext_in _ (fun t => length (closes_at d t)))
    in Hsum by (intros; by rewrite Hc).
  rewrite (sum_list_with_ext_in
             (fun t => length (default [] (o !! t)))
             (fun t => length (opens_at d t)))
    in Hsum by (intros; by rewrite Ho).
  rewrite (document_closed_eq_opened d Hwn) in Hsum. simpl in Hsum.
  assert (stack = []) as -> by (apply length_zero_iff_nil; lia).
  apply (scan_marks d o c m2c _ _ _ _ _ Hg) in Hscan
    as (popped & evs & Hpopped & Hwritten & -> & Hmatched); [|constructor].
  rewrite append_nil_l in Hout. change (reverse []) with (@nil string) in Hmatched.
  exists (render evs), o, c, m2c, popped, evs.
  split; [done|]. split; [done|].
  split; [|split; [done|split; [done|split; [done|split; [done|]]]]].
  - apply balanced_render.
    + apply (written_as_clean m2c _ _ Hwritten).
      * apply marks_of_clean. by destruct Hfree.
      * by apply (chain_ids_bracket_free d o c m2c).
    + by apply (matched_balance m2c _ _ [] [] Hwritten).
  - intros pre m post Heq.
    destruct (matched_close_opened _ _ _ _ _ _ Hmatched Heq)
      as [Hin|(pre1 & pre2 & ->)]; [by apply elem_of_nil in Hin|].
    destruct (written_as_close m2c _ _ m Hwritten) as (cid & Hcid & Hev).
    { rewrite Heq. apply elem_of_app. right. apply list_elem_of_here. }
    destruct (Hfrom m cid Hcid) as (ch & Hch & Hm & Hhead).
    by exists pre1, pre2, cid, ch.
Qed.

Lemma stadthalle_well_nested : well_nested stadthalle.
Proof.
  assert (brackets.sorted_markables stadthalle
          = ["markable_21"; "markable_22"]) as Hms by reflexivity.
  unfold well_nested. rewrite Hms. repeat split.
  - by apply (bool_decide_unpack _).
  - repeat constructor; discriminate.
  - repeat constructor; vm_compute; lia.
  - repeat constructor; vm_compute; lia.
Defined.

Lemma stadthalle_bracket_free : bracket_free_doc stadthalle.
Proof. split; repeat constructor. Defined.

Lemma balanced_output_witness :
  ∃ s o c m2c popped evs,
    brackets.gen_bracket_mappings stadthalle = Ok (o, c, m2c)
    ∧ brackets.gen_bracketed_output stadthalle = Ok s
    ∧ balanced_string s
    ∧ Forall2 (fun t ps => length ps = length (closes_at stadthalle t))
              (brackets.tokens stadthalle) popped
    ∧ Forall2 (written_as m2c)
              (marks_of stadthalle (brackets.tokens stadthalle) popped) evs
    ∧ s = render evs
    ∧ matched (marks_of stadthalle (brackets.tokens stadthalle) popped) []
      = Some []
    ∧ (∀ pre m post,
         marks_of stadthalle (brackets.tokens stadthalle) popped
         = pre ++ MClose m :: post →
         ∃ pre1 pre2 chain_id ch,
           pre = pre1 ++ MOpen m :: pre2
           ∧ m2c !! m = Some chain_id
           ∧ EClose chain_id ∈ evs
           ∧ ch ∈ brackets.pointing_chains stadthalle
           ∧ m ∈ ch
           ∧ head ch = Some chain_id).
Proof.
  apply (balanced_output stadthalle).
  - apply stadthalle_well_nested.
  - apply stadthalle_bracket_free.
Defined.

(** C5 as stated fails: [bracket_token] has no markable at all, yet its
    rendering ["[ "] holds one ['['] and no closing group. *)
Lemma bracket_token_unbalanced :
  well_nested bracket_token
  ∧ ∃ s, brackets.gen_bracketed_output bracket_token = Ok s
         ∧ ¬ balanced_string s.
Proof.
  split.
  - repeat split.
    + apply NoDup_singleton.
    + constructor.
    + constructor.
    + constructor.
  - exists "[ ". split; [reflexivity|].
    intros [H _]. vm_compute in H. discriminate.
Qed.

(** ** ptb.py: node attributes *)

Lemma length_append (a b : string) :
  String.length (a +:+ b) = String.length a + String.length b.
Proof.
  induction a as [|x a IH]; [done|]. rewrite append_cons. simpl. by rewrite IH.
Qed.

Lemma token_key_not_label (namespace : string) :
  namespace +:+ ":token" ≠ "label".
Proof.
  intros E. apply (f_equal String.length) in E.
  rewrite length_append in E. simpl in E. lia.
Qed.

Lemma token_of_add_node_empty (n k : Z) (g : ptb.PTBDocumentGraph) :
  ptb.token_of (ptb.add_node n ∅ g) k = ptb.token_of g k.
Proof.
  unfold ptb.token_of, ptb.add_node. simpl.
  destruct (decide (n = k)) as [->|Hne].
  - rewrite lookup_insert_eq. simpl. rewrite (left_id ∅ (∪)).
    by destruct (ptb.node g !! k).
  - by rewrite lookup_insert_ne.
Qed.

Lemma token_of_add_edge (u v : Z) (ty : ptb.EdgeTypes) (k : Z)
    (g : ptb.PTBDocumentGraph) :
  ptb.token_of (ptb.add_edge u v ty g) k = ptb.token_of g k.
Proof.
  unfold ptb.add_edge.
  rewrite <- (token_of_add_node_empty u k g).
  rewrite <- (token_of_add_node_empty v k (ptb.add_node u ∅ g)).
  done.
Qed.

Lemma token_of_add_node_other (n k : Z) (attrs : gmap string ptb.attr)
    (g : ptb.PTBDocumentGraph) :
  n ≠ k → ptb.token_of (ptb.add_node n attrs g) k = ptb.token_of g k.
Proof.
  intros Hne. unfold ptb.token_of, ptb.add_node. simpl.
  by rewrite lookup_insert_ne.
Qed.

Lemma token_of_add_node_token (n : Z) (label : string)
    (g : ptb.PTBDocumentGraph) :
  ptb.token_of
    (ptb.add_node n (<[ptb.ns g +:+ ":token" := ptb.AStr label]>
                       {["label" := ptb.AStr label]}) g) n
  = Some (ptb.AStr label).
Proof.
  unfold ptb.token_of, ptb.add_node. simpl. rewrite lookup_insert_eq. simpl.
  apply lookup_union_Some_l, lookup_insert_eq.
Qed.

Lemma set_attr_label (n : Z) (v : ptb.attr) (g : ptb.PTBDocumentGraph) :
  is_Some (ptb.node g !! n) →
  ∃ g', ptb.set_attr n "label" v g = Ok g'
        ∧ ptb.ns g' = ptb.ns g ∧ ptb.root g' = ptb.root g
        ∧ ptb.sentences g' = ptb.sentences g
        ∧ ptb.tokens g' = ptb.tokens g
        ∧ ptb._node_id g' = ptb._node_id g
        ∧ ∀ k, ptb.token_of g' k = ptb.token_of g k.
Proof.
  intros [attrs Hn]. unfold ptb.set_attr, getitem. rewrite Hn. cbn [rbind].
  eexists. split; [done|]. repeat split.
  intros k. unfold ptb.token_of. simpl.
  destruct (decide (n = k)) as [->|Hne].
  - rewrite lookup_insert_eq, Hn. simpl.
    rewrite lookup_insert_ne; [done|]. intros E. symmetry in E.
    by apply token_key_not_label in E.
  - by rewrite lookup_insert_ne.
Qed.

Lemma add_edge_exists (u v : Z) (ty : ptb.EdgeTypes)
    (g : ptb.PTBDocumentGraph) :
  is_Some (ptb.node (ptb.add_edge u v ty g) !! v).
Proof. unfold ptb.add_edge. simpl. rewrite lookup_insert_eq. eauto. Qed.

(** ** ptb.py: trees *)

Lemma tree_ind' (P : ptb.tree → Prop) :
  (∀ label children,
      Forall (fun c => match c with
                       | inl sub => P sub
                       | inr _ => True
                       end) children →
      P (ptb.Tree label children)) →
  ∀ t, P t.
Proof.
  intros Hstep. fix IH 1. intros [label children]. apply Hstep.
  induction children as [|ch children IHc]; constructor; [|exact IHc].
  destruct ch as [sub|leaf]; [apply IH|exact I].
Qed.

Lemma parse_unfold (label : string) (children : list (ptb.tree + string))
    (g : ptb.PTBDocumentGraph) :
  ptb._parse_sentencetree (ptb.Tree label children) g
  = (g' ←' ptb.set_attr (ptb._node_id g) "label" (ptb.AStr label) g;
     for_each (parse_child (ptb._node_id g)) g' children).
Proof. reflexivity. Qed.

Lemma leaves_unfold (label : string) (children : list (ptb.tree + string)) :
  ptb.leaves (ptb.Tree label children) = flat_map child_leaves children.
Proof. reflexivity. Qed.

Lemma parsed_refl (g : ptb.PTBDocumentGraph) : parsed [] [] g g.
Proof.
  split; [done|]. split; [done|]. split; [by rewrite app_nil_r|].
  split; [lia|]. split; [done|].
  exists []. rewrite app_nil_r. repeat split; constructor.
Qed.

Lemma parsed_trans (added1 added2 : list Z) (l1 l2 : list string)
    (g g1 g2 : ptb.PTBDocumentGraph) :
  parsed added1 l1 g g1 → parsed added2 l2 g1 g2 →
  parsed (added1 ++ added2) (l1 ++ l2) g g2.
Proof.
  intros (Hns1 & Hr1 & Hs1 & Hid1 & Hfr1 & new1 & Ht1 & Hl1 & Hin1 & Hso1)
         (Hns2 & Hr2 & Hs2 & Hid2 & Hfr2 & new2 & Ht2 & Hl2 & Hin2 & Hso2).
  split; [congruence|]. split; [congruence|].
  split; [by rewrite Hs2, Hs1, app_assoc|]. split; [lia|]. split.
  { intros k Hk. rewrite Hfr2 by lia. by apply Hfr1. }
  exists (new1 ++ new2). split; [by rewrite Ht2, Ht1, app_assoc|].
  rewrite Forall_forall in Hin1, Hin2. split; [|split].
  - rewrite !fmap_app, <- Hl1, <- Hl2. f_equal.
    apply list_fmap_ext. intros i n Hn. apply Hfr2.
    apply list_elem_of_lookup_2 in Hn. apply Hin1 in Hn. lia.
  - apply Forall_app. split; apply Forall_forall; intros n Hn.
    + apply Hin1 in Hn. lia.
    + apply Hin2 in Hn. lia.
  - apply StronglySorted_app_2; [|done..].
    intros a b Ha Hb. apply Hin1 in Ha. apply Hin2 in Hb. lia.
Qed.

Lemma parsed_leaf (root_node_id : Z) (leaf : string)
    (g : ptb.PTBDocumentGraph) :
  ∃ g', parse_child root_node_id g (inr leaf) = Ok g'
        ∧ parsed [] [leaf] g g'.
Proof.
  eexists. split; [reflexivity|].
  split; [done|]. split; [done|]. split; [by rewrite app_nil_r|].
  split; [simpl; lia|]. split.
  { intros k Hk. rewrite token_of_add_edge.
    rewrite token_of_add_node_other by (simpl; lia). reflexivity. }
  exists [(ptb._node_id g + 1)%Z]. split; [done|]. split; [|split].
  - cbn [fmap list_fmap]. f_equal. rewrite token_of_add_edge.
    apply (token_of_add_node_token (ptb._node_id g + 1) leaf
             (ptb.tokens_append (ptb._node_id g + 1) (ptb.incr_node_id g))).
  - repeat constructor; simpl; lia.
  - repeat constructor.
Qed.

Lemma parsed_subtree (root_node_id : Z) (sub : ptb.tree)
    (g : ptb.PTBDocumentGraph) :
  (∀ g0, is_Some (ptb.node g0 !! ptb._node_id g0) →
         ∃ g', ptb._parse_sentencetree sub g0 = Ok g'
               ∧ parsed [] (ptb.leaves sub) g0 g') →
  ∃ g', parse_child root_node_id g (inl sub) = Ok g'
        ∧ parsed [] (ptb.leaves sub) g g'.
Proof.
  intros IH. unfold parse_child.
  set (g1 := ptb.incr_node_id g).
  set (g2 := ptb.add_node (ptb._node_id g1)
               {["label" := ptb.AStr (ptb.get_nodelabel (inl sub))]} g1).
  set (g3 := ptb.add_edge root_node_id (ptb._node_id g2)
               ptb.dominance_relation g2).
  destruct (IH g3) as (g' & Hparse & Hp).
  { apply add_edge_exists. }
  exists g'. split; [done|].
  destruct Hp as (Hns & Hr & Hs & Hid & Hfr & new & Ht & Hl & Hin & Hso).
  split; [done|]. split; [done|]. split; [done|].
  split; [simpl in Hid; lia|]. split.
  { intros k Hk. rewrite Hfr by (simpl; lia). unfold g3.
    rewrite token_of_add_edge. unfold g2.
    rewrite token_of_add_node_other by (simpl; lia). reflexivity. }
  exists new. split; [done|]. split; [done|]. split; [|done].
  eapply Forall_impl; [exact Hin|]. simpl. intros n Hn. lia.
Qed.

Lemma parsed_children (root_node_id : Z)
    (children : list (ptb.tree + string)) :
  Forall (fun c => match c with
                   | inl sub =>
                       ∀ g0, is_Some (ptb.node g0 !! ptb._node_id g0) →
                             ∃ g', ptb._parse_sentencetree sub g0 = Ok g'
                                   ∧ parsed [] (ptb.leaves sub) g0 g'
                   | inr _ => True
                   end) children →
  ∀ g, ∃ g', for_each (parse_child root_node_id) g children = Ok g'
             ∧ parsed [] (flat_map child_leaves children) g g'.
Proof.
  induction 1 as [|ch children Hch _ IH]; intros g.
  - exists g. split; [done|apply parsed_refl].
  - assert (∃ g1, parse_child root_node_id g ch = Ok g1
                  ∧ parsed [] (child_leaves ch) g g1) as (g1 & Hstep & Hp1).
    { destruct ch as [sub|leaf];
        [by apply parsed_subtree|apply parsed_leaf]. }
    destruct (IH g1) as (g' & Hrest & Hp2).
    exists g'. split.
    + cbn [for_each]. by rewrite Hstep.
    + cbn [flat_map]. apply (parsed_trans [] [] _ _ g g1 g'); done.
Qed.

(** Parsing a tree whose root node exists succeeds. *)
Lemma parse_tree_spec (t : ptb.tree) :
  ∀ g, is_Some (ptb.node g !! ptb._node_id g) →
       ∃ g', ptb._parse_sentencetree t g = Ok g'
             ∧ parsed [] (ptb.leaves t) g g'.
Proof.
  induction t as [label children IH] using tree_ind'. intros g Hroot.
  rewrite parse_unfold, leaves_unfold.
  destruct (set_attr_label (ptb._node_id g) (ptb.AStr label) g Hroot)
    as (g0 & -> & Hns & Hr & Hs & Ht & Hid & Htok).
  cbn [rbind].
  destruct (parsed_children (ptb._node_id g) children IH g0)
    as (g' & -> & Hp).
  exists g'. split; [done|].
  destruct Hp as (Hns' & Hr' & Hs' & Hid' & Hfr & new & Ht' & Hl & Hin & Hso).
  split; [congruence|]. split; [congruence|]. split; [congruence|].
  split; [lia|]. split.
  { intros k Hk. rewrite Hfr by lia. apply Htok. }
  exists new. split; [congruence|]. split; [done|]. split; [|done].
  by rewrite <- Hid.
Qed.

Lemma add_sentence_spec (sentence : ptb.tree) (g : ptb.PTBDocumentGraph) :
  ∃ g', ptb._add_sentence g sentence = Ok g'
        ∧ parsed [ptb._node_id g] (ptb.leaves sentence) g g'.
Proof.
  unfold ptb._add_sentence.
  set (g1 := ptb.sentences_append (ptb._node_id g) g).
  set (g2 := ptb.add_edge (ptb.root g1) (ptb._node_id g1)
               ptb.spanning_relation g1).
  destruct (parse_tree_spec sentence g2) as (g3 & -> & Hp).
  { apply add_edge_exists. }
  cbn [rbind]. eexists. split; [done|].
  destruct Hp as (Hns & Hr & Hs & Hid & Hfr & new & Ht & Hl & Hin & Hso).
  split; [done|]. split; [done|]. split; [by rewrite app_nil_r in Hs|].
  split; [simpl in *; lia|]. split.
  { intros k Hk. change (ptb.token_of g3 k = ptb.token_of g k).
    rewrite Hfr by done. unfold g2. by rewrite token_of_add_edge. }
  exists new. split; [done|]. split; [|split; [|done]].
  - by rewrite <- Hl.
  - eapply Forall_impl; [exact Hin|]. simpl. intros n Hn. lia.
Qed.

Lemma add_sentences_spec (sents : list ptb.tree) :
  ∀ g, ∃ g' added,
    for_each ptb._add_sentence g sents = Ok g'
    ∧ length added = length sents
    ∧ parsed added (flat_map ptb.leaves sents) g g'.
Proof.
  induction sents as [|s sents IH]; intros g.
  - exists g, []. split; [done|]. split; [done|apply parsed_refl].
  - destruct (add_sentence_spec s g) as (g1 & Hstep & Hp1).
    destruct (IH g1) as (g' & added & Hrest & Hlen & Hp2).
    exists g', (ptb._node_id g :: added). split; [|split].
    + cbn [for_each]. by rewrite Hstep.
    + simpl. by rewrite Hlen.
    + cbn [flat_map].
      apply (parsed_trans [ptb._node_id g] added _ _ g g1 g'); done.
Qed.

(** ** ptb.py: tokens and sentences *)

Lemma init_no_limit (parsed_sents : list ptb.tree) (ptb_filename : string)
    (name : option string) (namespace : string) :
  ∃ g added,
    ptb.__init__ parsed_sents ptb_filename name namespace None = Ok g
    ∧ ptb.sentences g = added
    ∧ length added = length parsed_sents
    ∧ ptb.token_of g <$> ptb.tokens g
      = (fun s => Some (ptb.AStr s)) <$> flat_map ptb.leaves parsed_sents
    ∧ StronglySorted Z.lt (ptb.tokens g).
Proof.
  unfold ptb.__init__.
  match goal with
  | |- context [for_each ptb._add_sentence ?self _] =>
      destruct (add_sentences_spec parsed_sents self)
        as (g & added & -> & Hlen & Hp)
  end.
  destruct Hp as (_ & _ & Hs & _ & _ & new & Ht & Hl & _ & Hso).
  simpl in Hs, Ht. exists g, added. rewrite Ht. by repeat split.
Qed.

(** C6.  Adding the trees [sents] to a graph appends to its token list
    one node per leaf string, with increasing node ids, each carrying its
    leaf as token string, in the left-to-right order of the leaves.  For a
    graph built from a file this is the whole token list. *)
Theorem tokens_are_leaves (sents : list ptb.tree) :
  (∀ g, ∃ g' new,
      for_each ptb._add_sentence g sents = Ok g'
      ∧ ptb.tokens g' = ptb.tokens g ++ new
      ∧ length new = length (flat_map ptb.leaves sents)
      ∧ ptb.token_of g' <$> new
        = (fun s => Some (ptb.AStr s)) <$> flat_map ptb.leaves sents
      ∧ StronglySorted Z.lt new)
  ∧ (∀ ptb_filename name namespace, ∃ g,
      ptb.__init__ sents ptb_filename name namespace None = Ok g
      ∧ length (ptb.tokens g) = length (flat_map ptb.leaves sents)
      ∧ ptb.token_of g <$> ptb.tokens g
        = (fun s => Some (ptb.AStr s)) <$> flat_map ptb.leaves sents
      ∧ StronglySorted Z.lt (ptb.tokens g)).
Proof.
  split.
  - intros g. destruct (add_sentences_spec sents g) as (g' & added & Hg' & _ & Hp).
    destruct Hp as (_ & _ & _ & _ & _ & new & Ht & Hl & _ & Hso).
    exists g', new. repeat split; try done.
    apply (f_equal length) in Hl. by rewrite !length_fmap in Hl.
  - intros ptb_filename name namespace.
    destruct (init_no_limit sents ptb_filename name namespace)
      as (g & added & Hg & _ & _ & Hl & Hso).
    exists g. repeat split; try done.
    apply (f_equal length) in Hl. by rewrite !length_fmap in Hl.
Qed.

Lemma init_positive_limit (parsed_sents : list ptb.tree)
    (ptb_filename : string) (name : option string) (namespace : string)
    (n : Z) :
  (0 < n)%Z →
  ptb.__init__ parsed_sents ptb_filename name namespace (Some n)
  = ptb.__init__ (take (Z.to_nat n) parsed_sents) ptb_filename name
                 namespace None.
Proof.
  intros Hn. unfold ptb.__init__, ptb.slice_to.
  destruct (Z.eqb_spec n 0) as [->|_]; [lia|].
  destruct (Z.ltb_spec n 0) as [?|_]; [lia|]. done.
Qed.

Lemma take_min_length {A : Type} (l : list A) (n : Z) :
  take (Z.to_nat (Z.min n (Z.of_nat (length l)))) l = take (Z.to_nat n) l.
Proof.
  destruct (Z.le_ge_cases n (Z.of_nat (length l))) as [Hle|Hge].
  - by rewrite Z.min_l.
  - rewrite Z.min_r by lia. rewrite Nat2Z.id.
    rewrite firstn_all. symmetry. apply take_ge. lia.
Qed.

(** For a positive [limit] [n] the code does what its docstring says:
    exactly the first [min(n, k)] of the [k] sentences are added, in input
    order, and what follows them in the input has no influence on the
    graph.  Without a limit all [k] sentences are added. *)
Theorem limit_positive (parsed_sents : list ptb.tree) (n : Z) :
  (0 < n)%Z →
  limit_truncates parsed_sents n
  ∧ (∀ ptb_filename name namespace, ∃ g,
        ptb.__init__ parsed_sents ptb_filename name namespace (Some n) = Ok g
        ∧ length (ptb.sentences g)
          = Z.to_nat (Z.min n (Z.of_nat (length parsed_sents)))
        ∧ ptb.token_of g <$> ptb.tokens g
          = (fun s => Some (ptb.AStr s))
              <$> flat_map ptb.leaves
                    (take (Z.to_nat (Z.min n (Z.of_nat (length parsed_sents))))
                          parsed_sents))
  ∧ (∀ other ptb_filename name namespace,
        take (Z.to_nat n) other = take (Z.to_nat n) parsed_sents →
        ptb.__init__ other ptb_filename name namespace (Some n)
        = ptb.__init__ parsed_sents ptb_filename name namespace (Some n))
  ∧ (∀ ptb_filename name namespace, ∃ g,
        ptb.__init__ parsed_sents ptb_filename name namespace None = Ok g
        ∧ length (ptb.sentences g) = length parsed_sents).
Proof.
  intros Hn. split; [|split; [|split]].
  - intros ptb_filename name namespace.
    by rewrite init_positive_limit, take_min_length.
  - intros ptb_filename name namespace.
    rewrite init_positive_limit, take_min_length by done.
    destruct (init_no_limit (take (Z.to_nat n) parsed_sents)
                ptb_filename name namespace)
      as (g & added & -> & <- & Hlen & Hl & _).
    exists g. split; [done|]. split; [|done].
    rewrite Hlen, length_take. lia.
  - intros other ptb_filename name namespace Htake.
    by rewrite !init_positive_limit, Htake.
  - intros ptb_filename name namespace.
    destruct (init_no_limit parsed_sents ptb_filename name namespace)
      as (g & added & -> & <- & Hlen & _).
    by exists g.
Qed.

Lemma limit_positive_witness :
  ∃ g, ptb.__init__ [john_runs; john_runs] "wsj.mrg" None "ptb" (Some 1%Z)
       = Ok g
       ∧ length (ptb.sentences g) = 1.
Proof.
  destruct (limit_positive [john_runs; john_runs] 1) as (_ & H & _); [lia|].
  destruct (H "wsj.mrg" None "ptb") as (g & Hg & Hlen & _).
  exists g. split; [exact Hg|exact Hlen].
Defined.

(** C4: where the code leaves its docstring.  A [limit] of [0] does not
    pass the test [if limit:], so the branch without limit is taken: for
    every input the graph is the one built without limit, with all the
    sentences and their tokens, and not the graph without sentences that
    [only parse the first n sentences] asks for. *)
Theorem limit_zero_parses_all (parsed_sents : list ptb.tree) :
  (∀ ptb_filename name namespace,
      ptb.__init__ parsed_sents ptb_filename name namespace (Some 0%Z)
      = ptb.__init__ parsed_sents ptb_filename name namespace None)
  ∧ (∀ ptb_filename name namespace, ∃ g,
        ptb.__init__ parsed_sents ptb_filename name namespace (Some 0%Z)
        = Ok g
        ∧ length (ptb.sentences g) = length parsed_sents
        ∧ ptb.token_of g <$> ptb.tokens g
          = (fun s => Some (ptb.AStr s)) <$> flat_map ptb.leaves parsed_sents)
  ∧ (parsed_sents ≠ [] → ¬ limit_truncates parsed_sents 0).
Proof.
  assert (Hsame : ∀ ptb_filename name namespace,
    ptb.__init__ parsed_sents ptb_filename name namespace (Some 0%Z)
    = ptb.__init__ parsed_sents ptb_filename name namespace None)
    by reflexivity.
  split; [done|]. split.
  - intros ptb_filename name namespace. rewrite Hsame.
    destruct (init_no_limit parsed_sents ptb_filename name namespace)
      as (g & added & -> & <- & Hlen & Hl & _).
    by exists g.
  - intros Hne Htr. specialize (Htr "wsj.mrg" None "ptb").
    rewrite Hsame in Htr.
    destruct (init_no_limit parsed_sents "wsj.mrg" None "ptb")
      as (g & added & Hg & <- & Hlen & _).
    destruct (init_no_limit
                (take (Z.to_nat (Z.min 0 (Z.of_nat (length parsed_sents))))
                      parsed_sents) "wsj.mrg" None "ptb")
      as (g' & added' & Hg' & <- & Hlen' & _).
    rewrite Hg, Hg' in Htr. injection Htr as <-.
    rewrite Hlen in Hlen'. rewrite length_take in Hlen'.
    destruct parsed_sents; [done|]. simpl in Hlen'. lia.
Qed.

(** C4 fails at the [limit] [0]: the one sentence of the input is added. *)
Lemma limit_truncates_fails :
  ¬ limit_truncates [john_runs] 0
  ∧ ∃ g, ptb.__init__ [john_runs] "wsj.mrg" None "ptb" (Some 0%Z) = Ok g
         ∧ ptb.sentences g = [1%Z]
         ∧ length (ptb.tokens g) = 2.
Proof.
  split.
  - intros H. specialize (H "wsj.mrg" None "ptb").
    apply (f_equal (fun r => match r with
                             | Ok g => length (ptb.sentences g)
                             | Raise _ => 0
                             end)) in H.
    vm_compute in H. discriminate.
  - eexists. split; [vm_compute; reflexivity|]. split; reflexivity.
Qed.

Example limit_zero_adds_all :
  match ptb.__init__ [john_runs] "wsj.mrg" None "ptb" (Some 0%Z) with
  | Ok g => ptb.sentences g = [1%Z]
  | Raise _ => False
  end.
Proof. vm_compute. reflexivity. Qed.

(** * Further properties *)

(** ** util.py: [TokenMapper] without duplicates *)

Lemma last_occurrence (l : list string) (x : string) :
  x ∈ l → ∃ j, l !! j = Some x ∧ ∀ j', j < j' → l !! j' ≠ Some x.
Proof.
  induction l as [|y l IH]; intros Hin; [by apply elem_of_nil in Hin|].
  destruct (decide (x ∈ l)) as [Hl|Hl].
  - destruct (IH Hl) as (j & Hj & Hlast). exists (S j). split; [done|].
    intros [|j'] ?; [lia|]. simpl. apply Hlast. lia.
  - apply elem_of_cons in Hin as [->|?]; [|done]. exists 0. split; [done|].
    intros [|j'] ?; [lia|]. simpl. intros Hj'.
    apply Hl. by eapply list_elem_of_lookup_2.
Qed.

Lemma TokenMapper_id2index_Some (tokens : list string) (token_id : string)
    (z : Z) :
  util.id2index (util.TokenMapper_init tokens) !! token_id = Some z ↔
  ∃ j, z = Z.of_nat j ∧ tokens !! j = Some token_id
       ∧ ∀ j', j < j' → tokens !! j' ≠ Some token_id.
Proof.
  unfold util.TokenMapper_init, util.enumerate. split.
  - intros Hz. destruct (decide (token_id ∈ tokens)) as [Hin|Hni].
    + destruct (last_occurrence _ _ Hin) as (j & Hj & Hlast).
      exists j. split; [|done].
      rewrite (TokenMapper_id2index_last _ _ _ _ j) in Hz by done.
      injection Hz as <-. lia.
    + rewrite TokenMapper_id2index_absent in Hz by done.
      simpl in Hz. by rewrite lookup_empty in Hz.
  - intros (j & -> & Hj & Hlast).
    by rewrite (TokenMapper_id2index_last _ _ _ _ j).
Qed.

Lemma TokenMapper_index2id_Some (tokens : list string) (token_id : string)
    (z : Z) :
  util.index2id (util.TokenMapper_init tokens) !! z = Some token_id ↔
  ∃ j, z = Z.of_nat j ∧ tokens !! j = Some token_id.
Proof.
  unfold util.TokenMapper_init, util.enumerate.
  rewrite TokenMapper_index2id_from. case_decide as Hz.
  - split.
    + intros Hj. exists (Z.to_nat (z - 0)). split; [lia|done].
    + intros (j & -> & Hj). by replace (Z.to_nat (Z.of_nat j - 0)) with j by lia.
  - simpl. rewrite lookup_empty. split; [done|].
    intros (j & -> & Hj). apply lookup_lt_Some in Hj. lia.
Qed.

(** X1.  For a token sequence without duplicates the two dicts of a
    [TokenMapper] are inverse to each other; [id2index] is defined exactly
    on the tokens of the document and [index2id] exactly on the positions
    [0 .. n-1]. *)
Theorem TokenMapper_inverse (tokens : list string) :
  NoDup tokens →
  (∀ token_id z,
      util.id2index (util.TokenMapper_init tokens) !! token_id = Some z
      ↔ util.index2id (util.TokenMapper_init tokens) !! z = Some token_id)
  ∧ (∀ token_id,
        is_Some (util.id2index (util.TokenMapper_init tokens) !! token_id)
        ↔ token_id ∈ tokens)
  ∧ (∀ z,
        is_Some (util.index2id (util.TokenMapper_init tokens) !! z)
        ↔ (0 ≤ z < Z.of_nat (length tokens))%Z).
Proof.
  intros Hnd. split; [|split].
  - intros token_id z.
    rewrite TokenMapper_id2index_Some, TokenMapper_index2id_Some. split.
    + intros (j & -> & Hj & _). by exists j.
    + intros (j & -> & Hj). exists j. split; [done|]. split; [done|].
      intros j' Hlt Hj'. pose proof (NoDup_lookup _ _ _ _ Hnd Hj Hj'). lia.
  - intros token_id. split.
    + intros [z Hz]. apply TokenMapper_id2index_Some in Hz as (j & _ & Hj & _).
      by eapply list_elem_of_lookup_2.
    + intros Hin. destruct (last_occurrence _ _ Hin) as (j & Hj & Hlast).
      exists (Z.of_nat j). apply TokenMapper_id2index_Some. by exists j.
  - intros z. split.
    + intros [t Ht]. apply TokenMapper_index2id_Some in Ht as (j & -> & Hj).
      apply lookup_lt_Some in Hj. lia.
    + intros Hz. destruct (lookup_lt_is_Some_2 tokens (Z.to_nat z)) as [t Ht];
        [lia|].
      exists t. apply TokenMapper_index2id_Some. exists (Z.to_nat z).
      split; [lia|done].
Qed.

Lemma TokenMapper_inverse_witness :
  util.id2index (util.TokenMapper_init ["t1"; "t2"; "t3"]) !! "t2"
  = Some 1%Z
  ↔ util.index2id (util.TokenMapper_init ["t1"; "t2"; "t3"]) !! 1%Z
    = Some "t2".
Proof.
  destruct (TokenMapper_inverse ["t1"; "t2"; "t3"]) as (H & _).
  - by apply (bool_decide_unpack _).
  - apply H.
Defined.

(** ** util.py: offsets of a segment of the document *)

(** X2.  With the [id2index] dict of the document as token map, the
    offsets of any non-empty list of document tokens are computed without
    error, lie within the document, are positions of tokens of the list,
    and enclose the position of every token of the list. *)
Theorem offsets_in_document (tokens segment : list string) :
  segment ≠ [] →
  Forall (fun t => t ∈ tokens) segment →
  ∃ lo hi t_lo t_hi,
    util.get_segment_token_offsets segment
      (util.id2index (util.TokenMapper_init tokens)) = Ok (lo, hi)
    ∧ (0 ≤ lo ≤ hi)%Z ∧ (hi < Z.of_nat (length tokens))%Z
    ∧ t_lo ∈ segment ∧ tokens !! Z.to_nat lo = Some t_lo
    ∧ t_hi ∈ segment ∧ tokens !! Z.to_nat hi = Some t_hi
    ∧ ∀ t, t ∈ segment →
           ∃ p, util.id2index (util.TokenMapper_init tokens) !! t = Some p
                ∧ (lo ≤ p ≤ hi)%Z.
Proof.
  intros Hne Hseg.
  set (tm := util.id2index (util.TokenMapper_init tokens)).
  assert (Forall (fun t => is_Some (tm !! t)) segment) as Hall.
  { eapply Forall_impl; [exact Hseg|]. intros t Hin.
    destruct (last_occurrence _ _ Hin) as (j & Hj & Hlast).
    exists (Z.of_nat j). apply TokenMapper_id2index_Some. by exists j. }
  assert (mapped_indices tm segment ≠ []) as Hne'.
  { intros E. by apply Hne, (mapped_indices_nil_inv _ tm). }
  destruct (py_min_spec _ Hne') as (lo & Hmin & Hlo).
  destruct (py_max_spec _ Hne') as (hi & Hmax & Hhi).
  assert (∀ p, p ∈ mapped_indices tm segment →
               ∃ t j, t ∈ segment ∧ p = Z.of_nat j ∧ tokens !! j = Some t)
    as Hpos.
  { intros p Hp. unfold mapped_indices in Hp.
    apply list_elem_of_omap in Hp as (t & Hin & Ht).
    apply TokenMapper_id2index_Some in Ht as (j & -> & Hj & _).
    by exists t, j. }
  pose proof (offsets_of_min_max _ _ _ _ Hall Hlo Hhi) as Hoff.
  destruct Hlo as [Hlo1 Hlo2]. destruct Hhi as [Hhi1 Hhi2].
  destruct (Hpos _ Hlo1) as (t_lo & jl & Hlin & -> & Hjl).
  destruct (Hpos _ Hhi1) as (t_hi & jh & Hhin & -> & Hjh).
  rewrite Forall_forall in Hlo2, Hhi2.
  exists (Z.of_nat jl), (Z.of_nat jh), t_lo, t_hi.
  split; [done|].
  pose proof (Hlo2 _ Hhi1). pose proof (lookup_lt_Some _ _ _ Hjh).
  split; [lia|]. split; [lia|]. rewrite !Nat2Z.id.
  split; [done|]. split; [done|]. split; [done|]. split; [done|].
  intros t Hin. rewrite Forall_forall in Hall.
  destruct (Hall _ Hin) as [p Hp]. exists p. split; [done|].
  assert (p ∈ mapped_indices tm segment) as Hp'.
  { unfold mapped_indices. apply list_elem_of_omap. by exists t. }
  split; [by apply Hlo2|by apply Hhi2].
Qed.

Lemma offsets_in_document_witness :
  ∃ lo hi,
    util.get_segment_token_offsets ["t3"; "t2"]
      (util.id2index (util.TokenMapper_init ["t1"; "t2"; "t3"])) = Ok (lo, hi)
    ∧ (0 ≤ lo ≤ hi)%Z ∧ (hi < 3)%Z.
Proof.
  destruct (offsets_in_document ["t1"; "t2"; "t3"] ["t3"; "t2"])
    as (lo & hi & _ & _ & H & Hlo & Hhi & _).
  - discriminate.
  - repeat constructor; by apply (bool_decide_unpack _).
  - exists lo, hi. split; [exact H|]. split; [exact Hlo|exact Hhi].
Defined.

Lemma slice_positions (tokens : list string) (i n : nat) :
  NoDup tokens →
  i + n ≤ length tokens →
  Forall2 (fun t p =>
             util.id2index (util.TokenMapper_init tokens) !! t = Some p)
          (take n (drop i tokens)) (Z.of_nat <$> seq i n).
Proof.
  intros Hnd Hlen. apply Forall2_same_length_lookup_2.
  - rewrite length_take, length_drop, length_fmap, length_seq. lia.
  - intros k t p Ht Hp.
    apply lookup_take_Some in Ht as [Ht Hk]. rewrite lookup_drop in Ht.
    rewrite list_lookup_fmap in Hp.
    destruct (seq i n !! k) as [q|] eqn:Hq; [|done].
    apply lookup_seq in Hq as [-> _]. injection Hp as <-.
    apply TokenMapper_id2index_Some. exists (i + k). split; [done|].
    split; [done|]. intros j' Hlt Hj'.
    pose proof (NoDup_lookup _ _ _ _ Hnd Ht Hj'). lia.
Qed.

Lemma seq_minimum (i n : nat) :
  0 < n → is_minimum (Z.of_nat i) (Z.of_nat <$> seq i n).
Proof.
  intros Hn. split.
  - apply list_elem_of_fmap. exists i. split; [done|].
    apply elem_of_seq. lia.
  - apply Forall_fmap, Forall_forall. intros k Hk%elem_of_seq. simpl. lia.
Qed.

Lemma seq_maximum (i n : nat) :
  0 < n → is_maximum (Z.of_nat (i + n - 1)) (Z.of_nat <$> seq i n).
Proof.
  intros Hn. split.
  - apply list_elem_of_fmap. exists (i + n - 1). split; [done|].
    apply elem_of_seq. lia.
  - apply Forall_fmap, Forall_forall. intros k Hk%elem_of_seq. simpl. lia.
Qed.

(** X3.  In a document without duplicate tokens, the offsets of the
    tokens at positions [i .. j-1], listed in any order, are [(i, j-1)]. *)
Theorem offsets_of_slice (tokens segment : list string) (i j : nat) :
  NoDup tokens →
  i < j ≤ length tokens →
  segment ≡ₚ take (j - i) (drop i tokens) →
  util.get_segment_token_offsets segment
    (util.id2index (util.TokenMapper_init tokens))
  = Ok (Z.of_nat i, Z.of_nat (j - 1)).
Proof.
  intros Hnd Hij Hperm.
  pose proof (slice_positions tokens i (j - i) Hnd) as Hpos.
  destruct (positions_mapped _ _ _ (Hpos ltac:(lia))) as [Hall Hmapped].
  rewrite (offsets_perm (take (j - i) (drop i tokens)) segment) by done.
  apply offsets_of_min_max; [done|..]; rewrite Hmapped.
  - apply seq_minimum. lia.
  - replace (j - 1) with (i + (j - i) - 1) by lia. apply seq_maximum. lia.
Qed.

Lemma offsets_of_slice_witness :
  util.get_segment_token_offsets ["t3"; "t2"]
    (util.id2index (util.TokenMapper_init ["t1"; "t2"; "t3"; "t4"]))
  = Ok (1%Z, 2%Z).
Proof.
  apply (offsets_of_slice ["t1"; "t2"; "t3"; "t4"] ["t3"; "t2"] 1 3).
  - by apply (bool_decide_unpack _).
  - simpl. lia.
  - apply Permutation_swap.
Defined.

(** ** [natural_sort_key] *)

(** No character is lost or added by the split. *)
Lemma split_go_join s b cur :
  str_join (util.split_go s b cur) = cur +:+ s.
Proof.
  revert b cur. induction s as [|c s IH]; intros b cur.
  - destruct b; simpl; [|done]. done.
  - simpl. destruct (util.is_digit c), b; simpl; rewrite IH.
    + by rewrite append_assoc.
    + done.
    + done.
    + by rewrite append_assoc.
Qed.

Lemma split_go_shape s :
  (∀ cur, digit_free cur = true →
     runs_alternate (util.split_go s false cur))
  ∧ (∀ cur, util.isdigit cur = true →
     ∃ d rest, util.split_go s true cur = d :: rest
       ∧ util.isdigit d = true ∧ runs_alternate rest).
Proof.
  induction s as [|c s [IHf IHt]].
  - split; intros cur Hcur; simpl; [done|].
    exists cur, [EmptyString]. done.
  - split; intros cur Hcur; simpl.
    + destruct (util.is_digit c) eqn:Hc.
      * destruct (IHt (String c EmptyString)) as (d & rest & -> & Hd & Hrest).
        { simpl. by rewrite Hc. }
        simpl. done.
      * apply IHf. rewrite digit_free_app, Hcur. simpl. by rewrite Hc.
    + destruct (util.is_digit c) eqn:Hc.
      * apply IHt, isdigit_snoc; auto.
      * exists cur, (util.split_go s false (String c EmptyString)).
        split; [done|]. split; [done|].
        apply IHf. simpl. by rewrite Hc.
Qed.

Lemma key_of_runs (l : list string) :
  runs_alternate l →
  key_alternates
    ((fun text => if util.isdigit text then KInt (util.int text)
                  else KStr text) <$> l).
Proof.
  induction l as [l IH] using (induction_ltof1 _ length).
  destruct l as [|t [|d rest]]; [done| |].
  - simpl. intros Ht. by rewrite (digit_free_not_isdigit t Ht).
  - intros (Ht & Hd & Hrest). cbn [fmap list_fmap].
    rewrite (digit_free_not_isdigit t Ht), Hd.
    apply IH; [|done]. unfold ltof. simpl. lia.
Qed.

(** X4. [re.split(INTEGER_RE, s)] cuts [s] into runs whose concatenation
    is [s] again; the runs alternate between digit-free text (possibly
    empty) and non-empty runs of digits, first and last a text run.  The
    key [natural_sort_key(s)] therefore holds strings at the even and ints
    at the odd indices, so that two keys are compared string with string
    and int with int, index by index. *)
Theorem re_split_alternates (s : string) :
  str_join (util.re_split_INTEGER_RE s) = s
  ∧ runs_alternate (util.re_split_INTEGER_RE s)
  ∧ key_alternates (util.natural_sort_key s).
Proof.
  assert (Hruns : runs_alternate (util.re_split_INTEGER_RE s)).
  { by apply (split_go_shape s). }
  split; [apply split_go_join|]. split; [done|].
  by apply key_of_runs.
Qed.

(** X5. Numbers inside ids are compared by value, not digit by digit.  For
    two strings with the same digit-free beginning [p] followed by the
    numbers [a] and [b] (non-empty runs of digits, up to the end of the
    string or a character that is no digit), the keys compare as the ints
    [a] and [b] do, whatever the number of digits; when the two ints are
    equal the rests of the strings decide. *)
Theorem natural_sort_numeric (p a b r1 r2 : string) :
  digit_free p = true →
  util.isdigit a = true → util.isdigit b = true →
  no_leading_digit r1 = true → no_leading_digit r2 = true →
  key_compare (util.natural_sort_key (p +:+ a +:+ r1))
              (util.natural_sort_key (p +:+ b +:+ r2))
  = match N.compare (util.int a) (util.int b) with
    | Eq => key_compare (util.natural_sort_key r1) (util.natural_sort_key r2)
    | c => c
    end.
Proof.
  intros Hp Ha Hb Hr1 Hr2. rewrite !natural_sort_key_number by done.
  cbn [key_compare item_compare]. by rewrite string_compare_refl.
Qed.

Lemma natural_sort_numeric_witness :
  key_compare (util.natural_sort_key ("markable_" +:+ "9" +:+ "_a"))
              (util.natural_sort_key ("markable_" +:+ "10" +:+ "_a"))
  = match N.compare (util.int "9") (util.int "10") with
    | Eq => key_compare (util.natural_sort_key "_a")
                        (util.natural_sort_key "_a")
    | c => c
    end.
Proof. apply natural_sort_numeric; reflexivity. Defined.

(** X6. Strings without digits are sorted as plain strings: the key of
    such a string is the string itself, alone in a list, and two such keys
    compare as the strings do. *)
Theorem natural_sort_text (s t : string) :
  digit_free s = true → digit_free t = true →
  util.natural_sort_key s = [KStr s]
  ∧ key_compare (util.natural_sort_key s) (util.natural_sort_key t)
    = String.compare s t.
Proof.
  assert (Hkey : ∀ u, digit_free u = true → util.natural_sort_key u = [KStr u]).
  { intros u Hu. unfold util.natural_sort_key, util.re_split_INTEGER_RE.
    rewrite <- (append_nil_r u) at 1. rewrite split_go_text by done.
    cbn [util.split_go fmap list_fmap]. rewrite append_nil_l.
    by rewrite (digit_free_not_isdigit u Hu). }
  intros Hs Ht. rewrite !Hkey by done. split; [done|].
  simpl. by destruct (String.compare s t).
Qed.

Lemma natural_sort_text_witness :
  util.natural_sort_key "primmark" = [KStr "primmark"]
  ∧ key_compare (util.natural_sort_key "primmark")
                (util.natural_sort_key "secmark")
    = String.compare "primmark" "secmark".
Proof. apply natural_sort_text; reflexivity. Defined.

(** ** [ensure_xpointer_compatibility] *)

Lemma sub_no_colon s : count_char ":" (util.FORBIDDEN_XPOINTER_RE_sub s) = 0.
Proof.
  induction s as [|c s IH]; [done|]. cbn [util.FORBIDDEN_XPOINTER_RE_sub count_char].
  rewrite IH. destruct (Ascii.eqb c ":") eqn:Hc; [done|]. by rewrite Hc.
Qed.

Lemma sub_length s :
  String.length (util.FORBIDDEN_XPOINTER_RE_sub s) = String.length s.
Proof. induction s as [|c s IH]; [done|]. simpl. by rewrite IH. Qed.

Lemma sub_colon_free s :
  count_char ":" s = 0 → util.FORBIDDEN_XPOINTER_RE_sub s = s.
Proof.
  induction s as [|c s IH]; [done|]. cbn [count_char util.FORBIDDEN_XPOINTER_RE_sub].
  destruct (Ascii.eqb c ":"); [done|]. intros H. by rewrite IH.
Qed.

Lemma sub_underscores s :
  count_char "_" (util.FORBIDDEN_XPOINTER_RE_sub s)
  = count_char "_" s + count_char ":" s.
Proof.
  induction s as [|c s IH]; [done|].
  cbn [count_char util.FORBIDDEN_XPOINTER_RE_sub]. rewrite IH.
  destruct (Ascii.eqb c ":") eqn:Hc.
  - apply Ascii.eqb_eq in Hc as ->. simpl. lia.
  - lia.
Qed.

Lemma sub_other (x : ascii) s :
  x ≠ ":"%char → x ≠ "_"%char →
  count_char x (util.FORBIDDEN_XPOINTER_RE_sub s) = count_char x s.
Proof.
  intros Hx1 Hx2. induction s as [|c s IH]; [done|].
  cbn [count_char util.FORBIDDEN_XPOINTER_RE_sub]. rewrite IH.
  destruct (Ascii.eqb c ":") eqn:Hc; [|done].
  apply Ascii.eqb_eq in Hc as ->.
  destruct (Ascii.eqb "_" x) eqn:E1; [by apply Ascii.eqb_eq in E1|].
  destruct (Ascii.eqb ":" x) eqn:E2; [by apply Ascii.eqb_eq in E2|]. done.
Qed.

(** X7. [ensure_xpointer_compatibility] returns an int id unchanged and a
    string id of the same length without any [':']: every colon has
    become an underscore and every other character is kept in place, so a
    colon-free id is returned as it is, and applying the function twice
    is the same as applying it once. *)
Theorem ensure_xpointer_compatibility_spec (node_id : util.NodeId) :
  util.ensure_xpointer_compatibility (util.ensure_xpointer_compatibility node_id)
  = util.ensure_xpointer_compatibility node_id
  ∧ match node_id with
    | util.IntId n => util.ensure_xpointer_compatibility node_id = util.IntId n
    | util.StrId s =>
        ∃ s', util.ensure_xpointer_compatibility node_id = util.StrId s'
          ∧ count_char ":" s' = 0
          ∧ String.length s' = String.length s
          ∧ count_char "_" s' = count_char "_" s + count_char ":" s
          ∧ (∀ x : ascii, x ≠ ":"%char → x ≠ "_"%char →
               count_char x s' = count_char x s)
          ∧ (count_char ":" s = 0 → s' = s)
    end.
Proof.
  destruct node_id as [n|s]; simpl; [done|]. split.
  - f_equal. apply sub_colon_free, sub_no_colon.
  - eexists. split; [done|].
    split; [apply sub_no_colon|]. split; [apply sub_length|].
    split; [apply sub_underscores|]. split; [intros x; apply sub_other|].
    apply sub_colon_free.
Qed.

(** ** [add_prefix] *)

Lemma add_prefix_kmap {V : Type} (d : gmap string V) (prefix : string) :
  util.add_prefix d prefix = kmap (String.append prefix) d.
Proof.
  reflexivity.
Qed.

(** X8. [add_prefix] renames the keys and nothing else: the value under
    [prefix + k] in the result is the value under [k] in the input, every
    key of the result is [prefix + k] for a key [k] of the input, and the
    result has as many entries as the input (no two keys collide). *)
Theorem add_prefix_lookup {V : Type} (d : gmap string V) (prefix : string) :
  (∀ k, util.add_prefix d prefix !! (prefix +:+ k) = d !! k)
  ∧ (∀ k' v, util.add_prefix d prefix !! k' = Some v
       ↔ ∃ k, k' = prefix +:+ k ∧ d !! k = Some v)
  ∧ size (util.add_prefix d prefix) = size d.
Proof.
  rewrite add_prefix_kmap. split; [|split].
  - intros k. apply (lookup_kmap (String.append prefix)).
  - intros k' v. apply (lookup_kmap_Some (String.append prefix)).
  - rewrite <- !length_map_to_list.
    rewrite (map_to_list_kmap (String.append prefix)).
    by rewrite length_fmap.
Qed.

(** X9. Prefixes accumulate: adding [p] and then [q] is adding [q + p] at
    once, and adding the empty prefix changes nothing. *)
Theorem add_prefix_compose {V : Type} (d : gmap string V) (p q : string) :
  util.add_prefix (util.add_prefix d p) q = util.add_prefix d (q +:+ p)
  ∧ util.add_prefix d EmptyString = d.
Proof.
  split.
  - apply map_eq. intros j. apply option_eq. intros v.
    rewrite !add_prefix_kmap.
    rewrite !(lookup_kmap_Some (String.append _)). split.
    + intros (k1 & -> & Hk1).
      apply (lookup_kmap_Some (String.append _)) in Hk1 as (k & -> & Hk).
      exists k. by rewrite append_assoc.
    + intros (k & -> & Hk). exists (p +:+ k). rewrite append_assoc.
      split; [done|]. by rewrite (lookup_kmap (String.append p)).
  - apply map_eq. intros j. rewrite add_prefix_kmap.
    change j with (EmptyString +:+ j) at 1.
    apply (lookup_kmap (String.append EmptyString)).
Qed.
(** ** readwrite/brackets.py: [gen_bracket_mappings] *)

Lemma span_tokens_ne (d : brackets.DocGraph) (m : string) :
  brackets.span_tokens d m ≠ []
  ↔ ∃ span, brackets.span_attr d m = Ok span
            ∧ brackets.spanstring2tokens d span ≠ [].
Proof.
  unfold brackets.span_tokens.
  destruct (brackets.span_attr d m) as [span|e].
  - split; [by exists span|]. by intros (span' & [= <-] & ?).
  - split; [done|]. by intros (span' & ? & _).
Qed.

Lemma chain_steps_empty (chains : list (list string))
    (m2c : gmap string string) :
  Exists (fun chain => chain = []) chains →
  for_each brackets.chain_step m2c chains = Raise IndexError.
Proof.
  intros Hex. revert m2c.
  induction chains as [|ch chains IH]; intros m2c; [by inversion Hex|].
  destruct ch as [|x ch]; [done|]. cbn [for_each].
  unfold brackets.chain_step at 1. cbn [item_first rbind].
  apply IH. by inversion Hex.
Qed.

(** X10. [gen_bracket_mappings] returns its three dicts exactly when no
    chain is empty and every markable of the chains has a span attribute
    that can be read, [docgraph.node[markable][docgraph.ns+':span']],
    with at least one token.  With an empty chain it raises the
    [IndexError] of [chain[0]].  Otherwise it raises at the first
    markable, in the order of processing, that is no node or has no span
    attribute, with the [KeyError] of the subscript, or whose span has no
    token, with the [IndexError] of [span_tokens[0]].  It raises nothing
    else. *)
Theorem gen_bracket_mappings_errors (d : brackets.DocGraph) :
  ((∃ o c m2c, brackets.gen_bracket_mappings d = Ok (o, c, m2c))
   ↔ Forall (fun chain => chain ≠ []) (brackets.pointing_chains d)
     ∧ Forall (fun m => ∃ span,
                 brackets.span_attr d m = Ok span
                 ∧ brackets.spanstring2tokens d span ≠ [])
              (chain (brackets.pointing_chains d)))
  ∧ (Exists (fun chain => chain = []) (brackets.pointing_chains d) →
     brackets.gen_bracket_mappings d = Raise IndexError)
  ∧ (Forall (fun chain => chain ≠ []) (brackets.pointing_chains d) →
     ∀ e, brackets.gen_bracket_mappings d = Raise e
          ↔ ∃ pre m post,
              brackets.sorted_markables d = pre ++ m :: post
              ∧ Forall (fun m => ∃ span,
                          brackets.span_attr d m = Ok span
                          ∧ brackets.spanstring2tokens d span ≠ []) pre
              ∧ ((e = KeyError ∧ brackets.span_attr d m = Raise KeyError)
                 ∨ (e = IndexError
                    ∧ ∃ span, brackets.span_attr d m = Ok span
                              ∧ brackets.spanstring2tokens d span = [])))
  ∧ (∀ e, brackets.gen_bracket_mappings d = Raise e →
          e = IndexError ∨ e = KeyError).
Proof.
  assert (Hspans : ∀ l,
    Forall (fun m => brackets.span_tokens d m ≠ []) l
    ↔ Forall (fun m => ∃ span,
                brackets.span_attr d m = Ok span
                ∧ brackets.spanstring2tokens d span ≠ []) l).
  { intros l. rewrite !Forall_forall. by setoid_rewrite span_tokens_ne. }
  assert (Hsorted :
    Forall (fun m => brackets.span_tokens d m ≠ [])
           (brackets.sorted_markables d)
    ↔ Forall (fun m => brackets.span_tokens d m ≠ [])
             (chain (brackets.pointing_chains d))).
  { rewrite !Forall_forall. by setoid_rewrite sorted_markables_elem. }
  split; [split|split; [|split]].
  - intros (o & c & m2c & Hg). split.
    + unfold brackets.gen_bracket_mappings in Hg.
      destruct (for_each brackets.chain_step _ _) as [m2c'|] eqn:Hch; [|done].
      by apply chain_steps_spec in Hch as (? & _).
    + apply Hspans, Hsorted.
      by apply gen_bracket_mappings_spec in Hg as (_ & _ & _ & _ & ? & _).
  - intros [Hch Hsp]. apply gen_bracket_mappings_total; [done|].
    by apply Hsorted, Hspans.
  - intros Hex. unfold brackets.gen_bracket_mappings.
    by rewrite chain_steps_empty.
  - intros Hch e. unfold brackets.gen_bracket_mappings.
    destruct (chain_steps_total _ ∅ Hch) as [m2c ->]. cbn [rbind].
    pose proof (markable_steps_raise d (brackets.sorted_markables d)
                  (∅, ∅) e) as Hm.
    destruct (for_each (brackets.markable_step d) _ _) as [[o c]|e2];
      cbn [rbind].
    + split; [done|]. intros (pre & m & post & H1 & H2 & H3).
      apply Hspans in H2.
      pose proof (proj2 Hm (ex_intro _ pre (ex_intro _ m (ex_intro _ post
                    (conj H1 (conj H2 H3)))))) as Habs.
      done.
    + split.
      * intros [= ->]. destruct (proj1 Hm eq_refl)
          as (pre & m & post & H1 & H2 & H3).
        apply Hspans in H2. by exists pre, m, post.
      * intros (pre & m & post & H1 & H2 & H3). apply Hspans in H2.
        pose proof (proj2 Hm (ex_intro _ pre (ex_intro _ m (ex_intro _ post
                      (conj H1 (conj H2 H3)))))) as Habs.
        by injection Habs as ->.
  - apply gen_bracket_mappings_raise.
Qed.

Example unknown_markable_KeyError :
  brackets.gen_bracket_mappings unknown_markable = Raise KeyError
  ∧ brackets.gen_bracketed_output unknown_markable = Raise KeyError
  ∧ brackets.gen_bracket_mappings empty_chain = Raise IndexError.
Proof. repeat split; reflexivity. Qed.

Lemma chain_steps_last (chains : list (list string))
    (m2c m2c' : gmap string string) (m : string) (i : nat)
    (ch : list string) :
  for_each brackets.chain_step m2c chains = Ok m2c' →
  chains !! i = Some ch → m ∈ ch →
  (∀ j ch', i < j → chains !! j = Some ch' → m ∉ ch') →
  m2c' !! m = head ch.
Proof.
  revert m2c i. induction chains as [|c0 chains IH]; intros m2c i; [done|].
  cbn [for_each]. destruct c0 as [|chain_id c0]; [done|].
  unfold brackets.chain_step at 1. cbn [item_first rbind].
  set (m1 := foldl _ m2c (chain_id :: c0)).
  intros Hrest Hi Hm Hlater. destruct i as [|i].
  - injection Hi as <-.
    assert (Hm1 : m1 !! m = Some chain_id).
    { unfold m1. rewrite chain_fold_lookup. by rewrite decide_True. }
    destruct (chain_steps_spec _ _ _ Hrest) as (_ & _ & Hkeep & Hfrom).
    destruct (Hkeep m) as [x Hx]; [by eexists|].
    destruct (Hfrom m x Hx) as [Hold|(ch' & Hin & Hmch' & _)].
    + simpl. congruence.
    + apply list_elem_of_lookup in Hin as [j Hj].
      exfalso. apply (Hlater (S j) ch'); [lia|done|done].
  - apply (IH m1 i); [done|done|done|].
    intros j ch' Hij Hj. apply (Hlater (S j) ch'); [lia|done].
Qed.

(** X11. [markable2chain] has an entry exactly for the markables of the
    chains, and a markable is labelled with the first element of the last
    chain that contains it: a markable listed in several chains bears the
    id of the last of them. *)
Theorem markable2chain_last_chain (d : brackets.DocGraph)
    (o c : gmap string (list string)) (m2c : gmap string string) :
  brackets.gen_bracket_mappings d = Ok (o, c, m2c) →
  (∀ m, is_Some (m2c !! m) ↔ m ∈ chain (brackets.pointing_chains d))
  ∧ (∀ m i ch,
       brackets.pointing_chains d !! i = Some ch → m ∈ ch →
       (∀ j ch', i < j → brackets.pointing_chains d !! j = Some ch' →
                 m ∉ ch') →
       m2c !! m = head ch).
Proof.
  intros Hg. split.
  - intros m.
    destruct (gen_bracket_mappings_spec _ _ _ _ Hg)
      as (_ & _ & _ & _ & _ & Hdom & Hfrom).
    split.
    + intros [x Hx]. destruct (Hfrom m x Hx) as (ch & Hch & Hm & _).
      apply list_elem_of_In, in_concat. exists ch.
      by rewrite <- !list_elem_of_In.
    + intros Hm. by apply Hdom, sorted_markables_elem.
  - intros m i ch Hi Hm Hlater.
    unfold brackets.gen_bracket_mappings in Hg.
    destruct (for_each brackets.chain_step _ _) as [m2c'|] eqn:Hch; [|done].
    cbn [rbind] in Hg.
    destruct (for_each (brackets.markable_step d) _ _) as [[o' c']|]; [|done].
    cbn [rbind] in Hg. injection Hg as _ _ <-.
    by apply (chain_steps_last _ _ _ _ _ _ Hch Hi Hm Hlater).
Qed.

Lemma markable2chain_last_chain_witness :
  ∃ o c m2c,
    brackets.gen_bracket_mappings shared_markable = Ok (o, c, m2c)
    ∧ m2c !! "m2" = Some "m3"
    ∧ m2c !! "m1" = Some "m1".
Proof.
  eexists _, _, _. split; [vm_compute; reflexivity|].
  match goal with
  | |- ?m2c !! _ = _ ∧ _ =>
      destruct (markable2chain_last_chain shared_markable _ _ m2c eq_refl)
        as [_ Hlast]
  end.
  split.
  - apply (Hlast "m2" 1 ["m3"; "m2"]).
    + reflexivity.
    + apply list_elem_of_further, list_elem_of_here.
    + intros j ch' Hj Hch'. destruct j as [|[|j]]; [lia|lia|done].
  - apply (Hlast "m1" 0 ["m1"; "m2"]).
    + reflexivity.
    + apply list_elem_of_here.
    + intros j ch' Hj Hch'. destruct j as [|[|j]]; [lia| |done].
      injection Hch' as <-. by apply (bool_decide_unpack _).
Defined.

(** ** [gen_closing_string] *)

(** X12. [gen_closing_string] pops as many markables as [closing_dict]
    lists for the token.  With fewer markables on the stack it raises the
    [IndexError] of [pop]; with enough of them it raises [KeyError] when
    one of the popped markables has no chain, and otherwise returns one
    closing group per popped markable, topmost first, and leaves the
    stack without them. *)
Theorem gen_closing_string_spec (closing_dict : gmap string (list string))
    (markable2chain : gmap string string) (token_id : string)
    (stack : list string) :
  let n := length (default [] (closing_dict !! token_id)) in
  let popped := take n (reverse stack) in
  (length stack < n →
   brackets.gen_closing_string closing_dict markable2chain token_id stack
   = Raise IndexError)
  ∧ (n ≤ length stack →
     Exists (fun m => markable2chain !! m = None) popped →
     brackets.gen_closing_string closing_dict markable2chain token_id stack
     = Raise KeyError)
  ∧ (n ≤ length stack →
     ∀ chain_ids,
       Forall2 (fun m chain_id => markable2chain !! m = Some chain_id)
               popped chain_ids →
       brackets.gen_closing_string closing_dict markable2chain token_id stack
       = Ok (str_join (brackets.closing_group <$> chain_ids),
             take (length stack - n) stack)).
Proof.
  intros n popped. unfold brackets.gen_closing_string. fold n.
  split; [|split].
  - intros Hlt. by rewrite pop_n_short.
  - intros Hle Hex. rewrite pop_n_enough by done. cbn [rbind].
    fold popped. by rewrite comprehension_getitem_Raise.
  - intros Hle chain_ids HF. rewrite pop_n_enough by done. cbn [rbind].
    fold popped.
    assert (Hc : comprehension (getitem markable2chain) popped = Ok chain_ids).
    { clear -HF. induction HF as [|m id ms ids Hm _ IH]; [done|].
      simpl. unfold getitem at 1. rewrite Hm. cbn [rbind]. by rewrite IH. }
    by rewrite Hc.
Qed.

Lemma gen_closing_string_spec_witness :
  brackets.gen_closing_string {["w3" := ["markable_22"]]}
    {["markable_21" := "markable_21"; "markable_22" := "markable_22"]}
    "w3" ["markable_21"; "markable_22"]
  = Ok ("]_{markable_22}", ["markable_21"]).
Proof.
  destruct (gen_closing_string_spec {["w3" := ["markable_22"]]}
    {["markable_21" := "markable_21"; "markable_22" := "markable_22"]}
    "w3" ["markable_21"; "markable_22"]) as (_ & _ & Hok).
  apply (Hok ltac:(vm_compute; lia) ["markable_22"]).
  vm_compute. repeat constructor.
Defined.

(** ** [gen_bracketed_output] without markables *)

Lemma scan_no_markables (d : brackets.DocGraph) (l : list string)
    (ret : string) :
  brackets.scan d ∅ ∅ ∅ (ret, []) l
  = Ok (ret +:+ str_join ((fun t => brackets.get_token d t +:+ " ") <$> l),
        []).
Proof.
  revert ret. induction l as [|t l IH]; intros ret.
  - simpl. by rewrite append_nil_r.
  - unfold brackets.scan in *. cbn [for_each].
    unfold brackets.token_step at 1. rewrite !lookup_empty. cbn [rbind].
    rewrite IH. cbn [fmap list_fmap str_join foldr].
    by rewrite !append_assoc.
Qed.

(** X13. A document graph without pointing chains is rendered as its
    tokens in document order, each followed by one blank, and no bracket
    is added. *)
Theorem no_markables_plain_text (d : brackets.DocGraph) :
  brackets.pointing_chains d = [] →
  brackets.gen_bracketed_output d
  = Ok (str_join ((fun t => brackets.get_token d t +:+ " ")
                    <$> brackets.tokens d)).
Proof.
  intros Hch. unfold brackets.gen_bracketed_output.
  unfold brackets.gen_bracket_mappings, brackets.sorted_markables.
  rewrite Hch. cbn [for_each chain concat sorted foldr rbind].
  by rewrite scan_no_markables.
Qed.

Lemma no_markables_plain_text_witness :
  brackets.gen_bracketed_output
    {| brackets.tokens := ["w1"; "w2"];
       brackets.get_token := fun t =>
         if decide (t = "w1") then "teuer" else "die";
       brackets.pointing_chains := [];
       brackets.ns := "mmax";
       brackets.node := ∅;
       brackets.spanstring2tokens := fun s => [] |}
  = Ok "teuer die ".
Proof.
  etrans; [apply no_markables_plain_text; reflexivity|].
  vm_compute. reflexivity.
Defined.
(** ** The shape of the output of [gen_bracketed_output] *)

Lemma scan_pieces (d : brackets.DocGraph) (o c : gmap string (list string))
    (m2c : gmap string string) (l : list string) (ret ret' : string)
    (stack stack' : list string) :
  brackets.gen_bracket_mappings d = Ok (o, c, m2c) →
  Forall (fun m => is_Some (m2c !! m)) stack →
  brackets.scan d o c m2c (ret, stack) l = Ok (ret', stack') →
  ∃ groups,
    Forall2 (fun t ids =>
               length ids = length (closes_at d t)
               ∧ Forall (fun id => ∃ m, m2c !! m = Some id) ids) l groups
    ∧ ret' = ret +:+ str_join (zip_with (token_piece d) l groups).
Proof.
  intros Hg. destruct (gen_bracket_mappings_spec _ _ _ _ Hg)
    as (Ho & Hc & _).
  revert ret stack. induction l as [|t l IH]; intros ret stack Hk Hscan.
  - injection Hscan as <- <-. exists []. split; [constructor|].
    by rewrite append_nil_r.
  - unfold brackets.scan in Hscan. cbn [for_each] in Hscan.
    destruct (decide (length (default [] (c !! t))
                      ≤ length (stack ++ default [] (o !! t)))) as [Hle|Hgt].
    + destruct (token_step_enough d o c m2c Hg ret stack t Hk Hle)
        as (ids & HF & Hstep).
      rewrite Hstep in Hscan. cbn [rbind] in Hscan.
      apply IH in Hscan as (groups & Hgroups & ->).
      * exists (ids :: groups). split.
        -- constructor; [|done]. split.
           ++ apply Forall2_length in HF.
              rewrite length_take, length_reverse in HF. rewrite <- Hc. lia.
           ++ clear -HF. induction HF as [|m id ms ids' Hm _ IH'];
                constructor; [by exists m|done].
        -- cbn [zip_with str_join foldr]. rewrite render_token_events.
           unfold token_piece at 2. rewrite <- Ho.
           by rewrite !append_assoc.
      * apply Forall_take, Forall_app. split; [done|].
        apply (opens_known d o c m2c Hg).
    + rewrite (token_step_short d o c m2c) in Hscan by lia. done.
Qed.

(** X14. Whenever [gen_bracketed_output] returns a string, the string is
    the concatenation, in document order, of one piece per token: as many
    opening brackets as markables open at the token, the token string, as
    many closing groups as markables close at the token, each labelled
    with the first element of one of the chains, and a blank.  Nothing
    else is written. *)
Theorem output_pieces (d : brackets.DocGraph) (s : string) :
  brackets.gen_bracketed_output d = Ok s →
  ∃ groups,
    Forall2 (fun t ids =>
               length ids = length (closes_at d t)
               ∧ Forall (fun id => ∃ ch, ch ∈ brackets.pointing_chains d
                                         ∧ head ch = Some id) ids)
            (brackets.tokens d) groups
    ∧ s = str_join (zip_with (token_piece d) (brackets.tokens d) groups).
Proof.
  intros Hout.
  destruct (brackets.gen_bracket_mappings d) as [[[o c] m2c]|] eqn:Hg;
    [|by unfold brackets.gen_bracketed_output in Hout; rewrite Hg in Hout].
  rewrite (gen_bracketed_output_eq d o c m2c Hg) in Hout.
  destruct (brackets.scan _ _ _ _ _ _) as [[ret stack]|] eqn:Hscan; [|done].
  cbn [rbind] in Hout. injection Hout as ->.
  apply (scan_pieces d o c m2c _ _ _ _ _ Hg) in Hscan
    as (groups & Hgroups & ->); [|constructor].
  exists groups. split; [|done].
  destruct (gen_bracket_mappings_spec _ _ _ _ Hg)
    as (_ & _ & _ & _ & _ & _ & Hfrom).
  eapply Forall2_impl; [exact Hgroups|].
  intros t ids [Hlen Hids]. split; [done|].
  eapply Forall_impl; [exact Hids|].
  intros id [m Hm]. destruct (Hfrom m id Hm) as (ch & Hch & _ & Hhead).
  by exists ch.
Qed.

Lemma output_pieces_witness :
  ∃ groups,
    Forall2 (fun t ids =>
               length ids = length (closes_at stadthalle t)
               ∧ Forall (fun id => ∃ ch, ch ∈ brackets.pointing_chains stadthalle
                                         ∧ head ch = Some id) ids)
            (brackets.tokens stadthalle) groups
    ∧ "teuer [die [Wittstocker]_{markable_22} Stadthalle]_{markable_21} wird "
      = str_join (zip_with (token_piece stadthalle)
                           (brackets.tokens stadthalle) groups).
Proof. apply (output_pieces stadthalle). reflexivity. Defined.
(** ** Closing groups under proper nesting *)

Lemma filter_ext_in {A : Type} (P Q : A → Prop)
    `{!∀ x, Decision (P x), !∀ x, Decision (Q x)} (l : list A) :
  (∀ x, x ∈ l → (P x ↔ Q x)) → filter P l = filter Q l.
Proof.
  induction l as [|x l IH]; intros Hall; [done|].
  rewrite !filter_cons.
  assert (HPQ : P x ↔ Q x) by (apply Hall, list_elem_of_here).
  rewrite IH by (intros y Hy; apply Hall; by apply list_elem_of_further).
  destruct (decide (P x)), (decide (Q x)); try done; exfalso; tauto.
Qed.

Lemma filter_none {A : Type} (P : A → Prop) `{!∀ x, Decision (P x)}
    (l : list A) :
  (∀ x, x ∈ l → ¬ P x) → filter P l = [].
Proof.
  induction l as [|x l IH]; intros Hall; [done|].
  rewrite filter_cons, decide_False by (apply Hall, list_elem_of_here).
  apply IH. intros y Hy. by apply Hall, list_elem_of_further.
Qed.

Lemma filter_union_perm {A : Type} (P Q R : A → Prop)
    `{!∀ x, Decision (P x), !∀ x, Decision (Q x), !∀ x, Decision (R x)}
    (l : list A) :
  (∀ x, x ∈ l → (P x ∨ Q x ↔ R x) ∧ ¬ (P x ∧ Q x)) →
  filter P l ++ filter Q l ≡ₚ filter R l.
Proof.
  induction l as [|x l IH]; intros Hall; [done|].
  destruct (Hall x) as [HR Hdisj]; [apply list_elem_of_here|].
  assert (IH' : filter P l ++ filter Q l ≡ₚ filter R l).
  { apply IH. intros y Hy. by apply Hall, list_elem_of_further. }
  rewrite !filter_cons.
  destruct (decide (P x)), (decide (Q x)), (decide (R x));
    try (exfalso; tauto).
  - simpl. by rewrite IH'.
  - rewrite <- Permutation_middle. by rewrite IH'.
  - done.
Qed.

Lemma StronglySorted_reverse {A : Type} (R : A → A → Prop) (l : list A) :
  StronglySorted R l → StronglySorted (flip R) (reverse l).
Proof.
  induction 1 as [|x l Hl IH Hx]; [constructor|].
  rewrite reverse_cons. apply StronglySorted_app_2; [|done|repeat constructor].
  intros y z Hy ->%list_elem_of_singleton. unfold flip.
  rewrite Forall_forall in Hx. apply Hx. by apply elem_of_reverse.
Qed.

Lemma StronglySorted_filter_index {A : Type} (R : A → A → Prop)
    (P : A → Prop) `{!∀ x, Decision (P x)} (l : list A) :
  (∀ i1 i2 x y, i1 < i2 → l !! i1 = Some x → l !! i2 = Some y →
                P x → P y → R x y) →
  StronglySorted R (filter P l).
Proof.
  induction l as [|x l IH]; intros Hall; [constructor|].
  rewrite filter_cons.
  assert (IH' : StronglySorted R (filter P l)).
  { apply IH. intros i1 i2 a b Hlt H1 H2.
    apply (Hall (S i1) (S i2)); [lia|done|done]. }
  destruct (decide (P x)) as [Hx|]; [|done].
  constructor; [done|]. apply Forall_forall.
  intros y [Hy Hin]%list_elem_of_filter.
  apply list_elem_of_lookup in Hin as [j Hj].
  by apply (Hall 0 (S j)); [lia|..].
Qed.

Lemma sorted_split {A : Type} (f : A → nat) (p : nat) (l : list A) :
  StronglySorted (fun x y => f y ≤ f x) l →
  Forall (fun x => p ≤ f x) l →
  l = filter (fun x => f x ≠ p) l ++ filter (fun x => f x = p) l.
Proof.
  induction 1 as [|x l Hl IH Hx]; intros Hp; [done|].
  apply Forall_cons in Hp as [Hpx Hp]. specialize (IH Hp).
  rewrite !filter_cons.
  destruct (decide (f x = p)) as [Heq|Hne];
    destruct (decide (f x ≠ p)) as [Hne'|Hnn]; try done.
  - rewrite (filter_none (fun x => f x ≠ p)) in IH |- *.
    + simpl in *. by f_equal.
    + intros y Hy Hyp. rewrite Forall_forall in Hx, Hp.
      specialize (Hx y Hy). specialize (Hp y Hy). simpl in *. lia.
    + intros y Hy Hyp. rewrite Forall_forall in Hx, Hp.
      specialize (Hx y Hy). specialize (Hp y Hy). simpl in *. lia.
  - simpl. by f_equal.
Qed.

Section Attribution.
Context (d : brackets.DocGraph).
Hypothesis Hwn : well_nested d.
Hypothesis Hof : outermost_first d.

Lemma markable_positions (m : string) :
  m ∈ brackets.sorted_markables d →
  ∃ first lst,
    head (brackets.span_tokens d m) = Some first
    ∧ last (brackets.span_tokens d m) = Some lst
    ∧ brackets.tokens d !! first_position d m = Some first
    ∧ brackets.tokens d !! last_position d m = Some lst
    ∧ first_position d m ≤ last_position d m.
Proof.
  intros Hm. destruct Hwn as (_ & _ & Hsp & _).
  rewrite Forall_forall in Hsp. specialize (Hsp _ Hm).
  unfold first_position, last_position.
  destruct (span_positions d m) as [[i j]|] eqn:Hpos; [|done].
  unfold span_positions in Hpos.
  destruct (head _) as [first|]; [|done].
  destruct (last _) as [lst|]; [|done]. cbn [mbind option_bind] in Hpos.
  destruct (position d first) as [i'|] eqn:Hi; [|done].
  destruct (position d lst) as [j'|] eqn:Hj; [|done].
  cbn [mbind option_bind] in Hpos. injection Hpos as -> ->.
  exists first, lst. simpl. repeat split; try done; by apply position_Some.
Qed.

Lemma no_crossing (m1 m2 : string) :
  m1 ∈ brackets.sorted_markables d → m2 ∈ brackets.sorted_markables d →
  first_position d m1 < first_position d m2 →
  first_position d m2 ≤ last_position d m1 →
  last_position d m2 ≤ last_position d m1.
Proof.
  intros H1 H2. destruct Hwn as (_ & _ & _ & Hcr).
  rewrite Forall_forall in Hcr. specialize (Hcr _ H1).
  rewrite Forall_forall in Hcr. specialize (Hcr _ H2).
  unfold first_position, last_position.
  destruct (span_positions d m1) as [[i1 j1]|],
           (span_positions d m2) as [[i2 j2]|];
    unfold crossing in *; simpl in *; lia.
Qed.

Lemma opens_at_position (p : nat) (t : string) :
  brackets.tokens d !! p = Some t →
  opens_at d t
  = filter (fun m => first_position d m = p) (brackets.sorted_markables d).
Proof.
  intros Hp. unfold opens_at. apply filter_ext_in. intros m Hm.
  destruct (markable_positions m Hm) as (first & lst & Hh & _ & Hi & _).
  rewrite Hh. destruct Hwn as (Hnd & _). split.
  - intros [= ->]. by apply (NoDup_lookup _ _ _ _ Hnd Hi Hp).
  - intros <-. congruence.
Qed.

Lemma closes_at_position (p : nat) (t : string) :
  brackets.tokens d !! p = Some t →
  closes_at d t
  = filter (fun m => last_position d m = p) (brackets.sorted_markables d).
Proof.
  intros Hp. unfold closes_at. apply filter_ext_in. intros m Hm.
  destruct (markable_positions m Hm) as (first & lst & _ & Hl & _ & Hj & _).
  rewrite Hl. destruct Hwn as (Hnd & _). split.
  - intros [= ->]. by apply (NoDup_lookup _ _ _ _ Hnd Hj Hp).
  - intros <-. congruence.
Qed.

(** One round of the loop on the stack: the markables that reach over
    the boundary in front of the token, outermost first, become those
    that reach over the boundary behind it, and the ones popped are those
    that close at the token. *)
Lemma stack_step (p : nat) (t : string) (stack : list string) :
  brackets.tokens d !! p = Some t →
  stack ≡ₚ filter (spans_boundary d p) (brackets.sorted_markables d) →
  StronglySorted (fun x y => last_position d y ≤ last_position d x) stack →
  StronglySorted (fun x y => first_position d x ≤ first_position d y) stack →
  let st := stack ++ opens_at d t in
  let n := length (closes_at d t) in
  n ≤ length st
  ∧ take n (reverse st) ≡ₚ closes_at d t
  ∧ StronglySorted (fun x y => first_position d y ≤ first_position d x)
                   (take n (reverse st))
  ∧ take (length st - n) st
    ≡ₚ filter (spans_boundary d (S p)) (brackets.sorted_markables d)
  ∧ StronglySorted (fun x y => last_position d y ≤ last_position d x)
                   (take (length st - n) st)
  ∧ StronglySorted (fun x y => first_position d x ≤ first_position d y)
                   (take (length st - n) st).
Proof.
  intros Hp Hperm HsL HsF st n.
  assert (Hin : ∀ m, m ∈ stack →
            m ∈ brackets.sorted_markables d ∧ spans_boundary d p m).
  { intros m Hm. rewrite Hperm in Hm.
    apply list_elem_of_filter in Hm. tauto. }
  assert (Hopen : ∀ m, m ∈ opens_at d t →
            m ∈ brackets.sorted_markables d ∧ first_position d m = p).
  { intros m Hm. rewrite (opens_at_position p t Hp) in Hm.
    apply list_elem_of_filter in Hm. tauto. }
  assert (Hst : st ≡ₚ filter (fun m => first_position d m ≤ p
                                       ∧ p ≤ last_position d m)
                             (brackets.sorted_markables d)).
  { unfold st. rewrite Hperm, (opens_at_position p t Hp).
    apply filter_union_perm. intros m Hm.
    destruct (markable_positions m Hm) as (_ & _ & _ & _ & _ & _ & Hle).
    unfold spans_boundary. lia. }
  assert (HstL : StronglySorted
            (fun x y => last_position d y ≤ last_position d x) st).
  { apply StronglySorted_app_2; [|done|].
    - intros x y [Hx Hxp]%Hin [Hy Hyp]%Hopen. unfold spans_boundary in Hxp.
      apply no_crossing; [done|done|lia|lia].
    - rewrite (opens_at_position p t Hp). apply StronglySorted_filter_index.
      intros i1 i2 x y Hlt H1 H2 Hx Hy.
      apply (Hof i1 i2); [done|done|done|congruence]. }
  assert (HstF : StronglySorted
            (fun x y => first_position d x ≤ first_position d y) st).
  { apply StronglySorted_app_2; [|done|].
    - intros x y [Hx Hxp]%Hin [Hy Hyp]%Hopen. unfold spans_boundary in Hxp.
      lia.
    - rewrite (opens_at_position p t Hp). apply StronglySorted_filter_index.
      intros i1 i2 x y Hlt H1 H2 Hx Hy. lia. }
  assert (Hge : Forall (fun m => p ≤ last_position d m) st).
  { apply Forall_forall. intros m Hm. rewrite Hst in Hm.
    apply list_elem_of_filter in Hm. tauto. }
  pose proof (sorted_split (last_position d) p st HstL Hge) as Hsplit.
  set (A := filter (fun x => last_position d x ≠ p) st) in *.
  set (B := filter (fun x => last_position d x = p) st) in *.
  assert (HB : B ≡ₚ closes_at d t).
  { unfold B. rewrite Hst, list_filter_filter, (closes_at_position p t Hp).
    erewrite filter_ext_in; [done|]. intros m Hm.
    destruct (markable_positions m Hm) as (_ & _ & _ & _ & _ & _ & Hle).
    simpl. lia. }
  assert (HlenB : length B = n) by (unfold n; by rewrite HB).
  assert (Hlen : length st = length A + n).
  { rewrite Hsplit at 1. rewrite length_app. lia. }
  assert (Hrev : take n (reverse st) = reverse B).
  { rewrite Hsplit, reverse_app. apply take_app_length'.
    by rewrite length_reverse. }
  assert (Htake : take (length st - n) st = A).
  { rewrite Hlen. rewrite Hsplit. apply take_app_length'. lia. }
  rewrite Hrev, Htake. split; [lia|]. split; [|split; [|split; [|split]]].
  - by rewrite reverse_Permutation.
  - apply (StronglySorted_reverse
             (fun x y => first_position d x ≤ first_position d y)).
    by apply StronglySorted_filter.
  - unfold A. rewrite Hst, list_filter_filter.
    erewrite filter_ext_in; [done|]. intros m Hm.
    destruct (markable_positions m Hm) as (_ & _ & _ & _ & _ & _ & Hle).
    unfold spans_boundary. simpl. lia.
  - by apply StronglySorted_filter.
  - by apply StronglySorted_filter.
Qed.

Lemma scan_attributed (o c : gmap string (list string))
    (m2c : gmap string string) (P rest : list string) :
  brackets.gen_bracket_mappings d = Ok (o, c, m2c) →
  brackets.tokens d = P ++ rest →
  ∃ ret stack popped groups,
    brackets.scan d o c m2c (EmptyString, []) P = Ok (ret, stack)
    ∧ stack ≡ₚ filter (spans_boundary d (length P))
                      (brackets.sorted_markables d)
    ∧ StronglySorted (fun x y => last_position d y ≤ last_position d x) stack
    ∧ StronglySorted (fun x y => first_position d x ≤ first_position d y)
                     stack
    ∧ Forall2 (fun t ps =>
                 ps ≡ₚ closes_at d t
                 ∧ StronglySorted
                     (fun x y => first_position d y ≤ first_position d x) ps)
              P popped
    ∧ Forall2 (Forall2 (fun m id => m2c !! m = Some id)) popped groups
    ∧ ret = str_join (zip_with (token_piece d) P groups).
Proof.
  intros Hg. revert rest.
  induction P as [|t P IH] using rev_ind; intros rest Htok.
  - exists EmptyString, [], [], []. split; [done|]. split.
    { rewrite filter_none; [done|]. intros m _ [H _]. simpl in H. lia. }
    repeat split; constructor.
  - rewrite <- app_assoc in Htok. simpl in Htok.
    destruct (IH _ Htok)
      as (ret & stack & popped & groups & Hscan & Hperm & HsL & HsF
          & Hpop & Hgr & Hret).
    assert (Hp : brackets.tokens d !! length P = Some t).
    { rewrite Htok. by apply list_lookup_middle. }
    destruct (stack_step _ _ _ Hp Hperm HsL HsF)
      as (Hn & Hpopped & Hpsorted & Hperm' & HsL' & HsF').
    destruct (gen_bracket_mappings_spec _ _ _ _ Hg)
      as (Ho & Hc & _ & _ & _ & Hdom & _).
    assert (Hk : Forall (fun m => is_Some (m2c !! m)) stack).
    { apply Forall_forall. intros m Hm. apply Hdom. rewrite Hperm in Hm.
      by apply list_elem_of_filter in Hm as [_ ?]. }
    destruct (token_step_enough d o c m2c Hg ret stack t Hk)
      as (ids & HF & Hstep).
    { rewrite Ho, Hc. exact Hn. }
    rewrite !Ho, !Hc in HF, Hstep. rewrite render_token_events in Hstep.
    eexists _, _, (popped ++ [_]), (groups ++ [ids]).
    split.
    { rewrite (scan_snoc d o c m2c), Hscan. cbn [rbind]. exact Hstep. }
    split.
    { replace (length (P ++ [t])) with (S (length P))
        by (rewrite length_app; simpl; lia).
      exact Hperm'. }
    split; [done|]. split; [done|].
    split.
    { apply Forall2_app; [done|]. constructor; [|constructor]. by split. }
    split.
    { apply Forall2_app; [done|]. constructor; [done|constructor]. }
    rewrite zip_with_app, str_join_app, Hret.
    + cbn [zip_with str_join foldr]. unfold token_piece at 3.
      by rewrite append_nil_r.
    + apply Forall2_length in Hpop, Hgr. lia.
Qed.

End Attribution.

(** X15. When the markables are properly nested (no chain is empty, the
    tokens are distinct, every span runs from a token of the document to
    one that is not before it, no two spans cross) and markables with a
    common first token are processed outermost first,
    [gen_bracketed_output] returns, the stack is empty at the end, and
    the closing groups written after a token are those of exactly the
    markables that close at this token, each labelled with the chain of
    its markable, the markable opened last first. *)
Theorem closing_groups_attributed (d : brackets.DocGraph) :
  well_nested d →
  outermost_first d →
  ∃ o c m2c popped groups s,
    brackets.gen_bracket_mappings d = Ok (o, c, m2c)
    ∧ brackets.scan d o c m2c (EmptyString, []) (brackets.tokens d)
      = Ok (s, [])
    ∧ brackets.gen_bracketed_output d = Ok s
    ∧ Forall2 (fun t ps =>
                 ps ≡ₚ closes_at d t
                 ∧ StronglySorted
                     (fun x y => first_position d y ≤ first_position d x) ps)
              (brackets.tokens d) popped
    ∧ Forall2 (Forall2 (fun m id => m2c !! m = Some id)) popped groups
    ∧ s = str_join (zip_with (token_piece d) (brackets.tokens d) groups).
Proof.
  intros Hwn Hof.
  destruct (well_nested_mappings d Hwn) as (o & c & m2c & Hg).
  destruct (scan_attributed d Hwn Hof o c m2c (brackets.tokens d) [] Hg)
    as (ret & stack & popped & groups & Hscan & Hperm & _ & _
        & Hpop & Hgr & Hret); [by rewrite app_nil_r|].
  assert (stack = []) as ->.
  { apply Permutation_nil_r. rewrite Hperm. rewrite filter_none; [done|].
    intros m Hm [_ Hlast].
    destruct (markable_positions d Hwn m Hm) as (_ & lst & _ & _ & _ & Hj & _).
    apply lookup_lt_Some in Hj. lia. }
  exists o, c, m2c, popped, groups, ret.
  split; [done|]. split; [done|]. split; [|done].
  by rewrite (gen_bracketed_output_eq d o c m2c Hg), Hscan.
Qed.

Lemma stadthalle_outermost_first : outermost_first stadthalle.
Proof.
  intros i1 i2 m1 m2 Hlt H1 H2.
  assert (brackets.sorted_markables stadthalle
          = ["markable_21"; "markable_22"]) as Hms by reflexivity.
  rewrite Hms in H1, H2.
  destruct i1 as [|[|i1]], i2 as [|[|i2]]; try lia; try done.
  injection H1 as <-. injection H2 as <-. vm_compute. lia.
Defined.

Lemma closing_groups_attributed_witness :
  ∃ o c m2c popped groups s,
    brackets.gen_bracket_mappings stadthalle = Ok (o, c, m2c)
    ∧ brackets.scan stadthalle o c m2c (EmptyString, [])
                    (brackets.tokens stadthalle)
      = Ok (s, [])
    ∧ brackets.gen_bracketed_output stadthalle = Ok s
    ∧ Forall2 (fun t ps =>
                 ps ≡ₚ closes_at stadthalle t
                 ∧ StronglySorted
                     (fun x y => first_position stadthalle y
                                 ≤ first_position stadthalle x) ps)
              (brackets.tokens stadthalle) popped
    ∧ Forall2 (Forall2 (fun m id => m2c !! m = Some id)) popped groups
    ∧ s = str_join (zip_with (token_piece stadthalle)
                             (brackets.tokens stadthalle) groups).
Proof.
  apply closing_groups_attributed.
  - apply stadthalle_well_nested.
  - apply stadthalle_outermost_first.
Defined.
(** ** readwrite/ptb.py: the graph that [__init__] builds *)

Lemma token_key_not_layers (namespace : string) :
  namespace +:+ ":token" ≠ "layers".
Proof.
  destruct namespace as [|a s]; [discriminate|].
  intros E. apply (f_equal String.length) in E.
  rewrite append_cons in E. simpl in E. rewrite length_append in E.
  simpl in E. lia.
Qed.

Lemma node_add_node (n k : Z) (attrs : gmap string ptb.attr)
    (g : ptb.PTBDocumentGraph) :
  ptb.node (ptb.add_node n attrs g) !! k
  = if decide (k = n) then Some (attrs ∪ default ∅ (ptb.node g !! n))
    else ptb.node g !! k.
Proof.
  unfold ptb.add_node. simpl. destruct (decide (k = n)) as [->|Hne].
  - by rewrite lookup_insert_eq.
  - by rewrite lookup_insert_ne by congruence.
Qed.

Lemma node_add_edge (u v : Z) (ty : ptb.EdgeTypes)
    (g : ptb.PTBDocumentGraph) :
  ptb.node (ptb.add_edge u v ty g)
  = ptb.node (ptb.add_node v ∅ (ptb.add_node u ∅ g)).
Proof. reflexivity. Qed.

(** A new node [v] with the attributes [attrs], linked to the node
    [u]. *)
Lemma node_attach (u v k : Z) (ty : ptb.EdgeTypes)
    (attrs : gmap string ptb.attr) (g : ptb.PTBDocumentGraph) :
  is_Some (ptb.node g !! u) → ptb.node g !! v = None →
  ptb.node (ptb.add_edge u v ty (ptb.add_node v attrs g)) !! k
  = if decide (k = v) then Some attrs else ptb.node g !! k.
Proof.
  intros [a Ha] Hv. assert (u ≠ v) by congruence.
  rewrite node_add_edge, !node_add_node, Hv.
  repeat case_decide; subst; try congruence; simpl; rewrite ?Ha; simpl;
    by rewrite ?(left_id ∅ (∪)), ?(right_id ∅ (∪)).
Qed.

(** A new node [v] without attributes, created by the edge that links it
    to the node [u]. *)
Lemma node_attach_edge (u v k : Z) (ty : ptb.EdgeTypes)
    (g : ptb.PTBDocumentGraph) :
  is_Some (ptb.node g !! u) → ptb.node g !! v = None →
  ptb.node (ptb.add_edge u v ty g) !! k
  = if decide (k = v) then Some ∅ else ptb.node g !! k.
Proof.
  intros [a Ha] Hv. assert (u ≠ v) by congruence.
  rewrite node_add_edge, !node_add_node, Hv.
  repeat case_decide; subst; try congruence; simpl; rewrite ?Ha; simpl;
    by rewrite ?(left_id ∅ (∪)), ?(right_id ∅ (∪)).
Qed.

Lemma attach_node (g g' : ptb.PTBDocumentGraph) (n u : Z)
    (ty : ptb.EdgeTypes) (attrs : gmap string ptb.attr)
    (is_tok is_sent : bool) :
  tree_graph g n →
  (0 ≤ u ≤ n)%Z →
  ptb.ns g' = ptb.ns g → ptb.root g' = ptb.root g →
  (∀ k, ptb.node g' !! k
        = if decide (k = (n + 1)%Z) then Some attrs else ptb.node g !! k) →
  ptb.edges g' = ptb.edges g ++ [(u, (n + 1)%Z, ty)] →
  ptb.tokens g'
  = (if is_tok then ptb.tokens g ++ [(n + 1)%Z] else ptb.tokens g) →
  ptb.sentences g'
  = (if is_sent then ptb.sentences g ++ [(n + 1)%Z] else ptb.sentences g) →
  (is_Some (attrs !! (ptb.ns g +:+ ":token")) ↔ is_tok = true) →
  (u = 0%Z ↔ is_sent = true) →
  (u = 0%Z → ty = ptb.spanning_relation) →
  (u ≠ 0%Z → ty = if is_tok then ptb.spanning_relation
                  else ptb.dominance_relation) →
  tree_graph g' (n + 1).
Proof.
  intros (Hn & Hroot & Hdom & Htg & Hkind & Htok & Hsent)
         Hu Hns Hr Hnode Hedges Htokens Hsents Hattr Hu0 Hty0 Hty1.
  assert (Hfresh : (n + 1)%Z ∉ ptb.tokens g).
  { intros Hin. apply Htok in Hin. unfold ptb.token_of in Hin.
    destruct (ptb.node g !! (n + 1)%Z) as [a|] eqn:E.
    - assert (is_Some (ptb.node g !! (n + 1)%Z)) as Hs by eauto.
      apply Hdom in Hs. lia.
    - by destruct Hin. }
  assert (Htargets : ∀ e, e ∈ ptb.edges g → (1 ≤ e.1.2 ≤ n)%Z).
  { intros e He.
    assert (e.1.2 ∈ seqZ 1 n) as Hin.
    { rewrite <- Htg. apply list_elem_of_fmap. by exists e. }
    apply elem_of_seqZ in Hin. lia. }
  assert (Htoks : ∀ k, k ≠ (n + 1)%Z →
            (k ∈ ptb.tokens g' ↔ k ∈ ptb.tokens g)).
  { intros k Hk. rewrite Htokens. destruct is_tok; [|done].
    rewrite elem_of_app, list_elem_of_singleton. tauto. }
  unfold tree_graph. split; [lia|]. split; [congruence|].
  split; [|split; [|split; [|split]]].
  - intros k. rewrite Hnode. destruct (decide (k = (n + 1)%Z)) as [->|Hk].
    + split; [lia|eauto].
    + rewrite Hdom. lia.
  - rewrite Hedges, fmap_app, Htg. simpl.
    rewrite (seqZ_app 1 n 1) by lia. f_equal.
    rewrite seqZ_cons, seqZ_nil by lia. f_equal. lia.
  - rewrite Hedges. apply Forall_app. split.
    + apply Forall_forall. intros e He. rewrite Forall_forall in Hkind.
      destruct (Hkind e He) as (H1 & H2 & H3 & H4).
      pose proof (Htargets e He) as Hte.
      split; [done|]. split; [|split].
      * intros H0. destruct (H2 H0) as [? ?]. split; [done|].
        rewrite Hsents. destruct is_sent; [|done].
        apply elem_of_app. by left.
      * intros Hne Hin. apply H3; [done|]. apply Htoks; [lia|done].
      * intros Hne Hnin. apply H4; [done|]. intros Hin.
        apply Hnin, Htoks; [lia|done].
    + constructor; [|constructor]. unfold edge_kind. simpl.
      split; [lia|]. split; [|split].
      * intros ->. split; [by apply Hty0|]. rewrite Hsents.
        rewrite (proj1 Hu0 eq_refl). apply elem_of_app. right.
        by apply list_elem_of_singleton.
      * intros Hne Hin. rewrite (Hty1 Hne). destruct is_tok; [done|].
        rewrite Htokens in Hin. done.
      * intros Hne Hnin. rewrite (Hty1 Hne). destruct is_tok; [|done].
        exfalso. apply Hnin. rewrite Htokens. apply elem_of_app. right.
        by apply list_elem_of_singleton.
  - intros k. unfold ptb.token_of. rewrite Hns, Hnode.
    destruct (decide (k = (n + 1)%Z)) as [->|Hk].
    + simpl. rewrite Hattr, Htokens. destruct is_tok.
      * split; [|done]. intros _. apply elem_of_app. right.
        by apply list_elem_of_singleton.
      * split; [done|]. intros Hin. by apply Hfresh in Hin.
    + change (is_Some (ptb.token_of g k) ↔ k ∈ ptb.tokens g').
      by rewrite Htok, Htoks.
  - rewrite Hsents, Hedges. destruct is_sent.
    + apply Forall_app. split.
      * eapply Forall_impl; [exact Hsent|]. intros s Hs. simpl in Hs.
        apply elem_of_app. by left.
      * constructor; [|constructor]. apply elem_of_app. right.
        rewrite (proj2 Hu0 eq_refl) in *. rewrite (Hty0 eq_refl).
        by apply list_elem_of_singleton.
    + eapply Forall_impl; [exact Hsent|]. intros s Hs. simpl in Hs.
      apply elem_of_app. by left.
Qed.

Lemma attach_labelled_old (g g' : ptb.PTBDocumentGraph) (n m : Z)
    (attrs : gmap string ptb.attr) :
  labelled g m → (m ≤ n)%Z →
  (∀ k, ptb.node g' !! k
        = if decide (k = (n + 1)%Z) then Some attrs else ptb.node g !! k) →
  labelled g' m.
Proof.
  intros Hl Hm Hnode k Hk. destruct (Hl k Hk) as (a & l & Ha & Hlab).
  exists a, l. split; [|done]. rewrite Hnode, decide_False by lia. done.
Qed.

Lemma attach_labelled (g g' : ptb.PTBDocumentGraph) (n : Z)
    (attrs : gmap string ptb.attr) (l : string) :
  labelled g n →
  (∀ k, ptb.node g' !! k
        = if decide (k = (n + 1)%Z) then Some attrs else ptb.node g !! k) →
  attrs !! "label" = Some (ptb.AStr l) →
  labelled g' (n + 1).
Proof.
  intros Hl Hnode Hlab k Hk. destruct (decide (k = (n + 1)%Z)) as [->|Hne].
  - exists attrs, l. split; [|done]. by rewrite Hnode, decide_True.
  - apply (attach_labelled_old g g' n n attrs); [done|lia|done|lia].
Qed.

Lemma set_label_step (g : ptb.PTBDocumentGraph) (n : Z) (l : string) :
  tree_graph g n → labelled g (n - 1) →
  ∃ g1, ptb.set_attr n "label" (ptb.AStr l) g = Ok g1
        ∧ tree_graph g1 n ∧ labelled g1 n
        ∧ ptb._node_id g1 = ptb._node_id g
        ∧ ptb.sentences g1 = ptb.sentences g
        ∧ ptb.ns g1 = ptb.ns g.
Proof.
  intros (Hn & Hroot & Hdom & Htg & Hkind & Htok & Hsent) Hlab.
  destruct (proj2 (Hdom n)) as [attrs Hattrs]; [lia|].
  unfold ptb.set_attr, getitem. rewrite Hattrs. cbn [rbind].
  eexists. split; [reflexivity|].
  split; [|split; [|done]].
  - split; [done|]. split; [done|]. split; [|split; [done|split; [done|]]].
    + intros k. simpl. destruct (decide (k = n)) as [->|Hk].
      * rewrite lookup_insert_eq. split; [lia|eauto].
      * rewrite lookup_insert_ne by congruence. apply Hdom.
    + split; [|done]. intros k. rewrite <- Htok.
      unfold ptb.token_of. simpl. destruct (decide (k = n)) as [->|Hk].
      * rewrite lookup_insert_eq, Hattrs. simpl.
        rewrite lookup_insert_ne; [done|].
        intros E. by apply (token_key_not_label (ptb.ns g)).
      * by rewrite lookup_insert_ne by congruence.
  - intros k Hk. destruct (decide (k = n)) as [->|Hne].
    + eexists _, l. simpl. rewrite lookup_insert_eq. split; [done|].
      by rewrite lookup_insert_eq.
    + destruct (Hlab k) as (a & l' & Ha & Hl'); [lia|].
      exists a, l'. simpl. by rewrite lookup_insert_ne by congruence.
Qed.

Lemma leaf_step (root_node_id : Z) (leaf : string)
    (g : ptb.PTBDocumentGraph) (n : Z) :
  ptb._node_id g = n → (0 < root_node_id ≤ n)%Z →
  tree_graph g n → labelled g n →
  ∃ g', parse_child root_node_id g (inr leaf) = Ok g'
        ∧ tree_graph g' (n + 1) ∧ labelled g' (n + 1)
        ∧ ptb._node_id g' = (n + 1)%Z
        ∧ ptb.sentences g' = ptb.sentences g
        ∧ ptb.ns g' = ptb.ns g.
Proof.
  intros <- Hroot Htree Hlab.
  eexists. split; [reflexivity|].
  assert (Hnode : ∀ k,
    ptb.node
      (ptb.add_edge root_node_id (ptb._node_id g + 1) ptb.spanning_relation
         (ptb.add_node (ptb._node_id g + 1)
            (<[ptb.ns g +:+ ":token" := ptb.AStr leaf]>
               {["label" := ptb.AStr leaf]})
            (ptb.tokens_append (ptb._node_id g + 1) (ptb.incr_node_id g))))
      !! k
    = if decide (k = (ptb._node_id g + 1)%Z)
      then Some (<[ptb.ns g +:+ ":token" := ptb.AStr leaf]>
                   {["label" := ptb.AStr leaf]})
      else ptb.node g !! k).
  { intros k. destruct Htree as (_ & _ & Hdom & _).
    apply (node_attach root_node_id (ptb._node_id g + 1) k
             ptb.spanning_relation _
             (ptb.tokens_append (ptb._node_id g + 1) (ptb.incr_node_id g))).
    - simpl. apply Hdom. lia.
    - simpl. apply eq_None_not_Some. rewrite Hdom. lia. }
  split; [|split; [|done]].
  - eapply (attach_node g _ (ptb._node_id g) root_node_id
              ptb.spanning_relation _ true false);
      [done|lia|done|done|exact Hnode|done|done|done| | | |].
    + rewrite lookup_insert_eq. split; eauto.
    + split; [lia|done].
    + lia.
    + done.
  - eapply (attach_labelled g _ (ptb._node_id g) _ leaf);
      [done|exact Hnode|].
    rewrite lookup_insert_ne by apply token_key_not_label.
    apply lookup_singleton_eq.
Qed.

Lemma subtree_step (root_node_id : Z) (label : string)
    (g : ptb.PTBDocumentGraph) (n : Z) :
  ptb._node_id g = n → (0 < root_node_id ≤ n)%Z →
  tree_graph g n → labelled g n →
  let g0 :=
    ptb.add_edge root_node_id (n + 1) ptb.dominance_relation
      (ptb.add_node (n + 1) {["label" := ptb.AStr label]}
                    (ptb.incr_node_id g)) in
  tree_graph g0 (n + 1) ∧ labelled g0 (n + 1).
Proof.
  intros <- Hroot Htree Hlab g0.
  assert (Hnode : ∀ k,
    ptb.node g0 !! k
    = if decide (k = (ptb._node_id g + 1)%Z)
      then Some {["label" := ptb.AStr label]}
      else ptb.node g !! k).
  { intros k. destruct Htree as (_ & _ & Hdom & _).
    apply (node_attach root_node_id (ptb._node_id g + 1) k
             ptb.dominance_relation _ (ptb.incr_node_id g)).
    - simpl. apply Hdom. lia.
    - simpl. apply eq_None_not_Some. rewrite Hdom. lia. }
  split.
  - eapply (attach_node g g0 (ptb._node_id g) root_node_id
              ptb.dominance_relation _ false false);
      [done|lia|done|done|exact Hnode|done|done|done| | | |].
    + rewrite lookup_singleton_ne by (intros E; symmetry in E;
                                       by apply token_key_not_label in E).
      split; [by intros []|done].
    + split; [lia|done].
    + lia.
    + done.
  - eapply (attach_labelled g g0 (ptb._node_id g) _ label);
      [done|exact Hnode|]. apply lookup_singleton_eq.
Qed.

Lemma nodes_of_unfold (label : string)
    (children : list (ptb.tree + string)) :
  nodes_of (ptb.Tree label children)
  = S (sum_list_with child_nodes children).
Proof. reflexivity. Qed.

Lemma labelled_weaken (g : ptb.PTBDocumentGraph) (m m' : Z) :
  labelled g m → (m' ≤ m)%Z → labelled g m'.
Proof. intros Hl Hm k Hk. apply Hl. lia. Qed.

Lemma children_graph (root_node_id : Z)
    (children : list (ptb.tree + string)) :
  Forall (fun c => match c with
                   | inl sub =>
                       ∀ g n,
                         ptb._node_id g = n → (0 < n)%Z →
                         tree_graph g n → labelled g (n - 1) →
                         ∃ g', ptb._parse_sentencetree sub g = Ok g'
                               ∧ tree_graph g' (n + Z.of_nat (nodes_of sub) - 1)
                               ∧ labelled g' (n + Z.of_nat (nodes_of sub) - 1)
                               ∧ ptb._node_id g'
                                 = (n + Z.of_nat (nodes_of sub) - 1)%Z
                               ∧ ptb.sentences g' = ptb.sentences g
                               ∧ ptb.ns g' = ptb.ns g
                   | inr _ => True
                   end) children →
  ∀ g n,
    ptb._node_id g = n → (0 < root_node_id ≤ n)%Z →
    tree_graph g n → labelled g n →
    ∃ g', for_each (parse_child root_node_id) g children = Ok g'
          ∧ tree_graph g' (n + Z.of_nat (sum_list_with child_nodes children))
          ∧ labelled g' (n + Z.of_nat (sum_list_with child_nodes children))
          ∧ ptb._node_id g'
            = (n + Z.of_nat (sum_list_with child_nodes children))%Z
          ∧ ptb.sentences g' = ptb.sentences g
          ∧ ptb.ns g' = ptb.ns g.
Proof.
  induction 1 as [|c children Hc _ IH]; intros g n Hid Hroot Htree Hlab.
  - exists g. simpl. rewrite Z.add_0_r. done.
  - cbn [for_each sum_list_with]. destruct c as [sub|leaf].
    + destruct (subtree_step root_node_id (ptb.get_nodelabel (inl sub))
                  g n Hid Hroot Htree Hlab) as [Htree0 Hlab0].
      match type of Htree0 with
      | tree_graph ?g0 _ =>
          destruct (Hc g0 (n + 1)%Z)
            as (g1 & Hparse & Htree1 & Hlab1 & Hid1 & Hs1 & Hns1)
      end.
      { simpl. lia. }
      { lia. }
      { exact Htree0. }
      { apply (labelled_weaken _ (n + 1)); [done|lia]. }
      simpl in Hs1, Hns1.
      assert (Hstep : parse_child root_node_id g (inl sub) = Ok g1).
      { rewrite <- Hparse, <- Hid. reflexivity. }
      rewrite Hstep. cbn [rbind].
      replace (n + 1 + Z.of_nat (nodes_of sub) - 1)%Z
        with (n + Z.of_nat (nodes_of sub))%Z in * by lia.
      destruct (IH g1 _ Hid1) as (g' & Hrest & Htree' & Hlab' & Hid' & Hs' & Hns');
        [lia|done|done|].
      exists g'. split; [done|]. simpl child_nodes.
      replace (n + Z.of_nat (nodes_of sub
                 + sum_list_with child_nodes children))%Z
        with (n + Z.of_nat (nodes_of sub)
              + Z.of_nat (sum_list_with child_nodes children))%Z by lia.
      split; [done|]. split; [done|]. split; [done|]. split; congruence.
    + destruct (leaf_step root_node_id leaf g n Hid Hroot Htree Hlab)
        as (g1 & Hstep & Htree1 & Hlab1 & Hid1 & Hs1 & Hns1).
      rewrite Hstep. cbn [rbind].
      destruct (IH g1 _ Hid1) as (g' & Hrest & Htree' & Hlab' & Hid' & Hs' & Hns');
        [lia|done|done|].
      exists g'. split; [done|]. simpl child_nodes.
      replace (n + Z.of_nat (1 + sum_list_with child_nodes children))%Z
        with (n + 1 + Z.of_nat (sum_list_with child_nodes children))%Z by lia.
      split; [done|]. split; [done|]. split; [done|]. split; congruence.
Qed.

Lemma tree_graph_grows (t : ptb.tree) :
  ∀ g n,
    ptb._node_id g = n → (0 < n)%Z →
    tree_graph g n → labelled g (n - 1) →
    ∃ g', ptb._parse_sentencetree t g = Ok g'
          ∧ tree_graph g' (n + Z.of_nat (nodes_of t) - 1)
          ∧ labelled g' (n + Z.of_nat (nodes_of t) - 1)
          ∧ ptb._node_id g' = (n + Z.of_nat (nodes_of t) - 1)%Z
          ∧ ptb.sentences g' = ptb.sentences g
          ∧ ptb.ns g' = ptb.ns g.
Proof.
  induction t as [label children IH] using tree_ind'.
  intros g n Hid Hn Htree Hlab.
  rewrite parse_unfold, nodes_of_unfold, Hid.
  destruct (set_label_step g n label Htree Hlab)
    as (g1 & -> & Htree1 & Hlab1 & Hid1 & Hs1 & Hns1).
  cbn [rbind].
  destruct (children_graph n children IH g1 n)
    as (g' & Hrest & Htree' & Hlab' & Hid' & Hs' & Hns');
    [congruence|lia|done|done|].
  exists g'. split; [done|].
  replace (n + Z.of_nat (S (sum_list_with child_nodes children)) - 1)%Z
    with (n + Z.of_nat (sum_list_with child_nodes children))%Z by lia.
  split; [done|]. split; [done|]. split; [done|]. split; congruence.
Qed.

Lemma sentence_graph (sentence : ptb.tree) (g : ptb.PTBDocumentGraph) :
  between_sentences g →
  ∃ g', ptb._add_sentence g sentence = Ok g'
        ∧ between_sentences g'
        ∧ ptb._node_id g' = (ptb._node_id g + Z.of_nat (nodes_of sentence))%Z
        ∧ ptb.sentences g' = ptb.sentences g ++ [ptb._node_id g]
        ∧ ptb.ns g' = ptb.ns g.
Proof.
  intros [Htree Hlab].
  set (n := (ptb._node_id g - 1)%Z) in *.
  assert (Hid : ptb._node_id g = (n + 1)%Z) by (unfold n; lia).
  assert (Hroot : ptb.root g = 0%Z) by (by destruct Htree as (_ & ? & _)).
  assert (Hn : (0 ≤ n)%Z) by (by destruct Htree as (? & _)).
  set (g1 := ptb.add_edge 0 (n + 1) ptb.spanning_relation
               (ptb.sentences_append (n + 1) g)).
  assert (Hadd : ptb._add_sentence g sentence
                 = (g2 ←' ptb._parse_sentencetree sentence g1;
                    Ok (ptb.incr_node_id g2))).
  { unfold ptb._add_sentence, g1. cbv zeta.
    cbn [ptb.root ptb._node_id ptb.sentences_append].
    by rewrite Hroot, Hid. }
  assert (Hnode : ∀ k,
    ptb.node g1 !! k
    = if decide (k = (n + 1)%Z) then Some ∅ else ptb.node g !! k).
  { intros k. destruct Htree as (_ & _ & Hdom & _). unfold g1.
    apply (node_attach_edge 0 (n + 1) k ptb.spanning_relation
             (ptb.sentences_append (n + 1) g)).
    - simpl. apply Hdom. lia.
    - simpl. apply eq_None_not_Some. rewrite Hdom. lia. }
  assert (Htree1 : tree_graph g1 (n + 1)).
  { eapply (attach_node g g1 n 0 ptb.spanning_relation ∅ false true);
      [done|lia|done|done|exact Hnode|done|done|done| | | |].
    - rewrite lookup_empty. split; [by intros []|done].
    - done.
    - done.
    - done. }
  assert (Hlab1 : labelled g1 (n + 1 - 1)).
  { apply (attach_labelled_old g g1 n _ ∅); [|lia|exact Hnode].
    by replace (n + 1 - 1)%Z with n by lia. }
  destruct (tree_graph_grows sentence g1 (n + 1)%Z)
    as (g2 & Hparse & Htree2 & Hlab2 & Hid2 & Hs2 & Hns2);
    [done|lia|done|done|].
  rewrite Hadd, Hparse. cbn [rbind]. eexists. split; [reflexivity|].
  split; [|split; [|split]].
  - unfold between_sentences. simpl. rewrite Hid2.
    replace (n + 1 + Z.of_nat (nodes_of sentence) - 1 + 1 - 1)%Z
      with (n + 1 + Z.of_nat (nodes_of sentence) - 1)%Z by lia.
    done.
  - simpl. rewrite Hid2. lia.
  - simpl. rewrite Hs2, Hid. done.
  - simpl. rewrite Hns2. done.
Qed.

Lemma sentences_graph (sents : list ptb.tree) :
  ∀ g,
    between_sentences g →
    ∃ g' ids,
      for_each ptb._add_sentence g sents = Ok g'
      ∧ between_sentences g'
      ∧ ptb._node_id g'
        = (ptb._node_id g + Z.of_nat (sum_list_with nodes_of sents))%Z
      ∧ ptb.sentences g' = ptb.sentences g ++ ids
      ∧ length ids = length sents
      ∧ (∀ i, i < length sents →
              ids !! i
              = Some (ptb._node_id g
                      + Z.of_nat (sum_list_with nodes_of (take i sents)))%Z)
      ∧ ptb.ns g' = ptb.ns g.
Proof.
  induction sents as [|t sents IH]; intros g Hb.
  - exists g, []. simpl. rewrite Z.add_0_r, app_nil_r.
    do 5 (split; [done|]). split; [|done]. intros i Hi. lia.
  - destruct (sentence_graph t g Hb) as (g1 & Hstep & Hb1 & Hid1 & Hs1 & Hns1).
    destruct (IH g1 Hb1) as (g' & ids & Hrest & Hb' & Hid' & Hs' & Hlen & Hids & Hns').
    exists g', (ptb._node_id g :: ids). cbn [for_each]. rewrite Hstep.
    cbn [rbind]. split; [done|]. split; [done|].
    split; [|split; [|split; [|split]]].
    + rewrite Hid', Hid1. cbn [sum_list_with]. lia.
    + rewrite Hs', Hs1, <- app_assoc. done.
    + simpl. by rewrite Hlen.
    + intros [|i] Hi.
      * simpl. f_equal. lia.
      * simpl. rewrite Hids by (simpl in Hi; lia). f_equal.
        rewrite Hid1. lia.
    + congruence.
Qed.

(** The sentences that [__init__] adds for a given [limit]. *)
Lemma init_sentences (parsed_sents : list ptb.tree) (ptb_filename : string)
    (name : option string) (namespace : string) (limit : option Z) :
  ∃ g used,
    ptb.__init__ parsed_sents ptb_filename name namespace limit = Ok g
    ∧ used = match limit with
             | None => parsed_sents
             | Some n => if (n =? 0)%Z then parsed_sents
                         else ptb.slice_to parsed_sents n
             end
    ∧ between_sentences g
    ∧ ptb._node_id g = (1 + Z.of_nat (sum_list_with nodes_of used))%Z
    ∧ length (ptb.sentences g) = length used
    ∧ (∀ i, i < length used →
            ptb.sentences g !! i
            = Some (1 + Z.of_nat (sum_list_with nodes_of (take i used)))%Z)
    ∧ ptb.ns g = namespace.
Proof.
  set (used := match limit with
               | None => parsed_sents
               | Some n => if (n =? 0)%Z then parsed_sents
                           else ptb.slice_to parsed_sents n
               end).
  set (self :=
    {| ptb.name := match name with
                   | Some (String c s) => String c s
                   | _ => ptb_filename
                   end;
       ptb.ns := namespace;
       ptb.root := 0;
       ptb.node :=
         {[ 0%Z := <["label" := ptb.AStr (namespace +:+ ":root_node")]>
                     {["layers" := ptb.ALayers {[namespace]}]} ]};
       ptb.edges := [];
       ptb.sentences := [];
       ptb.tokens := [];
       ptb._node_id := 1 |}).
  assert (Hinit : ptb.__init__ parsed_sents ptb_filename name namespace limit
                  = for_each ptb._add_sentence self used).
  { unfold ptb.__init__, used. fold self.
    destruct limit as [n|]; [|done]. by destruct (n =? 0)%Z. }
  assert (Hb : between_sentences self).
  { split.
    - split; [simpl; lia|]. split; [done|].
      split; [|split; [done|split; [constructor|split; [|constructor]]]].
      + intros k. simpl. destruct (decide (k = 0%Z)) as [->|Hk].
        * rewrite lookup_singleton_eq. split; [lia|eauto].
        * rewrite lookup_singleton_ne by congruence.
          split; [by intros []|lia].
      + intros k. unfold ptb.token_of. simpl.
        destruct (decide (k = 0%Z)) as [->|Hk].
        * rewrite lookup_singleton_eq. simpl.
          rewrite lookup_insert_ne
            by (intros E; symmetry in E; by apply token_key_not_label in E).
          rewrite lookup_singleton_ne
            by (intros E; symmetry in E; by apply token_key_not_layers in E).
          split; [by intros []|by intros ?%elem_of_nil].
        * rewrite lookup_singleton_ne by congruence. simpl.
          split; [by intros []|by intros ?%elem_of_nil].
    - intros k Hk. simpl in Hk. assert (k = 0%Z) as -> by lia.
      eexists _, _. simpl. rewrite lookup_singleton_eq. split; [done|].
      apply lookup_insert_eq. }
  destruct (sentences_graph used self Hb)
    as (g & ids & Hrun & Hb' & Hid & Hs & Hlen & Hids & Hns).
  exists g, used. rewrite Hinit. simpl in Hid, Hs.
  do 4 (split; [done|]). split; [by rewrite Hs|]. split; [|done].
  intros i Hi. rewrite Hs. by apply Hids.
Qed.

Lemma NoDup_fmap_eq {A B : Type} (f : A → B) (l : list A) (x y : A) :
  NoDup (f <$> l) → x ∈ l → y ∈ l → f x = f y → x = y.
Proof.
  induction l as [|a l IH]; intros Hnd Hx Hy Hf; [by apply elem_of_nil in Hx|].
  rewrite fmap_cons in Hnd. apply NoDup_cons in Hnd as [Hni Hnd].
  apply elem_of_cons in Hx as [->|Hx], Hy as [->|Hy].
  - done.
  - exfalso. apply Hni. rewrite Hf. apply list_elem_of_fmap. by exists y.
  - exfalso. apply Hni. rewrite <- Hf. apply list_elem_of_fmap. by exists x.
  - by apply IH.
Qed.

(** X16. [PTBDocumentGraph.__init__] returns a graph for every input and
    every [limit], also [0] and negative ones.  The graph is the one built
    without a limit from the sentences that are used: all of them for
    [limit] [None] or [0], the first [n] for a positive [n], all but the
    last [-n] for a negative [n]; it has one sentence root for each of
    them. *)
Theorem init_every_limit (parsed_sents : list ptb.tree)
    (ptb_filename : string) (name : option string) (namespace : string)
    (limit : option Z) :
  ∃ g used,
    ptb.__init__ parsed_sents ptb_filename name namespace limit = Ok g
    ∧ used = match limit with
             | None => parsed_sents
             | Some n =>
                 if (n =? 0)%Z then parsed_sents
                 else if (n <? 0)%Z
                      then take (length parsed_sents - Z.to_nat (- n))
                                parsed_sents
                      else take (Z.to_nat n) parsed_sents
             end
    ∧ ptb.__init__ used ptb_filename name namespace None = Ok g
    ∧ length (ptb.sentences g) = length used
    ∧ Z.of_nat (length (ptb.sentences g))
      = match limit with
        | None => Z.of_nat (length parsed_sents)
        | Some n =>
            if (n =? 0)%Z then Z.of_nat (length parsed_sents)
            else if (n <? 0)%Z
                 then Z.max 0 (Z.of_nat (length parsed_sents) + n)
                 else Z.min n (Z.of_nat (length parsed_sents))
        end.
Proof.
  destruct (init_sentences parsed_sents ptb_filename name namespace limit)
    as (g & used & Hinit & Hused & _ & _ & Hlen & _).
  exists g, used. split; [done|].
  assert (Hused' :
    used = match limit with
           | None => parsed_sents
           | Some n =>
               if (n =? 0)%Z then parsed_sents
               else if (n <? 0)%Z
                    then take (length parsed_sents - Z.to_nat (- n))
                              parsed_sents
                    else take (Z.to_nat n) parsed_sents
           end).
  { rewrite Hused. destruct limit as [n|]; [|done].
    destruct (n =? 0)%Z; [done|]. unfold ptb.slice_to.
    destruct (n <? 0)%Z eqn:Hneg; [|done].
    apply Z.ltb_lt in Hneg. f_equal. lia. }
  split; [done|]. split; [|split; [done|]].
  - rewrite <- Hinit, Hused. unfold ptb.__init__.
    destruct limit as [n|]; [|done]. by destruct (n =? 0)%Z.
  - rewrite Hlen, Hused'. destruct limit as [n|]; [|done].
    destruct (n =? 0)%Z eqn:Hz; [done|]. apply Z.eqb_neq in Hz.
    destruct (n <? 0)%Z eqn:Hneg.
    + apply Z.ltb_lt in Hneg. rewrite length_take. lia.
    + apply Z.ltb_ge in Hneg. rewrite length_take. lia.
Qed.

(** X17. Node ids are handed out consecutively in the order in which the
    trees are walked: the graph built from the sentences has one node per
    tree node and per leaf besides the root [0], [_node_id] ends as their
    number plus one, and the root of the [i]-th sentence has the id that
    follows the nodes of the sentences before it. *)
Theorem node_ids_consecutive (parsed_sents : list ptb.tree)
    (ptb_filename : string) (name : option string) (namespace : string) :
  ∃ g,
    ptb.__init__ parsed_sents ptb_filename name namespace None = Ok g
    ∧ ptb._node_id g
      = (1 + Z.of_nat (sum_list_with nodes_of parsed_sents))%Z
    ∧ (∀ k, is_Some (ptb.node g !! k)
            ↔ (0 ≤ k ≤ Z.of_nat (sum_list_with nodes_of parsed_sents))%Z)
    ∧ length (ptb.sentences g) = length parsed_sents
    ∧ (∀ i, i < length parsed_sents →
            ptb.sentences g !! i
            = Some (1 + Z.of_nat (sum_list_with nodes_of
                                    (take i parsed_sents)))%Z).
Proof.
  destruct (init_sentences parsed_sents ptb_filename name namespace None)
    as (g & used & Hinit & -> & [Htree _] & Hid & Hlen & Hids & _).
  exists g. split; [done|]. split; [done|]. split; [|done].
  destruct Htree as (_ & _ & Hdom & _). intros k. rewrite Hdom, Hid. lia.
Qed.

(** X18. The graph that [__init__] returns is a tree below the node [0].
    Its nodes are the ids [0], ..., [_node_id - 1]; the edges were added
    one per node other than [0], in the order of the ids, each leading to
    that node from a node with a smaller id.  So every node but [0] has
    exactly one incoming edge, and there is one edge less than there are
    nodes. *)
Theorem graph_is_tree (parsed_sents : list ptb.tree)
    (ptb_filename : string) (name : option string) (namespace : string)
    (limit : option Z) :
  ∃ g,
    ptb.__init__ parsed_sents ptb_filename name namespace limit = Ok g
    ∧ ptb.root g = 0%Z
    ∧ (∀ k, is_Some (ptb.node g !! k) ↔ (0 ≤ k < ptb._node_id g)%Z)
    ∧ (fun e : Z * Z * ptb.EdgeTypes => e.1.2) <$> ptb.edges g
      = seqZ 1 (ptb._node_id g - 1)
    ∧ Z.of_nat (length (ptb.edges g)) = (ptb._node_id g - 1)%Z
    ∧ (∀ v, (0 < v < ptb._node_id g)%Z → ∃ u ty, (u, v, ty) ∈ ptb.edges g)
    ∧ (∀ u v ty, (u, v, ty) ∈ ptb.edges g →
                 (0 ≤ u < v)%Z ∧ (v < ptb._node_id g)%Z)
    ∧ (∀ u u' v ty ty',
         (u, v, ty) ∈ ptb.edges g → (u', v, ty') ∈ ptb.edges g →
         u = u' ∧ ty = ty').
Proof.
  destruct (init_sentences parsed_sents ptb_filename name namespace limit)
    as (g & used & Hinit & _ & [Htree _] & _).
  destruct Htree as (Hn & Hroot & Hdom & Htg & Hkind & _).
  exists g. split; [done|]. split; [done|].
  split; [|split; [done|split; [|split; [|split]]]].
  - intros k. rewrite Hdom. lia.
  - rewrite <- (length_fmap (fun e : Z * Z * ptb.EdgeTypes => e.1.2)), Htg.
    rewrite length_seqZ. lia.
  - intros v Hv.
    assert (v ∈ seqZ 1 (ptb._node_id g - 1)) as Hin
      by (apply elem_of_seqZ; lia).
    rewrite <- Htg in Hin.
    apply list_elem_of_fmap in Hin as ([[u v'] ty] & -> & He).
    by exists u, ty.
  - intros u v ty He.
    assert (v ∈ seqZ 1 (ptb._node_id g - 1)) as Hin.
    { rewrite <- Htg. apply list_elem_of_fmap. by exists (u, v, ty). }
    apply elem_of_seqZ in Hin. rewrite Forall_forall in Hkind.
    destruct (Hkind _ He) as [Huv _]. simpl in Huv. lia.
  - intros u u' v ty ty' He He'.
    assert ((u, v, ty) = (u', v, ty')) as Heq; [|by injection Heq].
    apply (NoDup_fmap_eq (fun e : Z * Z * ptb.EdgeTypes => e.1.2)
             (ptb.edges g)); [|done|done|done].
    rewrite Htg. apply NoDup_seqZ.
Qed.

(** X19. In the graph that [__init__] returns every node has a string
    under ['label']; the nodes listed in [tokens] are exactly the nodes
    with a token string; the edges that leave the root [0] are spanning
    edges and lead to the sentence roots listed in [sentences], each of
    which has such an edge; every other edge is a spanning edge when it
    leads to a token and a dominance edge when it does not. *)
Theorem edges_typed (parsed_sents : list ptb.tree)
    (ptb_filename : string) (name : option string) (namespace : string)
    (limit : option Z) :
  ∃ g,
    ptb.__init__ parsed_sents ptb_filename name namespace limit = Ok g
    ∧ (∀ k attrs, ptb.node g !! k = Some attrs →
                  ∃ l, attrs !! "label" = Some (ptb.AStr l))
    ∧ (∀ k, is_Some (ptb.token_of g k) ↔ k ∈ ptb.tokens g)
    ∧ (∀ s, s ∈ ptb.sentences g
            ↔ ∃ ty, (0%Z, s, ty) ∈ ptb.edges g)
    ∧ (∀ u v ty, (u, v, ty) ∈ ptb.edges g →
         if decide (u = 0%Z) then ty = ptb.spanning_relation
         else if decide (v ∈ ptb.tokens g) then ty = ptb.spanning_relation
         else ty = ptb.dominance_relation).
Proof.
  destruct (init_sentences parsed_sents ptb_filename name namespace limit)
    as (g & used & Hinit & _ & [Htree Hlab] & _).
  destruct Htree as (Hn & Hroot & Hdom & Htg & Hkind & Htok & Hsent).
  rewrite Forall_forall in Hkind. rewrite Forall_forall in Hsent.
  exists g. split; [done|]. split; [|split; [done|split]].
  - intros k attrs Hk.
    destruct (Hlab k) as (attrs' & l & Hk' & Hl).
    { apply Hdom. eauto. }
    exists l. congruence.
  - intros s. split.
    + intros Hs. exists ptb.spanning_relation. by apply Hsent.
    + intros [ty He]. destruct (Hkind _ He) as (_ & H0 & _).
      by destruct (H0 eq_refl).
  - intros u v ty He. destruct (Hkind _ He) as (_ & H0 & H1 & H2).
    simpl in *. destruct (decide (u = 0%Z)) as [Hu|Hu].
    + by destruct (H0 Hu).
    + destruct (decide (v ∈ ptb.tokens g)); auto.
Qed.
(** ** The graph mirrors the trees *)

Lemma label_of_add_node_empty (n k : Z) (g : ptb.PTBDocumentGraph) :
  label_of (ptb.add_node n ∅ g) k = label_of g k.
Proof.
  unfold label_of. rewrite node_add_node.
  destruct (decide (k = n)) as [->|Hne]; [|done].
  simpl. rewrite (left_id ∅ (∪)). by destruct (ptb.node g !! n).
Qed.

Lemma label_of_add_edge (u v : Z) (ty : ptb.EdgeTypes) (k : Z)
    (g : ptb.PTBDocumentGraph) :
  label_of (ptb.add_edge u v ty g) k = label_of g k.
Proof.
  unfold label_of at 1. rewrite node_add_edge.
  change (label_of (ptb.add_node v ∅ (ptb.add_node u ∅ g)) k = label_of g k).
  by rewrite !label_of_add_node_empty.
Qed.

Lemma label_of_add_node (n k : Z) (attrs : gmap string ptb.attr)
    (x : ptb.attr) (g : ptb.PTBDocumentGraph) :
  attrs !! "label" = Some x →
  label_of (ptb.add_node n attrs g) k
  = if decide (k = n) then Some x else label_of g k.
Proof.
  intros Hx. unfold label_of. rewrite node_add_node.
  destruct (decide (k = n)) as [->|Hne]; [|done].
  simpl. by apply lookup_union_Some_l.
Qed.

Lemma set_attr_inv (n : Z) (v : ptb.attr) (g g1 : ptb.PTBDocumentGraph) :
  ptb.set_attr n "label" v g = Ok g1 →
  ptb.edges g1 = ptb.edges g ∧ ptb._node_id g1 = ptb._node_id g
  ∧ ptb.root g1 = ptb.root g
  ∧ ∀ k, label_of g1 k = if decide (k = n) then Some v else label_of g k.
Proof.
  unfold ptb.set_attr, getitem.
  destruct (ptb.node g !! n) as [attrs|] eqn:Hn; [|done].
  cbn [rbind]. intros [= <-]. do 3 (split; [done|]).
  intros k. unfold label_of. simpl.
  destruct (decide (k = n)) as [->|Hne].
  - rewrite lookup_insert_eq. simpl. by rewrite lookup_insert_eq.
  - by rewrite lookup_insert_ne by congruence.
Qed.

Lemma fmap_seqZ_ext {B : Type} (f g : Z → B) (m n : Z) :
  (∀ k, (m ≤ k < m + n)%Z → f k = g k) →
  f <$> seqZ m n = g <$> seqZ m n.
Proof.
  intros Hfg. apply Forall_fmap_ext_1, Forall_forall.
  intros k Hk%elem_of_seqZ. by apply Hfg.
Qed.

Lemma children_edges_cons_tree (r next : Z) (sub : ptb.tree)
    (cs : list (ptb.tree + string)) :
  children_edges tree_edges r (inl sub :: cs) next
  = (r, next, ptb.dominance_relation)
      :: tree_edges sub next
      ++ children_edges tree_edges r cs (next + Z.of_nat (nodes_of sub)).
Proof. reflexivity. Qed.

Lemma children_edges_cons_leaf (r next : Z) (leaf : string)
    (cs : list (ptb.tree + string)) :
  children_edges tree_edges r (inr leaf :: cs) next
  = (r, next, ptb.spanning_relation)
      :: children_edges tree_edges r cs (next + 1).
Proof. reflexivity. Qed.

Lemma children_mirror (root_node_id : Z)
    (children : list (ptb.tree + string)) :
  Forall (fun c => match c with
                   | inl sub =>
                       ∀ g g',
                         ptb._parse_sentencetree sub g = Ok g' →
                         ptb._node_id g'
                         = (ptb._node_id g + Z.of_nat (nodes_of sub) - 1)%Z
                         ∧ ptb.root g' = ptb.root g
                         ∧ ptb.edges g'
                           = ptb.edges g ++ tree_edges sub (ptb._node_id g)
                         ∧ (∀ k, (k < ptb._node_id g)%Z →
                                 label_of g' k = label_of g k)
                         ∧ label_of g'
                             <$> seqZ (ptb._node_id g)
                                      (Z.of_nat (nodes_of sub))
                           = (fun s => Some (ptb.AStr s)) <$> preorder sub
                   | inr _ => True
                   end) children →
  ∀ g g',
    for_each (parse_child root_node_id) g children = Ok g' →
    ptb._node_id g'
    = (ptb._node_id g + Z.of_nat (sum_list_with child_nodes children))%Z
    ∧ ptb.root g' = ptb.root g
    ∧ ptb.edges g'
      = ptb.edges g
        ++ children_edges tree_edges root_node_id children
                          (ptb._node_id g + 1)
    ∧ (∀ k, (k ≤ ptb._node_id g)%Z → label_of g' k = label_of g k)
    ∧ label_of g'
        <$> seqZ (ptb._node_id g + 1)
                 (Z.of_nat (sum_list_with child_nodes children))
      = (fun s => Some (ptb.AStr s)) <$> flat_map child_preorder children.
Proof.
  induction 1 as [|c children Hc _ IH]; intros g g' Hrun.
  - injection Hrun as <-. simpl. rewrite Z.add_0_r, app_nil_r. done.
  - cbn [for_each] in Hrun.
    destruct (parse_child root_node_id g c) as [g1|] eqn:Hstep; [|done].
    cbn [rbind] in Hrun.
    destruct (IH _ _ Hrun) as (Hid' & Hroot' & Hedges' & Hframe' & Hlabels').
    cbn [sum_list_with flat_map]. destruct c as [sub|leaf].
    + change (ptb._parse_sentencetree sub
                (ptb.add_edge root_node_id (ptb._node_id g + 1)
                   ptb.dominance_relation
                   (ptb.add_node (ptb._node_id g + 1)
                      {["label" := ptb.AStr (ptb.get_nodelabel (inl sub))]}
                      (ptb.incr_node_id g))) = Ok g1) in Hstep.
      destruct (Hc _ _ Hstep) as (Hid1 & Hroot1 & Hedges1 & Hframe1 & Hlabels1).
      change (ptb._node_id (ptb.add_edge _ _ _ _))
        with (ptb._node_id g + 1)%Z in Hid1, Hedges1, Hframe1, Hlabels1.
      change (ptb.root (ptb.add_edge _ _ _ _)) with (ptb.root g) in Hroot1.
      change (ptb.edges (ptb.add_edge _ _ _ _))
        with (ptb.edges g ++ [(root_node_id, (ptb._node_id g + 1)%Z,
                               ptb.dominance_relation)]) in Hedges1.
      assert (Hold : ∀ k, (k ≤ ptb._node_id g)%Z →
                label_of g1 k = label_of g k).
      { intros k Hk. rewrite Hframe1 by lia.
        rewrite label_of_add_edge.
        rewrite (label_of_add_node _ _ _ _ _ (lookup_singleton_eq _ _)).
        rewrite decide_False by lia. done. }
      split; [rewrite Hid', Hid1; simpl; lia|].
      split; [congruence|]. split; [|split].
      * rewrite Hedges', Hedges1, children_edges_cons_tree, <- !app_assoc.
        simpl. do 3 f_equal. rewrite Hid1. f_equal. lia.
      * intros k Hk. rewrite Hframe' by lia. by apply Hold.
      * simpl child_nodes. simpl child_preorder.
        rewrite Nat2Z.inj_add, seqZ_app, !fmap_app by lia. f_equal.
        -- rewrite <- Hlabels1. apply fmap_seqZ_ext. intros k Hk.
           apply Hframe'. lia.
        -- rewrite <- Hlabels'. rewrite Hid1. f_equal. f_equal. lia.
    + unfold parse_child in Hstep. cbv zeta in Hstep.
      injection Hstep as <-.
      cbn [ptb._node_id ptb.root ptb.edges ptb.add_node ptb.add_edge
           ptb.incr_node_id ptb.tokens_append ptb.set_node] in *.
      split; [rewrite Hid'; simpl; lia|].
      split; [done|]. split; [|split].
      * rewrite Hedges', children_edges_cons_leaf, <- !app_assoc. done.
      * intros k Hk. rewrite Hframe' by lia.
        rewrite label_of_add_edge.
        erewrite label_of_add_node.
        -- rewrite decide_False by lia. done.
        -- rewrite lookup_insert_ne by apply token_key_not_label.
           apply lookup_singleton_eq.
      * simpl child_nodes. simpl child_preorder.
        rewrite Nat2Z.inj_add, seqZ_app, !fmap_app by lia. f_equal.
        -- change (Z.of_nat 1) with 1%Z.
           rewrite seqZ_cons, seqZ_nil by lia. simpl.
           rewrite Hframe' by lia. rewrite label_of_add_edge.
           erewrite label_of_add_node.
           ++ by rewrite decide_True.
           ++ rewrite lookup_insert_ne by apply token_key_not_label.
              apply lookup_singleton_eq.
        -- rewrite <- Hlabels'. done.
Qed.

Lemma preorder_unfold (label : string)
    (children : list (ptb.tree + string)) :
  preorder (ptb.Tree label children)
  = label :: flat_map child_preorder children.
Proof. reflexivity. Qed.

Lemma tree_mirror (t : ptb.tree) :
  ∀ g g',
    ptb._parse_sentencetree t g = Ok g' →
    ptb._node_id g' = (ptb._node_id g + Z.of_nat (nodes_of t) - 1)%Z
    ∧ ptb.root g' = ptb.root g
    ∧ ptb.edges g' = ptb.edges g ++ tree_edges t (ptb._node_id g)
    ∧ (∀ k, (k < ptb._node_id g)%Z → label_of g' k = label_of g k)
    ∧ label_of g' <$> seqZ (ptb._node_id g) (Z.of_nat (nodes_of t))
      = (fun s => Some (ptb.AStr s)) <$> preorder t.
Proof.
  induction t as [label children IH] using tree_ind'.
  intros g g' Hparse. rewrite parse_unfold in Hparse.
  destruct (ptb.set_attr _ _ _ g) as [g1|] eqn:Hset; [|done].
  cbn [rbind] in Hparse.
  apply set_attr_inv in Hset as (Hedges1 & Hid1 & Hroot1 & Hlabel1).
  destruct (children_mirror _ children IH _ _ Hparse)
    as (Hid' & Hroot' & Hedges' & Hframe' & Hlabels').
  rewrite Hid1 in Hid', Hedges', Hframe', Hlabels'.
  rewrite nodes_of_unfold, preorder_unfold.
  split; [lia|]. split; [congruence|]. split; [|split].
  - by rewrite Hedges', Hedges1.
  - intros k Hk. rewrite Hframe', Hlabel1 by lia.
    by rewrite decide_False by lia.
  - rewrite seqZ_cons by lia. rewrite !fmap_cons. f_equal.
    + rewrite Hframe', Hlabel1 by lia. by rewrite decide_True.
    + rewrite <- Hlabels'. f_equal. f_equal; lia.
Qed.

Lemma sentence_mirror (sentence : ptb.tree) (g g' : ptb.PTBDocumentGraph) :
  ptb._add_sentence g sentence = Ok g' →
  ptb._node_id g' = (ptb._node_id g + Z.of_nat (nodes_of sentence))%Z
  ∧ ptb.root g' = ptb.root g
  ∧ ptb.edges g'
    = ptb.edges g
      ++ (ptb.root g, ptb._node_id g, ptb.spanning_relation)
         :: tree_edges sentence (ptb._node_id g)
  ∧ (∀ k, (k < ptb._node_id g)%Z → label_of g' k = label_of g k)
  ∧ label_of g' <$> seqZ (ptb._node_id g) (Z.of_nat (nodes_of sentence))
    = (fun s => Some (ptb.AStr s)) <$> preorder sentence.
Proof.
  unfold ptb._add_sentence. cbv zeta.
  destruct (ptb._parse_sentencetree sentence _) as [g2|] eqn:Hparse; [|done].
  cbn [rbind]. intros [= <-].
  apply tree_mirror in Hparse as (Hid & Hroot & Hedges & Hframe & Hlabels).
  change (ptb._node_id (ptb.add_edge _ _ _ _))
    with (ptb._node_id g) in Hid, Hedges, Hframe, Hlabels.
  change (ptb.root (ptb.add_edge _ _ _ _)) with (ptb.root g) in Hroot.
  change (ptb.edges (ptb.add_edge _ _ _ _))
    with (ptb.edges g ++ [(ptb.root g, ptb._node_id g,
                           ptb.spanning_relation)]) in Hedges.
  cbn [ptb._node_id ptb.root ptb.edges ptb.incr_node_id].
  split; [lia|]. split; [done|]. split; [|split].
  - by rewrite Hedges, <- app_assoc.
  - intros k Hk. change (label_of g2 k = label_of g k).
    rewrite Hframe by done. by rewrite label_of_add_edge.
  - exact Hlabels.
Qed.

Lemma sentences_mirror (sents : list ptb.tree) :
  ∀ g g',
    for_each ptb._add_sentence g sents = Ok g' →
    ptb.root g = 0%Z →
    ptb._node_id g'
    = (ptb._node_id g + Z.of_nat (sum_list_with nodes_of sents))%Z
    ∧ ptb.edges g' = ptb.edges g ++ document_edges sents (ptb._node_id g)
    ∧ (∀ k, (k < ptb._node_id g)%Z → label_of g' k = label_of g k)
    ∧ label_of g'
        <$> seqZ (ptb._node_id g) (Z.of_nat (sum_list_with nodes_of sents))
      = (fun s => Some (ptb.AStr s)) <$> flat_map preorder sents.
Proof.
  induction sents as [|t sents IH]; intros g g' Hrun Hroot.
  - injection Hrun as <-. simpl. rewrite Z.add_0_r, app_nil_r. done.
  - cbn [for_each] in Hrun.
    destruct (ptb._add_sentence g t) as [g1|] eqn:Hstep; [|done].
    cbn [rbind] in Hrun.
    apply sentence_mirror in Hstep
      as (Hid1 & Hroot1 & Hedges1 & Hframe1 & Hlabels1).
    destruct (IH _ _ Hrun) as (Hid' & Hedges' & Hframe' & Hlabels');
      [congruence|].
    cbn [sum_list_with flat_map document_edges].
    split; [lia|]. split; [|split].
    + rewrite Hedges', Hedges1, Hroot, Hid1, <- !app_assoc. done.
    + intros k Hk. rewrite Hframe' by lia. by apply Hframe1.
    + rewrite Nat2Z.inj_add, seqZ_app, !fmap_app by lia. f_equal.
      * rewrite <- Hlabels1. apply fmap_seqZ_ext. intros k Hk.
        apply Hframe'. lia.
      * rewrite <- Hlabels', Hid1. done.
Qed.

Example document_edges_john_runs :
  document_edges [john_runs] 1
  = [(0, 1, ptb.spanning_relation); (1, 2, ptb.dominance_relation);
     (2, 3, ptb.dominance_relation); (3, 4, ptb.spanning_relation);
     (1, 5, ptb.dominance_relation); (5, 6, ptb.dominance_relation);
     (6, 7, ptb.spanning_relation)]%Z
  ∧ preorder john_runs = ["S"; "NP"; "NNP"; "John"; "VP"; "VBZ"; "runs"].
Proof. split; reflexivity. Qed.

(** X20. The edges of the graph are those of the trees: the sentence
    roots hang below the document root [0] by spanning edges, and below a
    sentence root every tree node is linked to each of its children, in
    the order of the children, by a dominance edge when the child is a
    tree and by a spanning edge when it is a leaf, where the nodes of a
    sentence are numbered depth first, from left to right, after those of
    the sentences before it. *)
Theorem edges_mirror_trees (parsed_sents : list ptb.tree)
    (ptb_filename : string) (name : option string) (namespace : string) :
  ∃ g,
    ptb.__init__ parsed_sents ptb_filename name namespace None = Ok g
    ∧ ptb.edges g = document_edges parsed_sents 1.
Proof.
  destruct (init_sentences parsed_sents ptb_filename name namespace None)
    as (g & used & Hinit & -> & _).
  exists g. split; [done|].
  unfold ptb.__init__ in Hinit.
  by apply sentences_mirror in Hinit as (_ & -> & _).
Qed.

(** X21. Every node carries the label of the tree node or leaf it stands
    for: the document root [0] is labelled with the namespace followed by
    [':root_node'], and the labels of the nodes [1], [2], ... are the
    labels of the trees and the strings of their leaves in depth-first
    order, from left to right, sentence after sentence. *)
Theorem labels_in_preorder (parsed_sents : list ptb.tree)
    (ptb_filename : string) (name : option string) (namespace : string) :
  ∃ g,
    ptb.__init__ parsed_sents ptb_filename name namespace None = Ok g
    ∧ label_of g 0 = Some (ptb.AStr (namespace +:+ ":root_node"))
    ∧ label_of g
        <$> seqZ 1 (Z.of_nat (sum_list_with nodes_of parsed_sents))
      = (fun s => Some (ptb.AStr s)) <$> flat_map preorder parsed_sents.
Proof.
  destruct (init_sentences parsed_sents ptb_filename name namespace None)
    as (g & used & Hinit & -> & _).
  exists g. split; [done|].
  unfold ptb.__init__ in Hinit.
  apply sentences_mirror in Hinit as (_ & _ & Hframe & Hlabels); [|done].
  split; [|exact Hlabels].
  rewrite Hframe by (simpl; lia).
  unfold label_of. simpl. rewrite lookup_singleton_eq. simpl.
  apply lookup_insert_eq.
Qed.
